(** * Evently REST API: a shallow embedding of the selector codec, the
      registry fold, selector execution, the notification matcher and the
      append engine, with the properties stated for them.

    Conventions.
    - A JavaScript string is the list of its UTF-16 code units
      ([jsstring]); [u "..."] writes an ASCII literal.
    - A JavaScript object or [Map] is the list of its entries in
      enumeration order ([omap]); [oset], [odelete] and [oget] follow
      [Map.prototype.set/delete/get]. The keys of an object are taken
      not to be array indices, which JavaScript enumerates first.
    - Code that throws returns [Throw e]; [HttpError] carries the status
      of the [http-errors] constructor that the source calls.
    - The database and the external libraries (msgpackr, sql-jsonpath-js,
      JSON.stringify) are parameters of the sections that use them. *)

From Stdlib Require Import List ZArith NArith Lia Bool Ascii.
From Stdlib Require Import Permutation Sorted.
From Stdlib Require String.
Import ListNotations.
Import String.StringSyntax.
Delimit Scope string_scope with string.

Set Implicit Arguments.
Set Warnings "-register-all".

Local Open Scope Z_scope.
Local Open Scope list_scope.

(* ===================================================================== *)
(** * JavaScript strings                                                  *)
(* ===================================================================== *)

Definition jsstring := list N.

Definition u (s : String.string) : jsstring :=
  map N_of_ascii (String.list_ascii_of_string s).
Arguments u s%_string.

Fixpoint str_eqb (a b : jsstring) : bool :=
  match a, b with
  | [], [] => true
  | x :: a', y :: b' => N.eqb x y && str_eqb a' b'
  | _, _ => false
  end.

Lemma str_eqb_eq (a b : jsstring) : str_eqb a b = true <-> a = b.
Proof.
  revert b; induction a as [|x a IH]; intros [|y b]; simpl;
    try (split; [discriminate | discriminate]); try tauto.
  rewrite andb_true_iff, N.eqb_eq, IH. split.
  - intros [-> ->]; reflexivity.
  - intros H; injection H; auto.
Qed.

Lemma str_eqb_refl (a : jsstring) : str_eqb a a = true.
Proof. apply str_eqb_eq; reflexivity. Qed.

Lemma str_eqb_neq (a b : jsstring) : str_eqb a b = false <-> a <> b.
Proof.
  rewrite <- str_eqb_eq. destruct (str_eqb a b); split; congruence.
Qed.

Lemma str_eqb_sym (a b : jsstring) : str_eqb a b = str_eqb b a.
Proof.
  destruct (str_eqb a b) eqn:E.
  - apply str_eqb_eq in E; subst; symmetry; apply str_eqb_refl.
  - symmetry; apply str_eqb_neq; apply str_eqb_neq in E; congruence.
Qed.

(** [Array.prototype.includes] on an array of strings. *)
Definition includes (xs : list jsstring) (x : jsstring) : bool :=
  existsb (str_eqb x) xs.

Lemma includes_In (xs : list jsstring) (x : jsstring) :
  includes xs x = true <-> In x xs.
Proof.
  unfold includes. rewrite existsb_exists. split.
  - intros [y [Hy E]]. apply str_eqb_eq in E. subst; assumption.
  - intros H. exists x. split; [assumption | apply str_eqb_refl].
Qed.

(** [String.prototype.startsWith]. *)
Fixpoint startsWith (s p : jsstring) {struct p} : bool :=
  match p, s with
  | [], _ => true
  | c :: p', d :: s' => N.eqb c d && startsWith s' p'
  | _ :: _, [] => false
  end.

Lemma startsWith_app (p s : jsstring) : startsWith (p ++ s) p = true.
Proof. induction p; simpl; [reflexivity | rewrite N.eqb_refl; assumption]. Qed.

Lemma startsWith_inv (s p : jsstring) :
  startsWith s p = true -> exists r, s = p ++ r.
Proof.
  revert s; induction p as [|c p IH]; intros s H; simpl in *.
  - exists s; reflexivity.
  - destruct s as [|d s]; [discriminate|].
    apply andb_true_iff in H. destruct H as [E H].
    apply N.eqb_eq in E. subst. destruct (IH _ H) as [r ->].
    exists r; reflexivity.
Qed.

(** White space and line terminators, as [trimStart] and [parseInt]
    skip them. *)
Definition isWhiteSpace (c : N) : bool :=
  existsb (N.eqb c)
    [0x9; 0xA; 0xB; 0xC; 0xD; 0x20; 0xA0; 0x1680; 0x2000; 0x2001; 0x2002;
     0x2003; 0x2004; 0x2005; 0x2006; 0x2007; 0x2008; 0x2009; 0x200A;
     0x2028; 0x2029; 0x202F; 0x205F; 0x3000; 0xFEFF]%N.

Fixpoint trimStart (s : jsstring) : jsstring :=
  match s with
  | c :: r => if isWhiteSpace c then trimStart r else s
  | [] => []
  end.

(* ===================================================================== *)
(** * Insertion-ordered maps: JavaScript objects and [Map]                *)
(* ===================================================================== *)

Section OMap.
Variable V : Type.

Definition omap := list (jsstring * V).

Fixpoint oget (k : jsstring) (m : omap) : option V :=
  match m with
  | [] => None
  | (k', v) :: r => if str_eqb k k' then Some v else oget k r
  end.

(** [m.set(k, v)]: an existing key keeps its position, a new key goes
    last. *)
Fixpoint oset (k : jsstring) (v : V) (m : omap) : omap :=
  match m with
  | [] => [(k, v)]
  | (k', v') :: r =>
      if str_eqb k k' then (k, v) :: r else (k', v') :: oset k v r
  end.

Fixpoint odelete (k : jsstring) (m : omap) : omap :=
  match m with
  | [] => []
  | (k', v') :: r =>
      if str_eqb k k' then odelete k r else (k', v') :: odelete k r
  end.

Definition okeys (m : omap) : list jsstring := map fst m.

Lemma oget_oset_eq k v m : oget k (oset k v m) = Some v.
Proof.
  induction m as [|[k' v'] r IH]; simpl.
  - rewrite str_eqb_refl; reflexivity.
  - destruct (str_eqb k k') eqn:E; simpl.
    + rewrite str_eqb_refl; reflexivity.
    + rewrite E; assumption.
Qed.

Lemma oget_oset_ne k k' v m : k' <> k -> oget k' (oset k v m) = oget k' m.
Proof.
  intros Hne. induction m as [|[k0 v0] r IH]; simpl.
  - apply str_eqb_neq in Hne. rewrite Hne; reflexivity.
  - destruct (str_eqb k k0) eqn:E; simpl.
    + apply str_eqb_eq in E; subst k0.
      apply str_eqb_neq in Hne. rewrite Hne; reflexivity.
    + destruct (str_eqb k' k0); [reflexivity | assumption].
Qed.

Lemma oget_odelete_eq k m : oget k (odelete k m) = None.
Proof.
  induction m as [|[k' v'] r IH]; simpl; [reflexivity|].
  destruct (str_eqb k k') eqn:E; simpl; [assumption|].
  rewrite E; assumption.
Qed.

Lemma oget_odelete_ne k k' m : k' <> k -> oget k' (odelete k m) = oget k' m.
Proof.
  intros Hne. induction m as [|[k0 v0] r IH]; simpl; [reflexivity|].
  destruct (str_eqb k k0) eqn:E; simpl.
  - apply str_eqb_eq in E; subst k0.
    apply str_eqb_neq in Hne. rewrite Hne; assumption.
  - destruct (str_eqb k' k0); [reflexivity | assumption].
Qed.

Lemma oget_None_notin k m : oget k m = None <-> ~ In k (okeys m).
Proof.
  induction m as [|[k' v'] r IH]; simpl; [tauto|].
  destruct (str_eqb k k') eqn:E.
  - apply str_eqb_eq in E; subst. split; [discriminate | intros H; elim H; auto].
  - apply str_eqb_neq in E. rewrite IH. split.
    + intros H [H1 | H1]; [congruence | auto].
    + intros H H1; apply H; auto.
Qed.

Lemma oget_Some_In k v m : oget k m = Some v -> In (k, v) m.
Proof.
  induction m as [|[k' v'] r IH]; simpl; [discriminate|].
  destruct (str_eqb k k') eqn:E.
  - apply str_eqb_eq in E; subst. intros H; injection H as ->; auto.
  - auto.
Qed.

Lemma In_oget k v m : NoDup (okeys m) -> In (k, v) m -> oget k m = Some v.
Proof.
  induction m as [|[k' v'] r IH]; simpl; [tauto|].
  intros Hnd [H | H].
  - injection H as -> ->. rewrite str_eqb_refl; reflexivity.
  - inversion Hnd as [|? ? Hnotin Hnd']; subst.
    destruct (str_eqb k k') eqn:E.
    + apply str_eqb_eq in E; subst. elim Hnotin.
      change (In k' (map fst r)). apply in_map_iff. exists (k', v); auto.
    + auto.
Qed.

Lemma okeys_oset_notin k v m :
  ~ In k (okeys m) -> okeys (oset k v m) = okeys m ++ [k].
Proof.
  induction m as [|[k' v'] r IH]; simpl; [reflexivity|].
  intros H. destruct (str_eqb k k') eqn:E.
  - apply str_eqb_eq in E; subst. elim H; auto.
  - simpl. f_equal. apply IH. intros H1; apply H; auto.
Qed.

Lemma okeys_oset_in k v m : In k (okeys m) -> okeys (oset k v m) = okeys m.
Proof.
  induction m as [|[k' v'] r IH]; simpl; [tauto|].
  intros H. destruct (str_eqb k k') eqn:E.
  - apply str_eqb_eq in E; subst. reflexivity.
  - simpl. f_equal. apply IH. destruct H as [H | H]; [|assumption].
    apply str_eqb_neq in E. congruence.
Qed.

Lemma In_okeys_odelete k k' m :
  In k' (okeys (odelete k m)) <-> k' <> k /\ In k' (okeys m).
Proof.
  induction m as [|[k0 v0] r IH]; simpl; [tauto|].
  destruct (str_eqb k k0) eqn:E.
  - apply str_eqb_eq in E; subst k0. rewrite IH. intuition congruence.
  - apply str_eqb_neq in E. simpl. rewrite IH. intuition congruence.
Qed.

Lemma NoDup_okeys_oset k v m : NoDup (okeys m) -> NoDup (okeys (oset k v m)).
Proof.
  intros Hnd. destruct (in_dec (list_eq_dec N.eq_dec) k (okeys m)) as [Hin | Hnin].
  - rewrite okeys_oset_in; assumption.
  - rewrite okeys_oset_notin by assumption.
    apply NoDup_rev in Hnd. rewrite <- (rev_involutive (okeys m ++ [k])).
    apply NoDup_rev. rewrite rev_app_distr. simpl. constructor; [|assumption].
    rewrite <- in_rev. assumption.
Qed.

Lemma NoDup_okeys_odelete k m : NoDup (okeys m) -> NoDup (okeys (odelete k m)).
Proof.
  induction m as [|[k0 v0] r IH]; simpl; [auto|].
  intros Hnd. inversion Hnd as [|? ? Hnotin Hnd']; subst.
  destruct (str_eqb k k0); [auto|].
  simpl. constructor; [|auto].
  intros H. apply In_okeys_odelete in H. tauto.
Qed.
End OMap.

(* ===================================================================== *)
(** * Results of code that may throw                                      *)
(* ===================================================================== *)

Inductive exn :=
| HttpError (status : Z) (message : jsstring)
| JsError (message : jsstring)
| PostgresError (code message : jsstring) (constraint_name : option jsstring).

Inductive result (A : Type) :=
| Ok (a : A)
| Throw (e : exn).
Arguments Ok {A} a.
Arguments Throw {A} e.

Definition status_of {A} (r : result A) : option Z :=
  match r with
  | Throw (HttpError s _) => Some s
  | _ => None
  end.

Definition BadRequest := HttpError 400.
Definition NotFound := HttpError 404.
Definition UnprocessableEntity := HttpError 422.
Definition InternalServerError := HttpError 500.
Definition ServiceUnavailable := HttpError 503.

(* ===================================================================== *)
(** * Shared data model (types.ts)                                        *)
(* ===================================================================== *)

(** A [Long] is a signed 64-bit integer, kept as its value. *)
Definition Long := Z.

Record EventID := {
  timestamp : Long;
  checksum : Z;
  ledgerId : jsstring
}.

Record Ledger := {
  id : jsstring;
  name : jsstring;
  description : jsstring;
  genesis : EventID
}.

(** The ledger of the README, used in the examples below. *)
Definition demoLedger : Ledger :=
  {| id := u "3b9c0ad0"; name := u "First ledger"; description := u "";
     genesis := {| timestamp := 1; checksum := 0; ledgerId := u "3b9c0ad0" |} |}.

(** The reserved entity name, "📒" (U+1F4D2). *)
Definition LEDGER : jsstring := [0xD83D; 0xDCD2]%N.

(** JSON values, as the request bodies and the [jsonb] columns hold them.
    Numbers are the integer-valued ones; no function below inspects a
    number. *)
Inductive jsval :=
| JNull
| JBool (b : bool)
| JNum (n : Z)
| JStr (s : jsstring)
| JArr (xs : list jsval)
| JObj (kvs : list (jsstring * jsval)).

Definition EntitiesRecord := omap (list jsstring).
Definition UnknownObject := omap jsval.

(* ===================================================================== *)
(** * Registry (registry/postgres-registry.ts)                            *)
(* ===================================================================== *)

Module Registry.

(** "🟧𒍪" and "🟧𒁁". *)
Definition EVENT_REGISTERED : jsstring := [0xD83D; 0xDFE7; 0xD808; 0xDF6A]%N.
Definition EVENT_UNREGISTERED : jsstring := [0xD83D; 0xDFE7; 0xD808; 0xDC41]%N.

Record EventType := {
  event : jsstring;
  entities : list jsstring
}.

(** What [reduceAllEvents] reads of each event of the stream: the event
    name ([action]) and the two fields of [data]. An unregistration
    marker is written with [data = {event}]; its [entities] is read by
    the destructuring and never used. *)
Record MarkerData := {
  data_event : jsstring;
  data_entities : list jsstring
}.

Record StreamEvent := {
  action : jsstring;
  data : MarkerData
}.

Definition eventEntitiesMap := omap (list jsstring).

(** The body of the [for await] loop. *)
Definition reduceStep (m : eventEntitiesMap) (e : StreamEvent)
  : result eventEntitiesMap :=
  let event := data_event (data e) in
  let entities := data_entities (data e) in
  if str_eqb (action e) EVENT_REGISTERED then Ok (oset event entities m)
  else if str_eqb (action e) EVENT_UNREGISTERED then Ok (odelete event m)
  else Throw (JsError (u "Unknown event in stream: " ++ event)).

Fixpoint reduceLoop (m : eventEntitiesMap) (stream : list StreamEvent)
  : result eventEntitiesMap :=
  match stream with
  | [] => Ok m
  | e :: rest =>
      match reduceStep m e with
      | Ok m' => reduceLoop m' rest
      | Throw x => Throw x
      end
  end.

Definition toEventTypes (m : eventEntitiesMap) : list EventType :=
  map (fun '(event, entities) => {| event := event; entities := entities |}) m.

(** [reduceAllEvents], given the event stream that [runFilter] returns
    for the marker selector. *)
Definition reduceAllEvents (stream : list StreamEvent) : result (list EventType) :=
  match reduceLoop [] stream with
  | Ok m => Ok (toEventTypes m)
  | Throw x => Throw x
  end.

(** The per-process cache, keyed by ledger id, holding the (settled)
    promise of an earlier [reduceAllEvents]. *)
Definition Cache := omap (result (list EventType)).

Definition cachedAllEvents (cache : Cache) (ledger : Ledger)
           (stream : list StreamEvent) : result (list EventType) * Cache :=
  let key := id ledger in
  match oget key cache with
  | Some eem => (eem, cache)
  | None =>
      let eem := reduceAllEvents stream in
      (eem, oset key eem cache)
  end.


Definition findEvent (allEvents : list EventType) (ev : jsstring)
  : option EventType :=
  find (fun e => str_eqb (event e) ev) allEvents.

Definition getEvent (cache : Cache) (ledger : Ledger)
           (stream : list StreamEvent) (ev : jsstring)
  : result (option EventType) * Cache :=
  match cachedAllEvents cache ledger stream with
  | (Ok allEvents, cache') => (Ok (findEvent allEvents ev), cache')
  | (Throw x, cache') => (Throw x, cache')
  end.

(** ** Ledger histories of markers *)

Inductive Marker :=
| Registered (ev : jsstring) (ents : list jsstring)
| Unregistered (ev : jsstring).

Definition markerName (m : Marker) : jsstring :=
  match m with
  | Registered ev _ => ev
  | Unregistered ev => ev
  end.

(** The persisted event that [registerEventType] / [unregisterEventType]
    append for a marker. *)
Definition markerEvent (m : Marker) : StreamEvent :=
  match m with
  | Registered ev ents =>
      {| action := EVENT_REGISTERED;
         data := {| data_event := ev; data_entities := ents |} |}
  | Unregistered ev =>
      {| action := EVENT_UNREGISTERED;
         data := {| data_event := ev; data_entities := [] |} |}
  end.

(** The last marker of the history that names [ev]. *)
Fixpoint lastMarker (ev : jsstring) (H : list Marker) : option Marker :=
  match H with
  | [] => None
  | m :: rest =>
      match lastMarker ev rest with
      | Some m' => Some m'
      | None => if str_eqb (markerName m) ev then Some m else None
      end
  end.

(** The entities of [ev] when its last marker is a registration. *)
Definition registeredAs (ev : jsstring) (H : list Marker) : option (list jsstring) :=
  match lastMarker ev H with
  | Some (Registered _ ents) => Some ents
  | _ => None
  end.

(** The fold of section 4.2, written on markers. *)
Definition applyMarker (m : eventEntitiesMap) (mk : Marker) : eventEntitiesMap :=
  match mk with
  | Registered ev ents => oset ev ents m
  | Unregistered ev => odelete ev m
  end.

Definition foldMarkers (H : list Marker) : eventEntitiesMap :=
  fold_left applyMarker H [].

Lemma reduceLoop_markers (H : list Marker) (m : eventEntitiesMap) :
  reduceLoop m (map markerEvent H) = Ok (fold_left applyMarker H m).
Proof.
  revert m; induction H as [|mk H IH]; intros m; simpl; [reflexivity|].
  destruct mk as [ev ents | ev]; unfold reduceStep; simpl; apply IH.
Qed.

Lemma fold_markers_get (H : list Marker) (m : eventEntitiesMap) (ev : jsstring) :
  oget ev (fold_left applyMarker H m) =
  match lastMarker ev H with
  | Some (Registered _ ents) => Some ents
  | Some (Unregistered _) => None
  | None => oget ev m
  end.
Proof.
  revert m; induction H as [|mk H IH]; intros m; simpl; [reflexivity|].
  rewrite IH. destruct (lastMarker ev H) as [[? ?|?]|]; try reflexivity.
  destruct mk as [ev' ents | ev']; simpl.
  - destruct (str_eqb ev' ev) eqn:E.
    + apply str_eqb_eq in E; subst. apply oget_oset_eq.
    + apply str_eqb_neq in E. apply oget_oset_ne. congruence.
  - destruct (str_eqb ev' ev) eqn:E.
    + apply str_eqb_eq in E; subst. apply oget_odelete_eq.
    + apply str_eqb_neq in E. apply oget_odelete_ne. congruence.
Qed.

Lemma fold_markers_NoDup (H : list Marker) (m : eventEntitiesMap) :
  NoDup (okeys m) -> NoDup (okeys (fold_left applyMarker H m)).
Proof.
  revert m; induction H as [|mk H IH]; intros m Hm; simpl; [assumption|].
  apply IH. destruct mk; simpl.
  - apply NoDup_okeys_oset; assumption.
  - apply NoDup_okeys_odelete; assumption.
Qed.

Lemma foldMarkers_get (H : list Marker) (ev : jsstring) :
  oget ev (foldMarkers H) = registeredAs ev H.
Proof.
  unfold foldMarkers, registeredAs. rewrite fold_markers_get.
  destruct (lastMarker ev H) as [[? ?|?]|]; reflexivity.
Qed.

Lemma findEvent_toEventTypes (m : eventEntitiesMap) (ev : jsstring) :
  findEvent (toEventTypes m) ev =
  option_map (fun ents => {| event := ev; entities := ents |}) (oget ev m).
Proof.
  induction m as [|[k v] r IH]; simpl; [reflexivity|].
  rewrite (str_eqb_sym ev k). destruct (str_eqb k ev) eqn:E.
  - apply str_eqb_eq in E; subst; reflexivity.
  - apply IH.
Qed.

Lemma In_toEventTypes (m : eventEntitiesMap) (ev : jsstring) (ents : list jsstring) :
  In {| event := ev; entities := ents |} (toEventTypes m) <-> In (ev, ents) m.
Proof.
  unfold toEventTypes. rewrite in_map_iff. split.
  - intros [[k v] [E Hin]]. injection E as -> ->. assumption.
  - intros Hin. exists (ev, ents). auto.
Qed.


Lemma reduceAllEvents_markers (H : list Marker) :
  reduceAllEvents (map markerEvent H) = Ok (toEventTypes (foldMarkers H)).
Proof. unfold reduceAllEvents. rewrite reduceLoop_markers. reflexivity. Qed.

(** The cache entry of a ledger, when there is one, was computed from the
    ledger's current history: [registerEventType] and
    [unregisterEventType] delete the entry after they append a marker. *)
Definition cacheFresh (cache : Cache) (ledger : Ledger) (H : list Marker) : Prop :=
  oget (id ledger) cache = None \/
  oget (id ledger) cache = Some (reduceAllEvents (map markerEvent H)).

Lemma cachedAllEvents_fresh (cache : Cache) (ledger : Ledger) (H : list Marker) :
  cacheFresh cache ledger H ->
  fst (cachedAllEvents cache ledger (map markerEvent H)) =
  Ok (toEventTypes (foldMarkers H)).
Proof.
  unfold cachedAllEvents. intros [E | E]; rewrite E; simpl;
    apply reduceAllEvents_markers.
Qed.




End Registry.

(* ===================================================================== *)
(** * Event ids (types.ts, eventId-utils.ts)                              *)
(* ===================================================================== *)

Module EventId.

(** A [Buffer] is the list of its bytes. *)
Definition Buffer := list Z.

Definition two32 : Z := 4294967296.
Definition two31 : Z := 2147483648.

(** The value of the 32-bit pattern [x] read as a signed integer. *)
Definition toInt32 (x : Z) : Z :=
  let m := x mod two32 in if m <? two31 then m else m - two32.

(** [Long.getHighBits], [Long.getLowBits], [Long.fromBits(low, high)]. *)
Definition getHighBits (l : Long) : Z := toInt32 (l / two32).
Definition getLowBits (l : Long) : Z := toInt32 l.
Definition fromBits (low high : Z) : Long :=
  toInt32 high * two32 + low mod two32.

(** The four big-endian bytes of the 32-bit pattern of [v]:
    [writeInt32BE] and [writeUInt32BE] store the same bytes. *)
Definition bytesBE (v : Z) : Buffer :=
  [(v / 16777216) mod 256; (v / 65536) mod 256; (v / 256) mod 256; v mod 256].

Definition readUInt32BE (buf : Buffer) (offset : nat) : Z :=
  nth offset buf 0 * 16777216 + nth (offset + 1) buf 0 * 65536
  + nth (offset + 2) buf 0 * 256 + nth (offset + 3) buf 0.

Definition readInt32BE (buf : Buffer) (offset : nat) : Z :=
  toInt32 (readUInt32BE buf offset).

Definition bufferToLong (buf : Buffer) (offset : nat) : Long :=
  fromBits (readInt32BE buf (offset + 4)) (readInt32BE buf offset).

(** [longToBuffer], as the eight bytes it writes. *)
Definition longToBuffer (long : Long) : Buffer :=
  bytesBE (getHighBits long) ++ bytesBE (getLowBits long).

(** ** Hexadecimal text *)

Definition hexChar (d : Z) : N :=
  Z.to_N (if d <? 10 then 48 + d else 87 + d).

Definition hexVal (c : N) : option Z :=
  let z := Z.of_N c in
  if (48 <=? z) && (z <=? 57) then Some (z - 48)
  else if (97 <=? z) && (z <=? 102) then Some (z - 87)
  else if (65 <=? z) && (z <=? 70) then Some (z - 55)
  else None.

(** The digits of [n.toString(16)] for an integer [n >= 0]; sixteen
    digits cover every 64-bit value. *)
Fixpoint hexDigits (fuel : nat) (n : Z) : jsstring :=
  match fuel with
  | O => [hexChar (n mod 16)]
  | S f => if n <? 16 then [hexChar n]
           else hexDigits f (n / 16) ++ [hexChar (n mod 16)]
  end.

Definition toString16 (n : Z) : jsstring := hexDigits 16 n.

(** [s.padStart(len, "0")]. *)
Definition padStart0 (len : nat) (s : jsstring) : jsstring :=
  repeat 48%N (len - length s) ++ s.

(** The longest prefix of hexadecimal digits, as a number; [None] when
    there is no digit. *)
Fixpoint parseHexDigits (acc : option Z) (s : jsstring) : option Z :=
  match s with
  | c :: r =>
      match hexVal c with
      | Some d =>
          parseHexDigits (Some (16 * match acc with Some a => a | None => 0 end + d)) r
      | None => acc
      end
  | [] => acc
  end.

(** [Number.parseInt(s, 16)]; [None] is [NaN]. *)
Definition parseInt16 (s : jsstring) : option Z :=
  let s1 := trimStart s in
  let '(neg, s2) :=
    match s1 with
    | c :: r => if N.eqb c 45 then (true, r)
                else if N.eqb c 43 then (false, r) else (false, s1)
    | [] => (false, s1)
    end in
  let s3 :=
    match s2 with
    | c0 :: c1 :: r =>
        if N.eqb c0 48 && (N.eqb c1 120 || N.eqb c1 88) then r else s2
    | _ => s2
    end in
  match parseHexDigits None s3 with
  | Some v => Some (if neg then - v else v)
  | None => None
  end.

(** [buf.writeUInt32BE(value)]: a value outside [0, 2^32 - 1] raises a
    [RangeError]; [NaN] passes the range check and is stored as 0. *)
Definition writeUInt32BE (value : option Z) : result Buffer :=
  match value with
  | None => Ok (bytesBE 0)
  | Some v =>
      if (0 <=? v) && (v <? two32) then Ok (bytesBE v)
      else Throw (JsError (u "ERR_OUT_OF_RANGE"))
  end.

Definition eventIdPartsToBuffer (timestamp : Long) (checksum : Z)
           (ledgerId : jsstring) : result Buffer :=
  match writeUInt32BE (Some checksum) with
  | Throw e => Throw e
  | Ok c =>
      match writeUInt32BE (parseInt16 ledgerId) with
      | Throw e => Throw e
      | Ok l => Ok (longToBuffer timestamp ++ c ++ l)
      end
  end.

Definition toEventIdBytes (eventId : EventID) : result Buffer :=
  eventIdPartsToBuffer (timestamp eventId) (checksum eventId) (ledgerId eventId).

(** [buf.toString("hex")]. *)
Definition bufferToHex (buf : Buffer) : jsstring :=
  flat_map (fun b => [hexChar (b / 16); hexChar (b mod 16)]) buf.

Definition toEventIdString (timestamp : Long) (checksum : Z)
           (ledgerId : jsstring) : result jsstring :=
  match eventIdPartsToBuffer timestamp checksum ledgerId with
  | Ok buf => Ok (bufferToHex buf)
  | Throw e => Throw e
  end.

Definition eventIdToString (eventId : EventID) : result jsstring :=
  toEventIdString (timestamp eventId) (checksum eventId) (ledgerId eventId).

Definition fromEventIdBytes (buf : Buffer) : result EventID :=
  if Nat.eqb (length buf) 16 then
    Ok {| timestamp := bufferToLong buf 0;
          checksum := readUInt32BE buf 8;
          ledgerId := padStart0 8 (toString16 (readUInt32BE buf 12)) |}
  else Throw (BadRequest (u "Invalid 'eventId' buffer value")).

(** [Buffer.from(s, "hex")]: pairs of digits, cut at the first pair that
    is not hexadecimal. *)
Fixpoint bufferFromHex (s : jsstring) : Buffer :=
  match s with
  | c0 :: c1 :: r =>
      match hexVal c0, hexVal c1 with
      | Some h, Some l => (16 * h + l) :: bufferFromHex r
      | _, _ => []
      end
  | _ => []
  end.

Definition maybeFromEventIdString (eventId : option jsstring)
  : result (option EventID) :=
  match eventId with
  | Some s =>
      if Nat.eqb (length s) 32 then
        match fromEventIdBytes (bufferFromHex s) with
        | Ok e => Ok (Some e)
        | Throw x => Throw x
        end
      else Throw (BadRequest (u "Invalid 'eventId' value: " ++ s))
  | None => Ok None
  end.

End EventId.

(* ===================================================================== *)
(** * Selectors (types.ts) and key sorting (selector-utils.ts)            *)
(* ===================================================================== *)

Record JsonpathFilter := {
  query : jsstring;
  vars : option UnknownObject
}.

Definition DataFilter := omap JsonpathFilter.

(** [Selector] and [FilterSelector]: a plain selector has none of
    [entities], [meta], [events]. *)
Record Selector := {
  entities : option EntitiesRecord;
  meta : option JsonpathFilter;
  events : option DataFilter;
  after : option EventID;
  limit : option Z
}.

Definition isSome {A} (o : option A) : bool :=
  match o with Some _ => true | None => false end.

Definition isFilterSelector (selector : Selector) : bool :=
  isSome (entities selector) || isSome (meta selector) || isSome (events selector).

Definition isPlainSelector (selector : Selector) : bool :=
  negb (isFilterSelector selector).

(** The order of [Array.prototype.sort] without a comparator on strings:
    lexicographic on UTF-16 code units. *)
Fixpoint str_leb (a b : jsstring) : bool :=
  match a, b with
  | [], _ => true
  | _ :: _, [] => false
  | x :: a', y :: b' =>
      if N.ltb x y then true else if N.eqb x y then str_leb a' b' else false
  end.

Lemma str_leb_total (a b : jsstring) : str_leb a b = true \/ str_leb b a = true.
Proof.
  revert b; induction a as [|x a IH]; intros [|y b]; simpl; auto.
  destruct (N.ltb_spec x y) as [Hlt | Hge]; [auto|].
  destruct (N.ltb_spec y x) as [Hlt' | Hge']; [auto|].
  assert (x = y) by lia. subst. rewrite N.eqb_refl. apply IH.
Qed.

Lemma str_leb_antisym (a b : jsstring) :
  str_leb a b = true -> str_leb b a = true -> a = b.
Proof.
  revert b; induction a as [|x a IH]; intros [|y b]; simpl; try discriminate; auto.
  destruct (N.ltb_spec x y) as [Hlt | Hge];
    destruct (N.ltb_spec y x) as [Hlt' | Hge']; try lia.
  - destruct (N.eqb_spec y x); [lia | discriminate].
  - destruct (N.eqb_spec x y); [lia | discriminate].
  - destruct (N.eqb_spec x y); [|discriminate].
    subst. rewrite N.eqb_refl. intros; f_equal; auto.
Qed.

Lemma str_leb_trans (a b c : jsstring) :
  str_leb a b = true -> str_leb b c = true -> str_leb a c = true.
Proof.
  revert b c; induction a as [|x a IH]; intros [|y b] [|z c]; simpl;
    try discriminate; auto.
  destruct (N.ltb_spec x y) as [Hxy | Hxy].
  - intros _. destruct (N.ltb_spec y z) as [Hyz | Hyz].
    + intros _. destruct (N.ltb_spec x z); [reflexivity | lia].
    + destruct (N.eqb_spec y z); [|discriminate]. subst.
      intros _. destruct (N.ltb_spec x z); [reflexivity | lia].
  - destruct (N.eqb_spec x y); [|discriminate]. subst y.
    intros Hab. destruct (N.ltb_spec x z) as [Hxz | Hxz]; [reflexivity|].
    destruct (N.eqb_spec x z); [|discriminate]. eauto.
Qed.

Lemma str_leb_refl (a : jsstring) : str_leb a a = true.
Proof. destruct (str_leb_total a a); assumption. Qed.

(** [keys.sort()]. The keys of an object are distinct strings, on which
    every sorting algorithm returns the same array; insertion sort stands
    for the engine's. *)
Fixpoint insertKey (k : jsstring) (l : list jsstring) : list jsstring :=
  match l with
  | [] => [k]
  | x :: r => if str_leb k x then k :: l else x :: insertKey k r
  end.

Definition sortKeys (l : list jsstring) : list jsstring :=
  fold_right insertKey [] l.

Lemma insertKey_comm (a b : jsstring) (l : list jsstring) :
  insertKey a (insertKey b l) = insertKey b (insertKey a l).
Proof.
  induction l as [|x r IH]; simpl.
  - destruct (str_leb a b) eqn:Eab; destruct (str_leb b a) eqn:Eba; try reflexivity.
    + rewrite (str_leb_antisym _ _ Eab Eba). reflexivity.
    + destruct (str_leb_total a b); congruence.
  - destruct (str_leb b x) eqn:Ebx; destruct (str_leb a x) eqn:Eax; simpl.
    + destruct (str_leb a b) eqn:Eab; destruct (str_leb b a) eqn:Eba;
        rewrite ?Eax, ?Ebx; try reflexivity.
      * rewrite (str_leb_antisym _ _ Eab Eba). reflexivity.
      * destruct (str_leb_total a b); congruence.
    + destruct (str_leb a b) eqn:Eab.
      * rewrite (str_leb_trans _ _ _ Eab Ebx) in Eax. discriminate.
      * rewrite Eax, Ebx. reflexivity.
    + destruct (str_leb b a) eqn:Eba.
      * rewrite (str_leb_trans _ _ _ Eba Eax) in Ebx. discriminate.
      * rewrite Eax, Ebx. reflexivity.
    + rewrite Eax, Ebx. f_equal. apply IH.
Qed.

Lemma sortKeys_Permutation_eq (l1 l2 : list jsstring) :
  Permutation l1 l2 -> sortKeys l1 = sortKeys l2.
Proof.
  induction 1; simpl.
  - reflexivity.
  - f_equal; assumption.
  - apply insertKey_comm.
  - congruence.
Qed.

Lemma insertKey_Permutation (k : jsstring) (l : list jsstring) :
  Permutation (k :: l) (insertKey k l).
Proof.
  induction l as [|x r IH]; simpl; [reflexivity|].
  destruct (str_leb k x); [reflexivity|].
  rewrite perm_swap. constructor. assumption.
Qed.

Lemma sortKeys_Permutation (l : list jsstring) : Permutation l (sortKeys l).
Proof.
  induction l as [|x r IH]; simpl; [constructor|].
  rewrite <- insertKey_Permutation. constructor. assumption.
Qed.

(** [sortObject] at an object type whose values are sorted by [f]:
    [for (const key of Object.keys(inObject).sort())
       newObject[key] = sortUnknown(inObject[key])].
    The early return on a frozen argument is left out: the objects this
    program freezes are the results of [sortObject] and [sortUnknown],
    whose keys are in order already. *)
Definition sortObjectWith {V} (f : V -> V) (inObject : omap V) : omap V :=
  let sorted := map (fun kv => (fst kv, f (snd kv))) inObject in
  fold_left
    (fun newObject key =>
       match oget key sorted with
       | Some v => oset key v newObject
       | None => newObject
       end)
    (sortKeys (okeys inObject)) [].

(** [sortUnknown]: arrays are mapped, objects are sorted, primitives are
    returned as they are. *)
Fixpoint sortUnknown (value : jsval) : jsval :=
  match value with
  | JArr xs => JArr (map sortUnknown xs)
  | JObj kvs =>
      JObj (sortObjectWith (fun x => x)
              (map (fun kv => (fst kv, sortUnknown (snd kv))) kvs))
  | _ => value
  end.

(** [sortObject] on an [UnknownObject] (the [vars] of a filter). *)
Definition sortObject (inObject : UnknownObject) : UnknownObject :=
  sortObjectWith sortUnknown inObject.

(** [sortObject] on an [EntitiesRecord]: [sortUnknown] maps an array of
    strings to itself. *)
Definition sortEntities (inObject : EntitiesRecord) : EntitiesRecord :=
  sortObjectWith (fun keys => keys) inObject.

(** [sortUnknown] on a filter [{query, vars}]: its two keys are in order,
    and [vars] is sorted. *)
Definition sortFilter (f : JsonpathFilter) : JsonpathFilter :=
  {| query := query f; vars := option_map sortObject (vars f) |}.

(** [sortObject] on a [DataFilter]. *)
Definition sortDataFilter (inObject : DataFilter) : DataFilter :=
  sortObjectWith sortFilter inObject.

(** [array.join(sep)] on strings. *)
Fixpoint join (sep : jsstring) (xs : list jsstring) : jsstring :=
  match xs with
  | [] => []
  | [x] => x
  | x :: r => x ++ sep ++ join sep r
  end.

(* ===================================================================== *)
(** * Selector lookup (api/selectors-endpoints.ts)                        *)
(* ===================================================================== *)

Module Lookup.

(** The body of POST /selectors. *)
Record SelectorFilterLookup := {
  lookup_entities : option EntitiesRecord;
  lookup_meta : option JsonpathFilter;
  lookup_events : option DataFilter;
  lookup_after : option jsstring;
  lookup_limit : option Z
}.

Definition STRICT : jsstring := u "strict ".

Definition isStrict (q : jsstring) : bool := startsWith (trimStart q) STRICT.

Definition strictErrors (events : DataFilter) : list jsstring :=
  flat_map
    (fun ev =>
       match oget ev events with
       | Some f =>
           if isStrict (query f)
           then [u "events." ++ ev ++
                 u ".query 'strict' keyword unsupported in Evently's SQL JSONPath data filter"]
           else []
       | None => []
       end)
    (okeys events).

Definition lookupToSelector (lookup : SelectorFilterLookup) : result Selector :=
  if match lookup_meta lookup with
     | Some m => isStrict (query m)
     | None => false
     end
  then Throw (UnprocessableEntity
                (u "'strict' keyword unsupported in Evently's SQL JSONPath meta filter"))
  else
    match EventId.maybeFromEventIdString (lookup_after lookup) with
    | Throw x => Throw x
    | Ok after =>
        let errors :=
          match lookup_events lookup with
          | Some events => strictErrors events
          | None => []
          end in
        let data := option_map sortDataFilter (lookup_events lookup) in
        match errors with
        | _ :: _ => Throw (UnprocessableEntity (join [10%N] errors))
        | [] =>
            Ok {| entities := lookup_entities lookup;
                  meta := lookup_meta lookup;
                  events := data;
                  after := after;
                  limit := lookup_limit lookup |}
        end
    end.

(** The lookup names the [strict] mode: its meta query, or the query of
    one of its events, starts with "strict " once leading white space is
    dropped. *)
Definition usesStrict (lookup : SelectorFilterLookup) : Prop :=
  (exists m, lookup_meta lookup = Some m /\ isStrict (query m) = true) \/
  (exists events ev f,
      lookup_events lookup = Some events /\ oget ev events = Some f /\
      isStrict (query f) = true).

Definition metaStrict (lookup : SelectorFilterLookup) : bool :=
  match lookup_meta lookup with
  | Some m => isStrict (query m)
  | None => false
  end.

Lemma strictErrors_nonempty (events : DataFilter) (ev : jsstring) (f : JsonpathFilter) :
  oget ev events = Some f -> isStrict (query f) = true ->
  strictErrors events <> [].
Proof.
  intros Hget Hs. unfold strictErrors.
  assert (Hin : In ev (okeys events)).
  { apply oget_Some_In in Hget. unfold okeys. apply in_map_iff.
    exists (ev, f); auto. }
  revert Hin. generalize (okeys events). intros ks Hin.
  induction ks as [|k ks IH]; simpl in *; [tauto|].
  destruct Hin as [-> | Hin].
  - rewrite Hget, Hs. simpl. discriminate.
  - intros E. apply app_eq_nil in E. destruct E as [_ E]. exact (IH Hin E).
Qed.

(** A lookup whose meta filter is [strict $.a]. *)
Definition strictMetaLookup : SelectorFilterLookup :=
  {| lookup_entities := None;
     lookup_meta := Some {| query := u "strict $.a"; vars := None |};
     lookup_events := None;
     lookup_after := None;
     lookup_limit := None |}.

(** C8, as stated, fails: the lookup above begins with the keyword
    [strict] and is rejected with status 422, not 400. *)
Lemma strict_meta_lookup_is_422_not_400 :
  startsWith (trimStart (u "strict $.a")) (u "strict") = true /\
  status_of (lookupToSelector strictMetaLookup) = Some 422 /\
  status_of (lookupToSelector strictMetaLookup) <> Some 400.
Proof. split; [reflexivity | split; [reflexivity | discriminate]]. Qed.

(** C8, amended. A lookup whose meta query, or the query of one of its
    events, begins (after leading white space) with "strict " is
    rejected: [lookupToSelector] throws. The error is 422 Unprocessable
    Entity whenever the strict query is the meta query or the [after]
    string parses as an event id; an ill-formed [after] beside a strict
    event query is reported first. *)
Theorem strict_lookup_rejected_422 (lookup : SelectorFilterLookup) :
  usesStrict lookup ->
  (exists x, lookupToSelector lookup = Throw x) /\
  (metaStrict lookup = true \/
   (exists a, EventId.maybeFromEventIdString (lookup_after lookup) = Ok a) ->
   status_of (lookupToSelector lookup) = Some 422).
Proof.
  intros Hs. unfold lookupToSelector, metaStrict.
  destruct (match lookup_meta lookup with
            | Some m => isStrict (query m)
            | None => false
            end) eqn:Em.
  - split; [eexists; reflexivity | intros _; reflexivity].
  - destruct Hs as [[m [Hm Hq]] | [events [ev [f [He [Hget Hq]]]]]].
    + rewrite Hm, Hq in Em. discriminate.
    + rewrite He.
      pose proof (@strictErrors_nonempty _ _ _ Hget Hq) as Hne.
      destruct (EventId.maybeFromEventIdString (lookup_after lookup)) as [a | x].
      * destruct (strictErrors events) as [|err errs]; [congruence|].
        split; [eexists; reflexivity | intros _; reflexivity].
      * split; [eexists; reflexivity|].
        intros [Hf | [a Ha]]; discriminate.
Qed.

(** A lookup with a strict query on the event [order-placed]. *)
Definition strictEventLookup : SelectorFilterLookup :=
  {| lookup_entities := None;
     lookup_meta := None;
     lookup_events :=
       Some [(u "order-placed", {| query := u "  strict $.total"; vars := None |})];
     lookup_after := None;
     lookup_limit := None |}.

Lemma strict_lookup_rejected_422_witness :
  usesStrict strictEventLookup /\
  status_of (lookupToSelector strictEventLookup) = Some 422.
Proof.
  assert (H : usesStrict strictEventLookup).
  { right. eexists _, (u "order-placed"), _.
    split; [reflexivity | split; reflexivity]. }
  split; [exact H|].
  apply (proj2 (strict_lookup_rejected_422 H)).
  right. eexists; reflexivity.
Defined.

End Lookup.

(* ===================================================================== *)
(** * Notification channels (notify/channel.ts, notify/index.ts,
      api/notify-endpoints.ts)                                            *)
(* ===================================================================== *)

Module Notify.

(** A subscription: its id and the selector it was made for (the matcher
    is compiled from the selector). *)
Record SubscriptionFilter := {
  filter_id : jsstring;
  filter_selector : Selector
}.

(** Key: the encoded selector. *)
Definition FilterMap := omap SubscriptionFilter.

Record Channel := {
  channel_id : jsstring;
  filters : FilterMap
}.

Definition ChannelsMap := omap Channel.

(** ** channel.ts *)

Fixpoint findFilter (filters : FilterMap) (subscriptionId : jsstring)
  : option (jsstring * SubscriptionFilter) :=
  match filters with
  | [] => None
  | (key, filter) :: rest =>
      if str_eqb (filter_id filter) subscriptionId then Some (key, filter)
      else findFilter rest subscriptionId
  end.

Definition channelUnsubscribe (filters : FilterMap) (subscriptionId : jsstring)
  : FilterMap :=
  match findFilter filters subscriptionId with
  | Some filter => odelete (fst filter) filters
  | None => filters
  end.

Definition channelSubscriptions (filters : FilterMap) : list jsstring :=
  map (fun kv => filter_id (snd kv)) filters.

Definition channelSubscription (filters : FilterMap) (subscriptionId : jsstring)
  : option Selector :=
  match findFilter filters subscriptionId with
  | Some filter => Some (filter_selector (snd filter))
  | None => None
  end.

(** ** notify/index.ts *)

Definition createKey (ledger : Ledger) (channelId : jsstring) : jsstring :=
  id ledger ++ u "|" ++ channelId.

Definition getChannel (channels : ChannelsMap) (ledger : Ledger)
           (channelId : jsstring) : result Channel :=
  match oget (createKey ledger channelId) channels with
  | Some channel => Ok channel
  | None => Throw (NotFound (u "channel " ++ channelId ++ u " does not exist."))
  end.

Definition handleChannelExists (channels : ChannelsMap) (ledger : Ledger)
           (channelId : jsstring) : bool :=
  isSome (oget (createKey ledger channelId) channels).

(** [handleUnsubscribe]: the channel found is updated in place. *)
Definition handleUnsubscribe (channels : ChannelsMap) (ledger : Ledger)
           (channelId subscriptionId : jsstring) : result ChannelsMap :=
  match getChannel channels ledger channelId with
  | Throw x => Throw x
  | Ok channel =>
      let channel' :=
        {| channel_id := channel_id channel;
           filters := channelUnsubscribe (filters channel) subscriptionId |} in
      Ok (oset (createKey ledger channelId) channel' channels)
  end.

Definition getSubscription (channels : ChannelsMap) (ledger : Ledger)
           (channelId subscriptionId : jsstring) : result (option Selector) :=
  match getChannel channels ledger channelId with
  | Throw x => Throw x
  | Ok channel => Ok (channelSubscription (filters channel) subscriptionId)
  end.

(** ** api/notify-endpoints.ts: the status line of the reply *)

Definition handleDeleteSubscription (channels : ChannelsMap) (ledger : Ledger)
           (channelId subscriptionId : jsstring) : result (Z * ChannelsMap) :=
  match handleUnsubscribe channels ledger channelId subscriptionId with
  | Throw x => Throw x
  | Ok channels' => Ok (204, channels')
  end.

Definition handleGetSubscription (channels : ChannelsMap) (ledger : Ledger)
           (channelId subscriptionId : jsstring) : result (Z * Selector) :=
  match getSubscription channels ledger channelId subscriptionId with
  | Throw x => Throw x
  | Ok None =>
      Throw (NotFound (u "No subscription for channel " ++ channelId ++
                       u ", subscription " ++ subscriptionId))
  | Ok (Some selector) => Ok (200, selector)
  end.

(** The channel holds a subscription with this id. *)
Definition holds (channel : Channel) (subscriptionId : jsstring) : Prop :=
  exists key filter,
    In (key, filter) (filters channel) /\ filter_id filter = subscriptionId.

Lemma findFilter_None (fs : FilterMap) (sid : jsstring) :
  (forall key filter, In (key, filter) fs -> filter_id filter <> sid) ->
  findFilter fs sid = None.
Proof.
  induction fs as [|[key filter] rest IH]; simpl; intros H; [reflexivity|].
  destruct (str_eqb (filter_id filter) sid) eqn:E.
  - apply str_eqb_eq in E. elim (H key filter); auto.
  - apply IH. intros k f Hin. apply (H k f). auto.
Qed.

Lemma not_holds_findFilter (channel : Channel) (sid : jsstring) :
  ~ holds channel sid -> findFilter (filters channel) sid = None.
Proof.
  intros Hn. apply findFilter_None. intros key filter Hin E.
  apply Hn. exists key, filter. auto.
Qed.

Lemma oset_same {V} (k : jsstring) (v : V) (m : omap V) :
  oget k m = Some v -> oset k v m = m.
Proof.
  induction m as [|[k' v'] r IH]; simpl; [discriminate|].
  destruct (str_eqb k k') eqn:E.
  - apply str_eqb_eq in E; subst. intros H; injection H as ->. reflexivity.
  - intros H. f_equal. auto.
Qed.

(** A ledger with one open channel that has no subscription. *)
Definition emptyChannel : Channel := {| channel_id := u "c1"; filters := [] |}.
Definition oneChannel : ChannelsMap := [(createKey demoLedger (u "c1"), emptyChannel)].

(** C9, as stated, fails: DELETE of a subscription id the channel does
    not hold answers 204, not 404. *)
Lemma delete_unknown_subscription_is_204 :
  ~ holds emptyChannel (u "s-unknown") /\
  handleDeleteSubscription oneChannel demoLedger (u "c1") (u "s-unknown")
  = Ok (204, oneChannel) /\
  status_of (handleDeleteSubscription oneChannel demoLedger (u "c1") (u "s-unknown"))
  <> Some 404.
Proof.
  split; [|split].
  - intros [key [filter [Hin _]]]. exact Hin.
  - reflexivity.
  - discriminate.
Qed.

(** C9, amended. For every open channel and every subscription id the
    channel does not hold, GET /notify/:ch/subscriptions/:sid fails with
    404 Not Found, and DELETE /notify/:ch/subscriptions/:sid answers 204
    and leaves every channel as it was. *)
Theorem unknown_subscription_get_404_delete_204
  (channels : ChannelsMap) (ledger : Ledger) (channelId sid : jsstring)
  (channel : Channel) :
  oget (createKey ledger channelId) channels = Some channel ->
  ~ holds channel sid ->
  status_of (handleGetSubscription channels ledger channelId sid) = Some 404 /\
  handleDeleteSubscription channels ledger channelId sid = Ok (204, channels).
Proof.
  intros Hget Hn. apply not_holds_findFilter in Hn.
  unfold handleGetSubscription, getSubscription, handleDeleteSubscription,
    handleUnsubscribe, getChannel, channelSubscription, channelUnsubscribe.
  rewrite Hget, Hn. split; [reflexivity|].
  destruct channel as [cid fs]; simpl.
  rewrite (oset_same _ _ Hget). reflexivity.
Qed.

Lemma unknown_subscription_get_404_delete_204_witness :
  status_of (handleGetSubscription oneChannel demoLedger (u "c1") (u "s-unknown"))
  = Some 404 /\
  handleDeleteSubscription oneChannel demoLedger (u "c1") (u "s-unknown")
  = Ok (204, oneChannel).
Proof.
  apply (@unknown_subscription_get_404_delete_204
           oneChannel demoLedger (u "c1") (u "s-unknown") emptyChannel).
  - reflexivity.
  - intros [key [filter [Hin _]]]. exact Hin.
Defined.

(** A request on a channel that is not open fails with 404 on both
    methods. *)
Lemma unknown_channel_is_404
  (channels : ChannelsMap) (ledger : Ledger) (channelId sid : jsstring) :
  oget (createKey ledger channelId) channels = None ->
  status_of (handleGetSubscription channels ledger channelId sid) = Some 404 /\
  status_of (handleDeleteSubscription channels ledger channelId sid) = Some 404.
Proof.
  intros Hget.
  unfold handleGetSubscription, getSubscription, handleDeleteSubscription,
    handleUnsubscribe, getChannel.
  rewrite Hget. split; reflexivity.
Qed.

End Notify.

(* ===================================================================== *)
(** * Persisted events (api/type/persisted-event.ts)                      *)
(* ===================================================================== *)

Record PersistedEvent := {
  pe_eventId : jsstring;
  pe_timestamp : jsstring;
  pe_event : jsstring;
  pe_entities : EntitiesRecord;
  pe_meta : jsval;
  pe_data : jsval
}.

(* ===================================================================== *)
(** * The in-process matcher (notify/selector-matcher.ts)                 *)
(* ===================================================================== *)

Module Matcher.

Section Engine.

(** [sql-jsonpath-js]: [compile q] is [None] when [sjp.compile(q)]
    throws, and otherwise the compiled query's
    [exists(input, {variables})]. *)
Definition Exists := jsval -> bool.
Variable compile : jsstring -> option (jsval -> option UnknownObject -> bool).

Definition SelectorMatcher := PersistedEvent -> bool.

Definition createAllMatcher {A} : A -> bool := fun _ => true.

Definition createEntitiesMatcher (searchEntities : EntitiesRecord) : SelectorMatcher :=
  fun e =>
    existsb
      (fun nk =>
         match oget (fst nk) searchEntities with
         | Some searchKeys => existsb (fun key => includes searchKeys key) (snd nk)
         | None => false
         end)
      (pe_entities e).

Definition createJsonpathMatcher (filter : JsonpathFilter) : result Exists :=
  if str_eqb (query filter) (u "$") then Ok createAllMatcher
  else
    match compile (query filter) with
    | Some matcher => Ok (fun input => matcher input (vars filter))
    | None => Throw (JsError (u "sql-jsonpath-js: " ++ query filter))
    end.

Definition createMetaMatcher (filter : JsonpathFilter) : result SelectorMatcher :=
  match createJsonpathMatcher filter with
  | Ok matcher => Ok (fun e => matcher (pe_meta e))
  | Throw x => Throw x
  end.

(** The [reduce] of [createDataMatcher]: one compiled query per event
    name. *)
Fixpoint compileDataFilter (entries : DataFilter) (acc : omap Exists)
  : result (omap Exists) :=
  match entries with
  | [] => Ok acc
  | (event, filter) :: rest =>
      match createJsonpathMatcher filter with
      | Ok matcher => compileDataFilter rest (oset event matcher acc)
      | Throw x => Throw x
      end
  end.

Definition createDataMatcher (dataFilter : DataFilter) : result SelectorMatcher :=
  match compileDataFilter dataFilter [] with
  | Ok matchers =>
      Ok (fun e =>
            match oget (pe_event e) matchers with
            | Some matcher => matcher (pe_data e)
            | None => false
            end)
  | Throw x => Throw x
  end.

Definition createFilterMatcher (selector : Selector) : result SelectorMatcher :=
  let m1 :=
    match entities selector with
    | Some entities => [createEntitiesMatcher entities]
    | None => []
    end in
  match
    match meta selector with
    | Some meta =>
        match createMetaMatcher meta with
        | Ok m => Ok (m1 ++ [m])
        | Throw x => Throw x
        end
    | None => Ok m1
    end
  with
  | Throw x => Throw x
  | Ok m2 =>
      match
        match events selector with
        | Some events =>
            match createDataMatcher events with
            | Ok m => Ok (m2 ++ [m])
            | Throw x => Throw x
            end
        | None => Ok m2
        end
      with
      | Throw x => Throw x
      | Ok matchers => Ok (fun e => existsb (fun matcher => matcher e) matchers)
      end
  end.

Definition createMatcher (selector : Selector) : result SelectorMatcher :=
  if isFilterSelector selector then createFilterMatcher selector
  else Ok createAllMatcher.

(** ** What it is to match, clause by clause *)














End Engine.

(** Scenario 5 of the specification: a subscription on orders, and an
    event of order [o-1]. The engine here refuses every query. *)
Definition orderSelector : Selector :=
  {| entities := Some [(u "order", [u "o-1"])];
     meta := None;
     events := Some [(u "order-placed", {| query := u "$"; vars := None |})];
     after := None;
     limit := None |}.

Definition orderEvent : PersistedEvent :=
  {| pe_eventId := u "00000000000000010000000000000001";
     pe_timestamp := u "1970-01-01T00:00:00.000001Z";
     pe_event := u "order-placed";
     pe_entities := [(u "order", [u "o-1"])];
     pe_meta := JObj [];
     pe_data := JObj [(u "total", JNum 42)] |}.

Definition noEngine : jsstring -> option (jsval -> option UnknownObject -> bool) :=
  fun _ => None.


Example orderSelector_matches_orderEvent :
  match createMatcher noEngine orderSelector with
  | Ok matcher => matcher orderEvent = true
  | Throw _ => False
  end.
Proof. reflexivity. Qed.
End Matcher.

(* ===================================================================== *)
(** * SQL generation (db/selector-sql.ts)                                 *)
(* ===================================================================== *)

Module SelectorSql.

(** [str.replaceAll(c, by)] for a one-character pattern. *)
Definition replaceAllChar (c : N) (by_ : jsstring) (str : jsstring) : jsstring :=
  flat_map (fun x => if N.eqb x c then by_ else [x]) str.

Definition QUOTE : N := 39.      (* ' *)
Definition DQUOTE : N := 34.     (* the double quote *)
Definition BACKSLASH : N := 92.

Definition escapeSingleQuote (str : jsstring) : jsstring :=
  replaceAllChar QUOTE [QUOTE; QUOTE] str.

Definition toPostgresString (str : jsstring) : jsstring :=
  [QUOTE] ++ escapeSingleQuote str ++ [QUOTE].

Definition toArrayElement (str : jsstring) : jsstring :=
  let str1 := replaceAllChar BACKSLASH [BACKSLASH; BACKSLASH] str in
  let str2 := replaceAllChar DQUOTE [BACKSLASH; DQUOTE] str1 in
  [DQUOTE] ++ escapeSingleQuote str2 ++ [DQUOTE].

Definition stringArrayToPostgresArray (strings : list jsstring) : jsstring :=
  u "'{" ++ join (u ",") (map toArrayElement strings) ++ u "}'".

Definition singleOrAny (column : jsstring) (values : list jsstring) : result jsstring :=
  match values with
  | [] => Throw (JsError (u "Empty values for " ++ column))
  | [v] => Ok (column ++ u " = " ++ toPostgresString v)
  | _ => Ok (column ++ u " = ANY(" ++ stringArrayToPostgresArray values ++ u ")")
  end.

Section Stringify.

(** [JSON.stringify]. *)
Variable JSON_stringify : jsval -> jsstring.

Definition toJsonpathString (str : jsstring) : jsstring :=
  escapeSingleQuote (JSON_stringify (JStr str)).

Definition toPostgresJson (input : jsval) : jsstring :=
  toPostgresString (JSON_stringify input).

Definition jsonpathToSql (field : jsstring) (jsonpath : JsonpathFilter) : jsstring :=
  let qStr := toPostgresString (query jsonpath) in
  match vars jsonpath with
  | Some vars =>
      u "jsonb_path_exists(" ++ field ++ u ", " ++ qStr ++ u ", "
        ++ toPostgresJson (JObj vars) ++ u ")"
  | None => field ++ u " @? " ++ qStr
  end.

Definition generateEntitiesQuery (entities : EntitiesRecord) : jsstring :=
  let entityQueries :=
    map (fun nk =>
           let keyStmts := map (fun key => u "@==" ++ toJsonpathString key) (snd nk) in
           u "entities @? '$." ++ toJsonpathString (fst nk) ++ u " ? ("
             ++ join (u " || ") keyStmts ++ u ")'")
        entities in
  u "(" ++ join ([10%N] ++ u "OR ") entityQueries ++ u ")".

Definition generateEventsQuery (dataFilter : DataFilter) : result jsstring :=
  let events := okeys dataFilter in
  let queries :=
    flat_map (fun event =>
                match oget event dataFilter with
                | Some filter =>
                    if str_eqb (query filter) (u "$") then []
                    else [u "(event = " ++ toPostgresString event ++ u " AND "
                            ++ jsonpathToSql (u "data") filter ++ u ")"]
                | None => []
                end) events in
  let justEvents :=
    flat_map (fun event =>
                match oget event dataFilter with
                | Some filter =>
                    if str_eqb (query filter) (u "$") then [event] else []
                | None => []
                end) events in
  match justEvents with
  | [] => Ok (join ([10%N] ++ u "OR ") queries)
  | _ =>
      match singleOrAny (u "event") justEvents with
      | Ok q => Ok (join ([10%N] ++ u "OR ") (queries ++ [q]))
      | Throw x => Throw x
      end
  end.

(** [!isEmpty(o)] for an optional object. *)
Definition nonEmpty {V} (o : option (omap V)) : option (omap V) :=
  match o with
  | Some (_ :: _) => o
  | _ => None
  end.

Definition filterSelectorToSql (selector : Selector) : result jsstring :=
  let q1 :=
    match nonEmpty (entities selector) with
    | Some entities => [generateEntitiesQuery entities]
    | None => []
    end in
  let q2 :=
    match meta selector with
    | Some meta => q1 ++ [jsonpathToSql (u "meta") meta]
    | None => q1
    end in
  match
    match nonEmpty (events selector) with
    | Some events =>
        match generateEventsQuery events with
        | Ok q => Ok (q2 ++ [q])
        | Throw x => Throw x
        end
    | None => Ok q2
    end
  with
  | Ok queries => Ok (u "(" ++ join ([10%N] ++ u "AND ") queries ++ u ")")
  | Throw x => Throw x
  end.

Definition unknownSelectorToSql (selector : Selector) : result jsstring :=
  if isFilterSelector selector then filterSelectorToSql selector
  else Ok [].

End Stringify.

(** [TextEncoder.encode]: the UTF-8 bytes of a string; a lone surrogate
    is encoded as U+FFFD. *)
Definition utf8 (cp : N) : list Z :=
  let c := Z.of_N cp in
  if c <? 128 then [c]
  else if c <? 2048 then [192 + c / 64; 128 + c mod 64]
  else if c <? 65536 then [224 + c / 4096; 128 + (c / 64) mod 64; 128 + c mod 64]
  else [240 + c / 262144; 128 + (c / 4096) mod 64; 128 + (c / 64) mod 64;
        128 + c mod 64].

Definition isHighSurrogate (c : N) : bool := (0xD800 <=? c)%N && (c <=? 0xDBFF)%N.
Definition isLowSurrogate (c : N) : bool := (0xDC00 <=? c)%N && (c <=? 0xDFFF)%N.

Fixpoint stringToBytes (str : jsstring) : list Z :=
  match str with
  | [] => []
  | c :: rest =>
      if isHighSurrogate c then
        match rest with
        | d :: rest' =>
            if isLowSurrogate d
            then utf8 (0x10000 + (c - 0xD800) * 0x400 + (d - 0xDC00))%N
                   ++ stringToBytes rest'
            else utf8 0xFFFD ++ stringToBytes rest
        | [] => utf8 0xFFFD
        end
      else if isLowSurrogate c then utf8 0xFFFD ++ stringToBytes rest
      else utf8 c ++ stringToBytes rest
  end.

End SelectorSql.

(* ===================================================================== *)
(** * The database, as the service calls it (section 6.3)                 *)
(* ===================================================================== *)

(** A row of [run_selector], [fetch_selected], [fetch_event_id] and
    [find_with_append_key]; the header row of [run_selector] and the rows
    of [fetch_event_id] carry [timestamp] and [checksum] only. *)
Record EventRow := {
  row_timestamp : Long;
  row_checksum : Long;
  row_event : jsstring;
  row_entities : EntitiesRecord;
  row_meta : jsval;
  row_data : jsval
}.

(** The values of [evently.append_event], in order. *)
Record AppendEventPostgres := {
  previousEventId : jsstring;
  ap_event : jsstring;
  ap_entities : EntitiesRecord;
  ap_meta : jsval;
  ap_data : jsval;
  appendKey : jsstring;
  ap_selector : list Z
}.

Inductive DbCall :=
| RunSelector (ledgerId : jsstring) (afterTs : Long) (afterChk : Z) (limit : Z)
              (selector : list Z) (batchSize : Z)
| FetchSelected (ledgerId : jsstring) (after : Long) (limit : Z) (selector : list Z)
| FetchEventId (ledgerId : jsstring) (selector : list Z) (afterTs : option Long)
               (limit : option Z)
| AppendEventCall (values : AppendEventPostgres)
| FindWithAppendKey (ledgerId key : jsstring).

(** What a query resolves to: its rows, or the error it rejects with. *)
Inductive DbResponse :=
| Rows (rows : list EventRow)
| EventIdRow (event_id : jsstring)
| DbError (e : exn).

(** [checksum.toUnsigned().toInt()]. *)
Definition checksumToInt (c : Long) : Z := c mod EventId.two32.

Section Database.

(** The database: a state and its answer to each call. Only
    [append_event] is expected to change the state; nothing below relies
    on that. *)
Variable DbState : Type.
Variable exec : DbState -> DbCall -> DbResponse * DbState.

(** The state a handler runs in: the database and the calls issued so
    far, oldest first. *)
Record World := {
  db : DbState;
  calls : list DbCall
}.

Definition M (A : Type) := World -> result A * World.

Definition ret {A} (a : A) : M A := fun w => (Ok a, w).
Definition throw {A} (e : exn) : M A := fun w => (Throw e, w).
Definition bind {A B} (m : M A) (k : A -> M B) : M B :=
  fun w =>
    match m w with
    | (Ok a, w') => k a w'
    | (Throw e, w') => (Throw e, w')
    end.
Definition tryCatch {A} (m : M A) (handler : exn -> M A) : M A :=
  fun w =>
    match m w with
    | (Ok a, w') => (Ok a, w')
    | (Throw e, w') => handler e w'
    end.
Definition lift {A} (r : result A) : M A := fun w => (r, w).

(** [await sql`SELECT ...`]: the call is issued, then resolves or
    rejects. *)
Definition sql (c : DbCall) : M DbResponse :=
  fun w =>
    let '(r, db') := exec (db w) c in
    let w' := {| db := db'; calls := calls w ++ [c] |} in
    match r with
    | DbError e => (Throw e, w')
    | _ => (Ok r, w')
    end.

(** The rows of a response ([EventIdRow] is the one row of
    [append_event]). *)
Definition rowsOf (r : DbResponse) : list EventRow :=
  match r with
  | Rows rows => rows
  | _ => []
  end.

(** [wrapWithCatch] (db/sql.ts). *)
Definition wrapWithCatch {A} (m : M A) : M A :=
  tryCatch m
    (fun err =>
       match err with
       | HttpError _ _ => throw err
       | PostgresError _ _ _ =>
           throw (ServiceUnavailable (u "Please try your call later."))
       | JsError _ =>
           throw (InternalServerError (u "Internal server error, sorry about that."))
       end).

(** [quiet m]: [m] issues no call; [adds m cs]: [m] issues the calls
    [cs], whatever it returns. *)
Definition quiet {A} (m : M A) : Prop := forall w, calls (snd (m w)) = calls w.
Definition adds {A} (m : M A) (cs : list DbCall) : Prop :=
  forall w, calls (snd (m w)) = calls w ++ cs.

Lemma quiet_ret {A} (a : A) : quiet (ret a).
Proof. intros w; reflexivity. Qed.

Lemma quiet_throw {A} (e : exn) : quiet (@throw A e).
Proof. intros w; reflexivity. Qed.

Lemma quiet_lift {A} (r : result A) : quiet (lift r).
Proof. intros w; reflexivity. Qed.

Lemma quiet_bind {A B} (m : M A) (k : A -> M B) :
  quiet m -> (forall a, quiet (k a)) -> quiet (bind m k).
Proof.
  intros Hm Hk w. unfold bind. specialize (Hm w).
  destruct (m w) as [[a | e] w']; simpl in *; [|assumption].
  rewrite (Hk a w'). assumption.
Qed.

Lemma adds_sql (c : DbCall) : adds (sql c) [c].
Proof.
  intros w. unfold sql. destruct (exec (db w) c) as [r db'].
  destruct r; reflexivity.
Qed.

Lemma adds_bind_quiet {A B} (m : M A) (k : A -> M B) (cs : list DbCall) :
  adds m cs -> (forall a, quiet (k a)) -> adds (bind m k) cs.
Proof.
  intros Hm Hk w. unfold bind. specialize (Hm w).
  destruct (m w) as [[a | e] w']; simpl in *; [|assumption].
  rewrite (Hk a w'). assumption.
Qed.

Lemma adds_tryCatch_quiet {A} (m : M A) (h : exn -> M A) (cs : list DbCall) :
  adds m cs -> (forall e, quiet (h e)) -> adds (tryCatch m h) cs.
Proof.
  intros Hm Hh w. unfold tryCatch. specialize (Hm w).
  destruct (m w) as [[a | e] w']; simpl in *; [assumption|].
  rewrite (Hh e w'). assumption.
Qed.

End Database.

Declare Scope m_scope.
Delimit Scope m_scope with m.
Notation "x <- m ;; k" := (bind m (fun x => k))
  (at level 61, m at next level, right associativity) : m_scope.
Notation "' pat <- m ;; k" := (bind m (fun x => match x with pat => k end))
  (at level 61, pat pattern, m at next level, right associativity) : m_scope.

(* ===================================================================== *)
(** * A reference database for the examples                               *)
(* ===================================================================== *)

(** The examples below run the service against this database. It keeps
    one ledger as the list of its events, oldest first, with the append
    key of each, and follows the contract of section 6.3: [run_selector]
    answers a header row (the position read through) and then at most
    [batchSize] event rows; [fetch_selected] answers the next [limit]
    events after a timestamp; [append_event] stores what it is given
    under the next timestamp and answers the hexadecimal event id, or
    rejects with the unique violation on the append key;
    [find_with_append_key] answers the stored event of a key. Every
    predicate is taken to match every event, and no append races. *)
Module RefDb.

Record Stored := {
  st_row : EventRow;
  st_key : jsstring
}.

Definition State := list Stored.

Definition rowsAfter (st : State) (afterTs : Long) : list EventRow :=
  filter (fun r => afterTs <? row_timestamp r) (map st_row st).

Definition take (n : Z) (rows : list EventRow) : list EventRow :=
  firstn (Z.to_nat n) rows.

Definition headerRow (ts chk : Long) : EventRow :=
  {| row_timestamp := ts; row_checksum := chk; row_event := [];
     row_entities := []; row_meta := JNull; row_data := JNull |}.

Definition nextTimestamp (st : State) : Long :=
  1 + fold_left Z.max (map (fun s => row_timestamp (st_row s)) st) 0.

Definition APPEND_KEY_CONSTRAINT : jsstring := u "events_append_key_key".

Definition exec (st : State) (c : DbCall) : DbResponse * State :=
  match c with
  | RunSelector _ afterTs afterChk limit _ batchSize =>
      let matching := rowsAfter st afterTs in
      let selected := if limit =? 0 then matching else take limit matching in
      let header :=
        match rev selected with
        | last :: _ => headerRow (row_timestamp last) (row_checksum last)
        | [] => headerRow afterTs afterChk
        end in
      (Rows (header :: take batchSize selected), st)
  | FetchSelected _ after limit _ =>
      (Rows (take limit (rowsAfter st after)), st)
  | FetchEventId _ _ afterTs limit =>
      let matching :=
        rowsAfter st (match afterTs with Some t => t | None => 0 end) in
      let selected :=
        match limit with Some l => take l matching | None => matching end in
      match rev selected with
      | last :: _ => (Rows [headerRow (row_timestamp last) (row_checksum last)], st)
      | [] => (Rows [], st)
      end
  | AppendEventCall values =>
      if existsb (fun s => str_eqb (st_key s) (appendKey values)) st then
        (DbError (PostgresError (u "23505")
                    (u "duplicate key value violates unique constraint")
                    (Some APPEND_KEY_CONSTRAINT)), st)
      else
        let ts := nextTimestamp st in
        let row := {| row_timestamp := ts; row_checksum := 0;
                      row_event := ap_event values;
                      row_entities := ap_entities values;
                      row_meta := ap_meta values;
                      row_data := ap_data values |} in
        (EventIdRow
           (EventId.bufferToHex (EventId.longToBuffer ts ++ EventId.bytesBE 0)
            ++ skipn 24 (previousEventId values)),
         st ++ [{| st_row := row; st_key := appendKey values |}])
  | FindWithAppendKey _ key =>
      (Rows (map st_row (filter (fun s => str_eqb (st_key s) key) st)), st)
  end.

(** A ledger of [n] events, with timestamps 1 to [n]. *)
Definition ledgerOf (n : nat) : State :=
  map (fun i =>
         {| st_row := {| row_timestamp := Z.of_nat i; row_checksum := 0;
                         row_event := u "order-placed";
                         row_entities := [(u "order", [u "o-1"])];
                         row_meta := JNull; row_data := JNull |};
            st_key := u "k" ++ EventId.toString16 (Z.of_nat i) |})
      (seq 1 n).

End RefDb.

(* ===================================================================== *)
(** * Event source (event-source/postgres-selector.ts)                    *)
(* ===================================================================== *)

Module EventSource.

Definition EVENT_BATCH_SIZE : Z := 100.

(** The loop counter of [selectEvents]: a number, or
    [Number.POSITIVE_INFINITY]. *)
Inductive Limit :=
| Bounded (n : Z)
| Unbounded.

Definition positive (l : Limit) : bool :=
  match l with Bounded n => 0 <? n | Unbounded => true end.

Definition minus (l : Limit) (k : Z) : Limit :=
  match l with Bounded n => Bounded (n - k) | Unbounded => Unbounded end.

(** [Math.min(l, b)]. *)
Definition minLimit (l : Limit) (b : Z) : Z :=
  match l with Bounded n => Z.min n b | Unbounded => b end.

(** The stream of a [SelectorResult]: the array of events already
    translated, or the pipeline of the first batch followed by the
    batches [selectEvents] will fetch when the stream is read. *)
Inductive EventStream :=
| Ready (events : list PersistedEvent)
| Pipeline (firstBatch : list EventRow) (start : EventID) (limit : Z)
           (selectorBytes : list Z).

Record SelectorResult := {
  position : EventID;
  eventStream : EventStream
}.

Definition lastTimestamp (rows : list EventRow) (default : Long) : Long :=
  match rev rows with
  | r :: _ => row_timestamp r
  | [] => default
  end.

Section Source.

Variable DbState : Type.
Variable exec : DbState -> DbCall -> DbResponse * DbState.
(** [JSON.stringify], and [Instant.ofEpochMicro(n).toString()]. *)
Variable JSON_stringify : jsval -> jsstring.
Variable instantToString : Z -> jsstring.

Local Open Scope m_scope.

Definition validateAfterInLedger (after : option EventID) (ledger : Ledger)
  : M DbState unit :=
  match after with
  | Some a =>
      if str_eqb (id ledger) (ledgerId a) then ret tt
      else throw (BadRequest
             (u "Ledger ID in 'after' does not match the current ledger. Are you using the correct authorization token for this request?"))
  | None => ret tt
  end.

Definition rowPosition (ledgerId : jsstring) (idRow : EventRow) : EventID :=
  {| timestamp := row_timestamp idRow;
     checksum := checksumToInt (row_checksum idRow);
     ledgerId := ledgerId |}.

Definition orGenesis (after : option EventID) (ledger : Ledger) : EventID :=
  match after with Some a => a | None => genesis ledger end.

(** [limit || null]. *)
Definition orNull (limit : option Z) : option Z :=
  match limit with
  | Some l => if l =? 0 then None else Some l
  | None => None
  end.

Definition latestEventId (ledger : Ledger) (selector : Selector) : M DbState EventID :=
  _ <- validateAfterInLedger (after selector) ledger ;;
  query <- lift (SelectorSql.unknownSelectorToSql JSON_stringify selector) ;;
  let selectorBytes := SelectorSql.stringToBytes query in
  result <- sql exec (FetchEventId (id ledger) selectorBytes
                        (option_map timestamp (after selector))
                        (orNull (limit selector))) ;;
  match rowsOf result with
  | idRow :: _ => ret (rowPosition (id ledger) idRow)
  | [] => ret (orGenesis (after selector) ledger)
  end.

Definition tryExecuteSelector (ledger : Ledger) (limit : Z) (selector : list Z)
           (after : option EventID) : M DbState (EventID * list EventRow) :=
  tryCatch
    (rows <- sql exec (RunSelector (id ledger)
                         (match after with Some a => timestamp a | None => 0 end)
                         (match after with Some a => checksum a | None => 0 end)
                         limit selector EVENT_BATCH_SIZE) ;;
     match rowsOf rows with
     | idRow :: rest => ret (rowPosition (id ledger) idRow, rest)
     | [] => ret (orGenesis after ledger, [])
     end)
    (fun err =>
       match err with
       | PostgresError code message _ =>
           if str_eqb code (u "42601") then throw (BadRequest message)
           else if startsWith message (u "AFTER not found") then
             match after with
             | Some a =>
                 afterStr <- lift (EventId.eventIdToString a) ;;
                 throw (BadRequest (u "after '" ++ afterStr ++
                                    u "' not found in this ledger."))
             | None => throw (JsError (u "TypeError"))
             end
           else throw err
       | _ => throw err
       end).

Definition eventRowToPersistedEvent (ledgerId : jsstring) (row : EventRow)
  : result PersistedEvent :=
  match EventId.toEventIdString (row_timestamp row)
          (checksumToInt (row_checksum row)) ledgerId with
  | Ok eventId =>
      Ok {| pe_event := row_event row;
            pe_eventId := eventId;
            pe_timestamp := instantToString (row_timestamp row);
            pe_entities := row_entities row;
            pe_meta := row_meta row;
            pe_data := row_data row |}
  | Throw x => Throw x
  end.

Fixpoint mapRows (ledgerId : jsstring) (rows : list EventRow)
  : result (list PersistedEvent) :=
  match rows with
  | [] => Ok []
  | row :: rest =>
      match eventRowToPersistedEvent ledgerId row with
      | Ok e =>
          match mapRows ledgerId rest with
          | Ok es => Ok (e :: es)
          | Throw x => Throw x
          end
      | Throw x => Throw x
      end
  end.

Definition fetchRows (ledgerId : jsstring) (after : Long) (selectorBytes : list Z)
           (totalLimit : Limit) : M DbState (list EventRow) :=
  let limit := minLimit totalLimit EVENT_BATCH_SIZE in
  r <- sql exec (FetchSelected ledgerId after limit selectorBytes) ;;
  ret (rowsOf r).

(** The [while] loop of [selectEvents], read to its end; the rows are
    those it yields, in order. [fuel] bounds the number of fetches, and
    [None] says that the loop had not ended within them. *)
Fixpoint selectLoop (fuel : nat) (ledgerId : jsstring) (after : Long)
         (totalLimit : Limit) (selectorBytes : list Z)
  : M DbState (option (list EventRow)) :=
  if positive totalLimit then
    match fuel with
    | O => ret None
    | S fuel' =>
        rows <- fetchRows ledgerId after selectorBytes totalLimit ;;
        let totalLimit' := minus totalLimit (Z.of_nat (length rows)) in
        match rows with
        | [] => ret (Some [])
        | _ :: _ =>
            more <- selectLoop fuel' ledgerId (lastTimestamp rows after)
                      totalLimit' selectorBytes ;;
            ret (option_map (app rows) more)
        end
    end
  else ret (Some []).

Definition selectEvents (fuel : nat) (start : EventID) (totalLimit : Z)
           (selectorBytes : list Z) : M DbState (option (list EventRow)) :=
  let totalLimit := if totalLimit =? 0 then Unbounded else Bounded totalLimit in
  selectLoop fuel (ledgerId start) (timestamp start) totalLimit selectorBytes.

Definition continueSelector (selectorBytes : list Z) (position : EventID)
           (limit : Z) (firstBatch : list EventRow) : M DbState SelectorResult :=
  let allEventsPresent := Z.of_nat (length firstBatch) <? EVENT_BATCH_SIZE in
  if allEventsPresent then
    events <- lift (mapRows (ledgerId position) firstBatch) ;;
    ret {| position := position; eventStream := Ready events |}
  else
    let startPosition :=
      match rev firstBatch with
      | last :: _ => rowPosition (ledgerId position) last
      | [] => position
      end in
    ret {| position := position;
           eventStream := Pipeline firstBatch startPosition limit selectorBytes |}.

Definition executeSelector (ledger : Ledger) (selector : Selector) (query : jsstring)
  : M DbState SelectorResult :=
  let limit := match limit selector with Some l => l | None => 0 end in
  _ <- validateAfterInLedger (after selector) ledger ;;
  let selectorBytes := SelectorSql.stringToBytes query in
  '(eventId, results) <- tryExecuteSelector ledger limit selectorBytes (after selector) ;;
  match results with
  | [] => ret {| position := eventId; eventStream := Ready [] |}
  | _ :: _ => continueSelector selectorBytes eventId limit results
  end.

Definition allEvents (ledger : Ledger) (selector : Selector) : M DbState SelectorResult :=
  executeSelector ledger selector (u "true").

Definition runFilter (ledger : Ledger) (selector : Selector) : M DbState SelectorResult :=
  query <- lift (SelectorSql.filterSelectorToSql JSON_stringify selector) ;;
  executeSelector ledger selector query.

(** Reading the event stream to its end: the events it delivers. The
    rows of the pipeline are translated as they flow; the translation is
    applied here once the rows are known. *)
Definition drain (fuel : nat) (stream : EventStream)
  : M DbState (option (list PersistedEvent)) :=
  match stream with
  | Ready events => ret (Some events)
  | Pipeline firstBatch start limit selectorBytes =>
      more <- selectEvents fuel start limit selectorBytes ;;
      match more with
      | Some rows =>
          events <- lift (mapRows (ledgerId start) (firstBatch ++ rows)) ;;
          ret (Some events)
      | None => ret None
      end
  end.

(** ** The predicate sent for a plain selector *)

Definition afterInLedger (selector : Selector) (ledger : Ledger) : Prop :=
  match after selector with
  | Some a => ledgerId a = id ledger
  | None => True
  end.

Lemma validateAfterInLedger_ok (selector : Selector) (ledger : Ledger) (w : World DbState) :
  afterInLedger selector ledger ->
  validateAfterInLedger (after selector) ledger w = (Ok tt, w).
Proof.
  unfold afterInLedger, validateAfterInLedger.
  destruct (after selector) as [a|]; [|reflexivity].
  intros ->. rewrite str_eqb_refl. reflexivity.
Qed.

Lemma unknownSelectorToSql_plain (selector : Selector) :
  isFilterSelector selector = false ->
  SelectorSql.unknownSelectorToSql JSON_stringify selector = Ok [].
Proof. unfold SelectorSql.unknownSelectorToSql. intros ->. reflexivity. Qed.

Lemma latestEventId_plain_calls (ledger : Ledger) (selector : Selector) (w : World DbState) :
  isFilterSelector selector = false ->
  afterInLedger selector ledger ->
  calls (snd (latestEventId ledger selector w)) =
  calls w ++ [FetchEventId (id ledger) []
                (option_map timestamp (after selector)) (orNull (limit selector))].
Proof.
  intros Hp Ha. unfold latestEventId.
  unfold bind at 1. rewrite (@validateAfterInLedger_ok selector ledger w Ha).
  unfold bind at 1, lift. rewrite (@unknownSelectorToSql_plain selector Hp).
  apply adds_bind_quiet; [apply adds_sql|].
  intros r. destruct (rowsOf r); apply quiet_ret.
Qed.

Lemma quiet_continueSelector (selectorBytes : list Z) (position : EventID)
      (limit : Z) (firstBatch : list EventRow) :
  quiet (continueSelector selectorBytes position limit firstBatch).
Proof.
  unfold continueSelector.
  destruct (Z.of_nat (length firstBatch) <? EVENT_BATCH_SIZE).
  - apply quiet_bind; [apply quiet_lift | intros; apply quiet_ret].
  - apply quiet_ret.
Qed.

Lemma adds_tryExecuteSelector (ledger : Ledger) (limit : Z) (selector : list Z)
      (after : option EventID) :
  adds (tryExecuteSelector ledger limit selector after)
    [RunSelector (id ledger)
       (match after with Some a => timestamp a | None => 0 end)
       (match after with Some a => checksum a | None => 0 end)
       limit selector EVENT_BATCH_SIZE].
Proof.
  unfold tryExecuteSelector. apply adds_tryCatch_quiet.
  - apply adds_bind_quiet; [apply adds_sql|].
    intros r. destruct (rowsOf r); apply quiet_ret.
  - intros [st msg | msg | code msg cn]; try apply quiet_throw.
    destruct (str_eqb code (u "42601")); [apply quiet_throw|].
    destruct (startsWith msg (u "AFTER not found")); [|apply quiet_throw].
    destruct after as [a|]; [|apply quiet_throw].
    apply quiet_bind; [apply quiet_lift | intros; apply quiet_throw].
Qed.

Lemma executeSelector_calls (ledger : Ledger) (selector : Selector)
      (query : jsstring) (w : World DbState) :
  afterInLedger selector ledger ->
  calls (snd (executeSelector ledger selector query w)) =
  calls w ++ [RunSelector (id ledger)
                (match after selector with Some a => timestamp a | None => 0 end)
                (match after selector with Some a => checksum a | None => 0 end)
                (match limit selector with Some l => l | None => 0 end)
                (SelectorSql.stringToBytes query) EVENT_BATCH_SIZE].
Proof.
  intros Ha. unfold executeSelector.
  unfold bind at 1. rewrite (@validateAfterInLedger_ok selector ledger w Ha).
  apply adds_bind_quiet; [apply adds_tryExecuteSelector|].
  intros [eventId results]. destruct results; [apply quiet_ret|].
  apply quiet_continueSelector.
Qed.

(** C2, amended. For every plain selector, the execution path
    [allEvents] sends the literal [true] as the predicate of
    [run_selector]; [unknownSelectorToSql] returns the empty string, and
    [latestEventId] sends it, as no byte at all, to [fetch_event_id]. *)
Theorem plain_selector_predicate_true_or_empty
  (ledger : Ledger) (selector : Selector) (w : World DbState) :
  isFilterSelector selector = false ->
  afterInLedger selector ledger ->
  SelectorSql.unknownSelectorToSql JSON_stringify selector = Ok []
  /\ calls (snd (latestEventId ledger selector w)) =
     calls w ++ [FetchEventId (id ledger) []
                   (option_map timestamp (after selector)) (orNull (limit selector))]
  /\ calls (snd (allEvents ledger selector w)) =
     calls w ++ [RunSelector (id ledger)
                   (match after selector with Some a => timestamp a | None => 0 end)
                   (match after selector with Some a => checksum a | None => 0 end)
                   (match limit selector with Some l => l | None => 0 end)
                   (SelectorSql.stringToBytes (u "true")) EVENT_BATCH_SIZE].
Proof.
  intros Hp Ha. split; [|split].
  - apply unknownSelectorToSql_plain; assumption.
  - apply latestEventId_plain_calls; assumption.
  - apply executeSelector_calls; assumption.
Qed.

(** ** Batches *)

(** When [run_selector] returns fewer than 100 event rows after the
    header row, the stream is the translation of those rows, and reading
    it issues no call. *)
Lemma small_first_batch_is_whole_stream
  (position : EventID) (limit : Z) (selectorBytes : list Z)
  (firstBatch : list EventRow) (events : list PersistedEvent) (w : World DbState) :
  Z.of_nat (length firstBatch) < EVENT_BATCH_SIZE ->
  mapRows (ledgerId position) firstBatch = Ok events ->
  continueSelector selectorBytes position limit firstBatch w =
  (Ok {| position := position; eventStream := Ready events |}, w)
  /\ forall fuel w', drain fuel (Ready events) w' = (Ok (Some events), w').
Proof.
  intros Hlt Hmap. split; [|reflexivity].
  unfold continueSelector. apply Z.ltb_lt in Hlt. rewrite Hlt.
  unfold bind, lift. rewrite Hmap. reflexivity.
Qed.

Lemma selectLoop_extends (fuel : nat) :
  forall (ledgerId : jsstring) (after : Long) (totalLimit : Limit)
         (selectorBytes : list Z) (w : World DbState),
  exists more,
    calls (snd (selectLoop fuel ledgerId after totalLimit selectorBytes w)) =
    calls w ++ more.
Proof.
  induction fuel as [|fuel IH]; intros lid aft tl bytes w; simpl.
  - exists []. rewrite app_nil_r. destruct (positive tl); reflexivity.
  - destruct (positive tl); [|exists []; rewrite app_nil_r; reflexivity].
    unfold fetchRows. unfold bind at 1. unfold bind at 1.
    match goal with |- context [sql exec ?c w] =>
      pose proof (@adds_sql _ exec c w) as Hc; destruct (sql exec c w) as [[r | x] w1]
    end; simpl in Hc.
    + unfold ret at 1. destruct (rowsOf r) as [|row rows].
      * eexists. simpl. exact Hc.
      * unfold bind.
        match goal with |- context [selectLoop fuel ?l ?a ?t ?b w1] =>
          destruct (IH l a t b w1) as [more Hm];
          destruct (selectLoop fuel l a t b w1) as [[o | x] w2]
        end; simpl in *; rewrite Hm, Hc, <- app_assoc; eexists; reflexivity.
    + eexists. simpl. exact Hc.
Qed.

(** The first fetch of [selectEvents] asks for [min(limit, 100)] rows
    ([100] when [limit] is 0), whatever the first batch has delivered. *)
Lemma selectEvents_first_fetch
  (fuel : nat) (start : EventID) (limit : Z) (selectorBytes : list Z)
  (w : World DbState) :
  0 <= limit ->
  exists more,
    calls (snd (selectEvents (S fuel) start limit selectorBytes w)) =
    calls w ++
    FetchSelected (ledgerId start) (timestamp start)
      (if limit =? 0 then EVENT_BATCH_SIZE else Z.min limit EVENT_BATCH_SIZE)
      selectorBytes :: more.
Proof.
  intros Hl. unfold selectEvents.
  assert (Hpos : positive (if limit =? 0 then Unbounded else Bounded limit) = true).
  { destruct (Z.eqb_spec limit 0); simpl; [reflexivity | apply Z.ltb_lt; lia]. }
  assert (Hmin : minLimit (if limit =? 0 then Unbounded else Bounded limit)
                   EVENT_BATCH_SIZE =
                 if limit =? 0 then EVENT_BATCH_SIZE else Z.min limit EVENT_BATCH_SIZE).
  { destruct (limit =? 0); reflexivity. }
  simpl selectLoop. rewrite Hpos. unfold fetchRows. rewrite Hmin.
  unfold bind at 1. unfold bind at 1.
  match goal with |- context [sql exec ?c w] =>
    pose proof (@adds_sql _ exec c w) as Hc; destruct (sql exec c w) as [[r | x] w1]
  end; simpl in Hc.
  - unfold ret at 1. destruct (rowsOf r) as [|row rows].
    + exists []. simpl. exact Hc.
    + unfold bind.
      match goal with |- context [selectLoop fuel ?l ?a ?t ?b w1] =>
        destruct (@selectLoop_extends fuel l a t b w1) as [more Hm];
        destruct (selectLoop fuel l a t b w1) as [[o | x] w2]
      end; simpl in *; rewrite Hm, Hc, <- app_assoc; exists more; reflexivity.
  - exists []. simpl. exact Hc.
Qed.

End Source.

(** A database that answers every call with no row, and stand-ins for
    the two library functions, for the examples in which they are not
    called. *)
Definition silentDb : unit -> DbCall -> DbResponse * unit :=
  fun st _ => (Rows [], st).
Definition noStringify : jsval -> jsstring := fun _ => [].
Definition noInstant : Z -> jsstring := fun _ => [].

Definition emptySelector : Selector :=
  {| entities := None; meta := None; events := None; after := None; limit := None |}.

Definition freshWorld {S} (st : S) : World S := {| db := st; calls := [] |}.

(** Reading a whole selection: [all(ledger, selector)], then the stream
    to its end. *)
Definition selectAll {S} (exec : S -> DbCall -> DbResponse * S) (fuel : nat)
           (ledger : Ledger) (selector : Selector)
  : M S (option (list PersistedEvent)) :=
  (r <- allEvents exec noInstant ledger selector ;;
   drain exec noInstant fuel (eventStream r))%m.

Definition limited (n : Z) : Selector :=
  {| entities := None; meta := None; events := None; after := None;
     limit := Some n |}.

(** The limit a call asks for. *)
Definition requested (c : DbCall) : Z :=
  match c with
  | RunSelector _ _ _ limit _ _ => limit
  | FetchSelected _ _ limit _ => limit
  | _ => 0
  end.

(** C2, as stated, fails: for the plain selector [{}], [latestEventId]
    sends an empty predicate, not the bytes of [true]. *)
Lemma latestEventId_plain_predicate_is_not_true :
  isFilterSelector emptySelector = false /\
  calls (snd (latestEventId silentDb noStringify demoLedger emptySelector
                (freshWorld tt)))
  = [FetchEventId (u "3b9c0ad0") [] None None] /\
  SelectorSql.stringToBytes (u "true") = [116; 114; 117; 101].
Proof. split; [reflexivity | split; reflexivity]. Qed.

Lemma plain_selector_predicate_true_or_empty_witness :
  SelectorSql.unknownSelectorToSql noStringify emptySelector = Ok []
  /\ calls (snd (latestEventId silentDb noStringify demoLedger emptySelector
                   (freshWorld tt)))
     = [FetchEventId (u "3b9c0ad0") [] None None]
  /\ calls (snd (allEvents silentDb noInstant demoLedger emptySelector (freshWorld tt)))
     = [RunSelector (u "3b9c0ad0") 0 0 0 [116; 114; 117; 101] 100].
Proof.
  exact (@plain_selector_predicate_true_or_empty unit silentDb noStringify
           noInstant demoLedger emptySelector (freshWorld tt) eq_refl I).
Defined.

(** C5: the continuation does not count the first batch against the
    limit. On a ledger of 250 events, a selection with [limit = 150]
    receives a first batch of 100 rows from [run_selector], and then asks
    [fetch_selected] for [min(150, 100) = 100] and [min(50, 100) = 50]
    rows: 250 events are delivered, where the remaining limit after the
    first batch was 50. *)
Theorem limit_150_on_250_events_delivers_250 :
  match selectAll RefDb.exec 10 demoLedger (limited 150)
          (freshWorld (RefDb.ledgerOf 250)) with
  | (Ok (Some events), w) =>
      length events = 250%nat /\ map requested (calls w) = [150; 100; 50]
  | _ => False
  end.
Proof. vm_compute. split; reflexivity. Qed.

(** The part of C5 on short first batches, on the same ledger: with
    [limit = 50] the 50 rows of [run_selector] are the whole stream, and
    no row is fetched after them. *)
Example limit_50_on_250_events_delivers_50 :
  match selectAll RefDb.exec 10 demoLedger (limited 50)
          (freshWorld (RefDb.ledgerOf 250)) with
  | (Ok (Some events), w) =>
      length events = 50%nat /\ map requested (calls w) = [50]
  | _ => False
  end.
Proof. vm_compute. split; reflexivity. Qed.

(** Without a limit, 250 events take the first batch and three fetches,
    the last of which is empty. *)
Example unlimited_on_250_events_fetches_three_times :
  match selectAll RefDb.exec 10 demoLedger emptySelector
          (freshWorld (RefDb.ledgerOf 250)) with
  | (Ok (Some events), w) =>
      length events = 250%nat /\ map requested (calls w) = [0; 100; 100; 100]
  | _ => False
  end.
Proof. vm_compute. split; reflexivity. Qed.

End EventSource.

(* ===================================================================== *)
(** * Deep equality (lodash [isEqual])                                    *)
(* ===================================================================== *)

(** [isEqual] on JSON values: arrays are compared in order, objects key
    by key whatever the order of their keys. *)
Fixpoint isEqual (a b : jsval) : bool :=
  match a, b with
  | JNull, JNull => true
  | JBool x, JBool y => Bool.eqb x y
  | JNum x, JNum y => Z.eqb x y
  | JStr x, JStr y => str_eqb x y
  | JArr xs, JArr ys =>
      (fix eqList (xs ys : list jsval) : bool :=
         match xs, ys with
         | [], [] => true
         | x :: xs', y :: ys' => isEqual x y && eqList xs' ys'
         | _, _ => false
         end) xs ys
  | JObj xs, JObj ys =>
      Nat.eqb (length xs) (length ys) &&
      forallb (fun kv =>
                 match oget (fst kv) ys with
                 | Some v' => isEqual (snd kv) v'
                 | None => false
                 end) xs
  | _, _ => false
  end.

(** [isEqual(stored, given)] where [given] may be [undefined]; a column
    of a row is never [undefined]. *)
Definition isEqualOpt (stored : jsval) (given : option jsval) : bool :=
  match given with
  | Some v => isEqual stored v
  | None => false
  end.

Fixpoint strings_eqb (xs ys : list jsstring) : bool :=
  match xs, ys with
  | [], [] => true
  | x :: xs', y :: ys' => str_eqb x y && strings_eqb xs' ys'
  | _, _ => false
  end.

(** [isEqual] on two [EntitiesRecord]s. *)
Definition isEqualEntities (a b : EntitiesRecord) : bool :=
  Nat.eqb (length a) (length b) &&
  forallb (fun kv =>
             match oget (fst kv) b with
             | Some keys' => strings_eqb (snd kv) keys'
             | None => false
             end) a.

(** [String.prototype.endsWith]. *)
Definition endsWith (s suffix : jsstring) : bool :=
  startsWith (rev s) (rev suffix).

(* ===================================================================== *)
(** * Event store (event-store/index.ts, event-store/postgres-store.ts)   *)
(* ===================================================================== *)

Module EventStore.

(** The body of POST /append, as the store reads it. *)
Record AppendEvent := {
  ae_event : jsstring;
  ae_entities : EntitiesRecord;
  ae_meta : option jsval;
  ae_data : option jsval;
  idempotencyKey : option jsstring
}.

Inductive Result := SUCCESS | RACE | FAIL | ERROR.

Record AppendedEvent := {
  eventId : jsstring;
  ok_idempotencyKey : option jsstring
}.

Record AppendResult := {
  status : Result;
  ok : option AppendedEvent;
  message : option jsstring;
  error : option jsstring
}.

Definition REGISTER_EVENT : jsstring := u "/registry/register-event".

Section Store.

Variable DbState : Type.
Variable exec : DbState -> DbCall -> DbResponse * DbState.
Variable JSON_stringify : jsval -> jsstring.
(** [createId()] of cuid2: some identifier. *)
Variable createId : World DbState -> jsstring.
(** The [Registry] the store is initialised with. *)
Variable getEvent : Ledger -> jsstring -> M DbState (option Registry.EventType).

Local Open Scope m_scope.

Definition entityErrors (eventDef : Registry.EventType) (entities : EntitiesRecord)
  : list jsstring :=
  flat_map
    (fun entity =>
       if includes (Registry.entities eventDef) entity then []
       else [u "entity '" ++ entity ++
             u "' is not registered to be part of this event."])
    (okeys entities).

Definition validateEvent (ledger : Ledger) (eventIn : AppendEvent) : M DbState unit :=
  eventDef <- getEvent ledger (ae_event eventIn) ;;
  match eventDef with
  | None =>
      throw (UnprocessableEntity
               (u "event '" ++ ae_event eventIn ++
                u "' not found in this ledger. Visit " ++ REGISTER_EVENT ++
                u " to register new events."))
  | Some eventDef =>
      match entityErrors eventDef (ae_entities eventIn) with
      | [] => ret tt
      | errors => throw (UnprocessableEntity (join [10%N] errors))
      end
  end.

Definition success (eventId : jsstring) (key : jsstring) : AppendResult :=
  {| status := SUCCESS;
     ok := Some {| eventId := eventId; ok_idempotencyKey := Some key |};
     message := None; error := None |}.

Definition errorResult (msg : jsstring) : AppendResult :=
  {| status := ERROR; ok := None; message := Some msg; error := None |}.

Definition maybeIdempotent (ledger : Ledger) (newEvent : AppendEvent)
           (appendResult : AppendResult) : M DbState AppendResult :=
  let key :=
    match idempotencyKey newEvent with
    | Some k => k
    | None => u "NO_IDEMPOTENCY_KEY"
    end in
  result <- sql exec (FindWithAppendKey (id ledger) key) ;;
  match rowsOf result with
  | stored :: _ =>
      if str_eqb (ae_event newEvent) (row_event stored)
         && isEqualEntities (row_entities stored) (ae_entities newEvent)
         && isEqualOpt (row_meta stored) (ae_meta newEvent)
         && isEqualOpt (row_data stored) (ae_data newEvent)
      then
        eventId <- lift (EventId.toEventIdString (row_timestamp stored)
                           (checksumToInt (row_checksum stored)) (id ledger)) ;;
        ret (success eventId key)
      else
        throw (UnprocessableEntity
                 (u "Event does not match the event originally appended with idempotencyKey: '"
                  ++ key ++ u "'"))
  | [] => ret appendResult
  end.

Definition internalError : M DbState AppendResult :=
  fun w =>
    let refNum := u "ref#" ++ createId w in
    (Throw (InternalServerError
              (u "Something went wrong on our side. Please contact us with "
               ++ refNum ++ u " for investigation.")), w).

Definition raceResult : AppendResult :=
  {| status := RACE; ok := None; message := None;
     error := Some (u "Race Condition! Entity has newer events. Please GET /SELECTOR for the most recent events.") |}.

Definition nonEmptyString (s : jsstring) : bool :=
  match s with [] => false | _ => true end.

Definition tryAppendResult (ledger : Ledger) (appendEvent : AppendEvent)
           (appendValues : AppendEventPostgres) : M DbState AppendResult :=
  tryCatch
    (r <- sql exec (AppendEventCall appendValues) ;;
     match r with
     | EventIdRow eventId => ret (success eventId (appendKey appendValues))
     | _ => throw (JsError (u "TypeError"))
     end)
    (fun err =>
       match err with
       | PostgresError _ msg constraint_name =>
           if startsWith msg (u "RACE CONDITION") then
             if nonEmptyString (appendKey appendValues)
             then maybeIdempotent ledger appendEvent raceResult
             else ret raceResult
           else if nonEmptyString (appendKey appendValues)
                   && match constraint_name with
                      | Some c => endsWith c (u "_append_key_key")
                      | None => false
                      end
           then maybeIdempotent ledger appendEvent
                  (errorResult (u "idempotencyKey reused for a different event. Please generate a new idempotencyKey and repeat the append request."))
           else if str_eqb msg (u "previous can only be genesis for first event")
           then ret (errorResult (u "Ledger already has events, must send most recent selector event id as 'after' in append body."))
           else if str_eqb msg (u "previous_id must exist in the ledger")
           then ret (errorResult (u "Previous Event ID is not found in ledger."))
           else if startsWith msg (u "AFTER not found")
           then ret (errorResult (u "'after' value not found in ledger."))
           else internalError
       | _ => internalError
       end).

(** [idempotencyKey || createId()]. *)
Definition keyOrFresh (key : option jsstring) : M DbState jsstring :=
  fun w =>
    match key with
    | Some (c :: k) => (Ok (c :: k), w)
    | _ => (Ok (createId w), w)
    end.

Definition appendEvent (ledger : Ledger) (event : AppendEvent)
           (selectorSql : jsstring) (after : option EventID) : M DbState AppendResult :=
  _ <- validateEvent ledger event ;;
  let meta := match ae_meta event with Some m => m | None => JNull end in
  let data := match ae_data event with Some d => d | None => JNull end in
  let selectorBytes := SelectorSql.stringToBytes selectorSql in
  let afterTimestamp := match after with Some a => timestamp a | None => 0 end in
  let afterChecksum := match after with Some a => checksum a | None => 0 end in
  previousEventId <- lift (EventId.toEventIdString afterTimestamp afterChecksum
                             (id ledger)) ;;
  key <- keyOrFresh (idempotencyKey event) ;;
  let values :=
    {| previousEventId := previousEventId;
       ap_event := ae_event event;
       ap_entities := ae_entities event;
       ap_meta := meta;
       ap_data := data;
       appendKey := key;
       ap_selector := selectorBytes |} in
  tryAppendResult ledger event values.

Definition appendFact (ledger : Ledger) (event : AppendEvent) : M DbState AppendResult :=
  appendEvent ledger event (u "false") None.

Definition appendWithSelector (ledger : Ledger) (event : AppendEvent)
           (selector : Selector) : M DbState AppendResult :=
  selectorQuery <- lift (SelectorSql.unknownSelectorToSql JSON_stringify selector) ;;
  appendEvent ledger event selectorQuery (after selector).

(** The [EventStore] of [init]. *)
Definition appendFactualEvent (ledger : Ledger) (event : AppendEvent)
  : M DbState AppendResult :=
  wrapWithCatch (appendFact ledger event).

Definition appendAtomicEvent (ledger : Ledger) (event : AppendEvent)
           (selector : Selector) : M DbState AppendResult :=
  wrapWithCatch (appendWithSelector ledger event selector).

(** ** Registry validation *)

Lemma entityErrors_nil (eventDef : Registry.EventType) (entities : EntitiesRecord) :
  entityErrors eventDef entities = [] <->
  forall entity, In entity (okeys entities) -> In entity (Registry.entities eventDef).
Proof.
  unfold entityErrors. generalize (okeys entities). intros ks.
  induction ks as [|k ks IH]; simpl.
  - split; [intros _ ? [] | reflexivity].
  - destruct (includes (Registry.entities eventDef) k) eqn:E; simpl.
    + apply includes_In in E. rewrite IH. split.
      * intros H entity [<- | Hin]; auto.
      * intros H entity Hin. apply H. auto.
    + split; [discriminate|].
      intros H. assert (Hk : In k (Registry.entities eventDef)) by (apply H; auto).
      apply includes_In in Hk. congruence.
Qed.

(** The registry lookup of the event fails the validation: the event
    type is not registered, or an entity of the event is not listed for
    it. *)
Definition notValid (lookup : result (option Registry.EventType) * World DbState)
           (event : AppendEvent) : Prop :=
  fst lookup = Ok None \/
  exists eventDef entity,
    fst lookup = Ok (Some eventDef) /\
    In entity (okeys (ae_entities event)) /\
    ~ In entity (Registry.entities eventDef).

(** The event type is registered and lists every entity of the event. *)
Definition valid (lookup : result (option Registry.EventType) * World DbState)
           (event : AppendEvent) : Prop :=
  exists eventDef,
    fst lookup = Ok (Some eventDef) /\
    forall entity, In entity (okeys (ae_entities event)) ->
                   In entity (Registry.entities eventDef).

Lemma validateEvent_notValid (ledger : Ledger) (event : AppendEvent) (w : World DbState) :
  notValid (getEvent ledger (ae_event event) w) event ->
  exists msg,
    validateEvent ledger event w =
    (Throw (UnprocessableEntity msg), snd (getEvent ledger (ae_event event) w)).
Proof.
  unfold notValid, validateEvent, bind.
  destruct (getEvent ledger (ae_event event) w) as [r w1]; simpl.
  intros [-> | [eventDef [entity [-> [Hin Hnot]]]]].
  - eexists; reflexivity.
  - destruct (entityErrors eventDef (ae_entities event)) as [|err errs] eqn:E.
    + elim Hnot.
      apply (proj1 (entityErrors_nil eventDef (ae_entities event)) E); assumption.
    + eexists; reflexivity.
Qed.

Lemma validateEvent_Ok_valid (ledger : Ledger) (event : AppendEvent)
      (w w1 : World DbState) :
  validateEvent ledger event w = (Ok tt, w1) ->
  valid (getEvent ledger (ae_event event) w) event.
Proof.
  unfold valid, validateEvent, bind.
  destruct (getEvent ledger (ae_event event) w) as [[[eventDef|] | x] w2]; simpl;
    try discriminate.
  destruct (entityErrors eventDef (ae_entities event)) as [|err errs] eqn:E;
    [|discriminate].
  intros _. exists eventDef. split; [reflexivity|].
  apply (proj1 (entityErrors_nil eventDef (ae_entities event)) E).
Qed.

Lemma appendEvent_validateEvent_throws
      (ledger : Ledger) (event : AppendEvent) (selectorSql : jsstring)
      (after : option EventID) (w w1 : World DbState) (e : exn) :
  validateEvent ledger event w = (Throw e, w1) ->
  appendEvent ledger event selectorSql after w = (Throw e, w1).
Proof. intros H. unfold appendEvent. unfold bind at 1. rewrite H. reflexivity. Qed.

Lemma appendEvent_Ok_valid
      (ledger : Ledger) (event : AppendEvent) (selectorSql : jsstring)
      (after : option EventID) (w w1 : World DbState) (r : AppendResult) :
  appendEvent ledger event selectorSql after w = (Ok r, w1) ->
  valid (getEvent ledger (ae_event event) w) event.
Proof.
  unfold appendEvent. unfold bind at 1.
  destruct (validateEvent ledger event w) as [[[] | x] w2] eqn:E; [|discriminate].
  intros _. apply (@validateEvent_Ok_valid ledger event w w2 E).
Qed.

Lemma wrapWithCatch_http {A} (m : M DbState A) (w w1 : World DbState)
      (st : Z) (msg : jsstring) :
  m w = (Throw (HttpError st msg), w1) ->
  wrapWithCatch m w = (Throw (HttpError st msg), w1).
Proof. intros H. unfold wrapWithCatch, tryCatch. rewrite H. reflexivity. Qed.

Lemma wrapWithCatch_Ok_inv {A} (m : M DbState A) (w w1 : World DbState) (a : A) :
  wrapWithCatch m w = (Ok a, w1) -> m w = (Ok a, w1).
Proof.
  unfold wrapWithCatch, tryCatch. destruct (m w) as [[a' | x] w2]; [auto|].
  destruct x; unfold throw; discriminate.
Qed.

Lemma generateEventsQuery_total (dataFilter : DataFilter) :
  exists q, SelectorSql.generateEventsQuery JSON_stringify dataFilter = Ok q.
Proof.
  unfold SelectorSql.generateEventsQuery.
  match goal with |- context [match ?l with [] => _ | _ :: _ => _ end] =>
    destruct l as [|e1 [|e2 es]] end; eexists; reflexivity.
Qed.

Lemma unknownSelectorToSql_total (selector : Selector) :
  exists q, SelectorSql.unknownSelectorToSql JSON_stringify selector = Ok q.
Proof.
  unfold SelectorSql.unknownSelectorToSql.
  destruct (isFilterSelector selector); [|eexists; reflexivity].
  unfold SelectorSql.filterSelectorToSql.
  destruct (SelectorSql.nonEmpty (events selector)) as [evs|];
    [|eexists; reflexivity].
  destruct (generateEventsQuery_total evs) as [q ->]. eexists; reflexivity.
Qed.

(** C7. A factual or atomic append fails with 422 Unprocessable Entity
    when the event name is not registered in the ledger's registry, or
    when an entity name of the event is not listed in the registry entry
    of its event type; and an append returns a result only when the
    event name is registered and every entity name of the event is
    listed for it. *)
Theorem append_validates_against_registry
  (ledger : Ledger) (event : AppendEvent) (selector : Selector) (w : World DbState) :
  let lookup := getEvent ledger (ae_event event) w in
  (notValid lookup event ->
   status_of (fst (appendFactualEvent ledger event w)) = Some 422 /\
   status_of (fst (appendAtomicEvent ledger event selector w)) = Some 422)
  /\ (forall r,
        fst (appendFactualEvent ledger event w) = Ok r \/
        fst (appendAtomicEvent ledger event selector w) = Ok r ->
        valid lookup event).
Proof.
  intros lookup. subst lookup.
  destruct (unknownSelectorToSql_total selector) as [q Hq].
  split.
  - intros Hn. destruct (@validateEvent_notValid ledger event w Hn) as [msg Hv].
    split.
    + unfold appendFactualEvent, appendFact.
      rewrite (@wrapWithCatch_http _ _ _ _ _ _
                 (@appendEvent_validateEvent_throws ledger event (u "false") None
                    w _ _ Hv)).
      reflexivity.
    + unfold appendAtomicEvent.
      assert (H : appendWithSelector ledger event selector w =
                  (Throw (UnprocessableEntity msg),
                   snd (getEvent ledger (ae_event event) w))).
      { unfold appendWithSelector, bind, lift. rewrite Hq.
        apply appendEvent_validateEvent_throws. assumption. }
      rewrite (@wrapWithCatch_http _ _ _ _ _ _ H). reflexivity.
  - intros r [H | H].
    + unfold appendFactualEvent, appendFact in H.
      destruct (wrapWithCatch (appendEvent ledger event (u "false") None) w)
        as [r' w1] eqn:E.
      simpl in H. subst r'. apply wrapWithCatch_Ok_inv in E.
      apply (@appendEvent_Ok_valid ledger event _ _ w _ _ E).
    + unfold appendAtomicEvent in H.
      destruct (wrapWithCatch (appendWithSelector ledger event selector) w)
        as [r' w1] eqn:E.
      simpl in H. subst r'. apply wrapWithCatch_Ok_inv in E.
      unfold appendWithSelector, bind, lift in E. rewrite Hq in E.
      apply (@appendEvent_Ok_valid ledger event _ _ w _ _ E).
Qed.

(** ** No call after a failed validation *)

Definition isAppendCall (c : DbCall) : bool :=
  match c with AppendEventCall _ => true | _ => false end.

(** The registry only reads: a lookup leaves the database as it is and
    issues no [append_event]. *)
Definition registryReadsOnly : Prop :=
  forall ledger event w,
    db (snd (getEvent ledger event w)) = db w /\
    exists cs,
      calls (snd (getEvent ledger event w)) = calls w ++ cs /\
      existsb isAppendCall cs = false.

(** C10. When the registry validation of a factual or atomic append
    fails, the 422 is raised right after the registry lookup: the append
    leaves the world as the lookup left it, so no [append_event] call is
    issued and the database is in the state it was in. *)
Theorem failed_validation_issues_no_append
  (ledger : Ledger) (event : AppendEvent) (selector : Selector) (w : World DbState) :
  registryReadsOnly ->
  notValid (getEvent ledger (ae_event event) w) event ->
  let afterLookup := snd (getEvent ledger (ae_event event) w) in
  let afterFact := appendFactualEvent ledger event w in
  let afterAtomic := appendAtomicEvent ledger event selector w in
  status_of (fst afterFact) = Some 422 /\ status_of (fst afterAtomic) = Some 422
  /\ snd afterFact = afterLookup /\ snd afterAtomic = afterLookup
  /\ db (snd afterFact) = db w /\ db (snd afterAtomic) = db w
  /\ exists cs,
       calls (snd afterFact) = calls w ++ cs /\
       calls (snd afterAtomic) = calls w ++ cs /\
       existsb isAppendCall cs = false.
Proof.
  intros Hreg Hn afterLookup afterFact afterAtomic.
  destruct (unknownSelectorToSql_total selector) as [q Hq].
  destruct (@validateEvent_notValid ledger event w Hn) as [msg Hv].
  assert (Hf : afterFact = (Throw (UnprocessableEntity msg), afterLookup)).
  { unfold afterFact, appendFactualEvent, appendFact.
    apply wrapWithCatch_http.
    apply appendEvent_validateEvent_throws. assumption. }
  assert (Ha : afterAtomic = (Throw (UnprocessableEntity msg), afterLookup)).
  { unfold afterAtomic, appendAtomicEvent.
    apply wrapWithCatch_http.
    unfold appendWithSelector, bind, lift. rewrite Hq.
    apply appendEvent_validateEvent_throws. assumption. }
  rewrite Hf, Ha. simpl.
  destruct (Hreg ledger (ae_event event) w) as [Hdb [cs [Hcs Hno]]].
  fold afterLookup in Hdb, Hcs.
  repeat split; try assumption.
  exists cs. auto.
Qed.

End Store.

(** ** Examples on the reference database *)

(** A registry holding the event types [x] (on entity [e]) and
    [order-placed] (on entity [order]). *)
Definition demoRegistry {S} : Ledger -> jsstring -> M S (option Registry.EventType) :=
  fun _ event =>
    ret (Registry.findEvent
           [{| Registry.event := u "x"; Registry.entities := [u "e"] |};
            {| Registry.event := u "order-placed";
               Registry.entities := [u "order"] |}]
           event).

Definition demoId {S} : World S -> jsstring := fun _ => u "tz4a98xxat96iws9zmbrgj3a".

Definition factual (event : AppendEvent) : M RefDb.State AppendResult :=
  appendFactualEvent RefDb.exec demoId demoRegistry demoLedger event.

Definition atomic (event : AppendEvent) (selector : Selector)
  : M RefDb.State AppendResult :=
  appendAtomicEvent RefDb.exec EventSource.noStringify demoId demoRegistry
    demoLedger event selector.

(** An event of a type that is not registered. *)
Definition unregisteredEvent : AppendEvent :=
  {| ae_event := u "order-shipped";
     ae_entities := [(u "order", [u "o-1"])];
     ae_meta := None; ae_data := None; idempotencyKey := None |}.

Lemma demoRegistry_reads_only : @registryReadsOnly RefDb.State demoRegistry.
Proof.
  intros ledger event w. split; [reflexivity|].
  exists []. split; [symmetry; apply app_nil_r | reflexivity].
Qed.

Lemma append_validates_against_registry_witness :
  status_of (fst (factual unregisteredEvent (EventSource.freshWorld []))) = Some 422 /\
  status_of (fst (atomic unregisteredEvent EventSource.emptySelector
                    (EventSource.freshWorld []))) = Some 422.
Proof.
  apply (proj1 (@append_validates_against_registry RefDb.State RefDb.exec
                  EventSource.noStringify demoId demoRegistry demoLedger
                  unregisteredEvent EventSource.emptySelector
                  (EventSource.freshWorld []))).
  left. reflexivity.
Defined.

Lemma failed_validation_issues_no_append_witness :
  snd (factual unregisteredEvent (EventSource.freshWorld []))
  = EventSource.freshWorld [] /\
  snd (atomic unregisteredEvent EventSource.emptySelector (EventSource.freshWorld []))
  = EventSource.freshWorld [].
Proof.
  pose proof (@failed_validation_issues_no_append RefDb.State RefDb.exec
                EventSource.noStringify demoId demoRegistry demoLedger
                unregisteredEvent EventSource.emptySelector
                (EventSource.freshWorld [])
                demoRegistry_reads_only (or_introl eq_refl)) as H.
  simpl in H. destruct H as [_ [_ [H1 [H2 _]]]].
  split; [exact H1 | exact H2].
Defined.

(** Scenario 3 of the specification: an event with an idempotency key
    and neither [meta] nor [data]. *)
Definition keyed (meta data : option jsval) : AppendEvent :=
  {| ae_event := u "x";
     ae_entities := [(u "e", [u "1"])];
     ae_meta := meta; ae_data := data;
     idempotencyKey := Some (u "K") |}.

(** Two appends in a row on an empty ledger. *)
Definition twice (first second : AppendEvent)
  : result AppendResult * result AppendResult :=
  let '(r1, w1) := factual first (EventSource.freshWorld []) in
  let '(r2, _) := factual second w1 in
  (r1, r2).

(** C3: the replay compares the stored [meta] and [data], which
    [appendEvent] defaulted to [null], with those of the input, which are
    [undefined] when the body has none. Appending the body of scenario 3
    twice returns SUCCESS and then 422. *)
Theorem replay_without_meta_and_data_is_422 :
  fst (twice (keyed None None) (keyed None None)) =
  Ok (success (u "0000000000000001000000003b9c0ad0") (u "K"))
  /\ status_of (snd (twice (keyed None None) (keyed None None))) = Some 422.
Proof. split; vm_compute; reflexivity. Qed.

(** With [meta] and [data] in the body, the replay returns SUCCESS with
    the event id of the first append, whatever the order of the keys. *)
Example replay_with_meta_and_data_is_idempotent :
  let first :=
    keyed (Some (JObj [])) (Some (JObj [(u "total", JNum 42); (u "lines", JNum 3)])) in
  let again :=
    keyed (Some (JObj [])) (Some (JObj [(u "lines", JNum 3); (u "total", JNum 42)])) in
  fst (twice first again) = snd (twice first again)
  /\ fst (twice first again) =
     Ok (success (u "0000000000000001000000003b9c0ad0") (u "K")).
Proof. split; vm_compute; reflexivity. Qed.

(** A second input that differs in [data] and reuses the key: SUCCESS,
    then 422. *)
Example key_reused_for_other_data_is_422 :
  let first := keyed (Some (JObj [])) (Some (JObj [(u "total", JNum 42)])) in
  let other := keyed (Some (JObj [])) (Some (JObj [(u "total", JNum 43)])) in
  (exists r, fst (twice first other) = Ok r /\ status r = SUCCESS)
  /\ status_of (snd (twice first other)) = Some 422.
Proof.
  split; [eexists; split; vm_compute; reflexivity | vm_compute; reflexivity].
Qed.

End EventStore.

(* ===================================================================== *)
(** * Event ids: the sixteen bytes and back                               *)
(* ===================================================================== *)

Module EventIdFacts.
Import EventId.

Lemma bytesBE_value (v : Z) :
  (v / 16777216) mod 256 * 16777216 + (v / 65536) mod 256 * 65536
  + (v / 256) mod 256 * 256 + v mod 256 = v mod two32.
Proof.
  unfold two32.
  replace (v / 16777216) with (v / 256 / 256 / 256)
    by (rewrite !Z.div_div by lia; reflexivity).
  replace (v / 65536) with (v / 256 / 256)
    by (rewrite !Z.div_div by lia; reflexivity).
  replace (v mod 4294967296) with (v - 4294967296 * (v / 256 / 256 / 256 / 256))
    by (rewrite !Z.div_div by lia; simpl; rewrite Z.mod_eq by lia; reflexivity).
  rewrite !Z.mod_eq by lia. ring.
Qed.

Lemma toInt32_range (x : Z) : - two31 <= x < two31 -> toInt32 x = x.
Proof.
  unfold toInt32, two31, two32. intros H.
  destruct (Z.ltb_spec (x mod 4294967296) 2147483648);
  Z.div_mod_to_equations; lia.
Qed.

Lemma toInt32_mod (x : Z) : toInt32 (x mod two32) = toInt32 x.
Proof. unfold toInt32. rewrite Z.mod_mod; [reflexivity | unfold two32; lia]. Qed.

Lemma toInt32_mod32 (x : Z) : toInt32 x mod two32 = x mod two32.
Proof.
  unfold toInt32, two32, two31.
  destruct (Z.ltb_spec (x mod 4294967296) 2147483648);
  Z.div_mod_to_equations; lia.
Qed.

Lemma fromBits_halves (ts : Long) :
  - 9223372036854775808 <= ts < 9223372036854775808 ->
  fromBits (toInt32 (getLowBits ts mod two32)) (toInt32 (getHighBits ts mod two32)) = ts.
Proof.
  intros H. unfold fromBits. rewrite !toInt32_mod.
  unfold getHighBits, getLowBits.
  rewrite !toInt32_mod32.
  assert (Hr : - two31 <= ts / two32 < two31).
  { unfold two31, two32. Z.div_mod_to_equations. lia. }
  rewrite !(@toInt32_range _ Hr).
  unfold two32 in *. pose proof (Z.div_mod ts 4294967296). lia.
Qed.

Lemma fromEventIdBytes_parts (ts : Long) (chk lid : Z) :
  - 9223372036854775808 <= ts < 9223372036854775808 ->
  0 <= chk < two32 -> 0 <= lid < two32 ->
  fromEventIdBytes (longToBuffer ts ++ bytesBE chk ++ bytesBE lid) =
  Ok {| timestamp := ts; checksum := chk;
        ledgerId := padStart0 8 (toString16 lid) |}.
Proof.
  intros Hts Hc Hl. unfold fromEventIdBytes, longToBuffer.
  change (Nat.eqb (length ((bytesBE (getHighBits ts) ++ bytesBE (getLowBits ts))
                           ++ bytesBE chk ++ bytesBE lid)) 16) with true.
  cbv iota.
  unfold bufferToLong, readInt32BE, readUInt32BE, bytesBE.
  cbn [app nth Nat.add].
  rewrite !bytesBE_value.
  rewrite (@fromBits_halves _ Hts).
  rewrite (Z.mod_small chk), (Z.mod_small lid) by assumption.
  reflexivity.
Qed.

Definition isLowerHex (c : N) : bool :=
  ((48 <=? c) && (c <=? 57) || (97 <=? c) && (c <=? 102))%N.

Definition validDigit (d : Z) : Prop := 0 <= d < 16.

Definition valOf (ds : list Z) : Z := fold_left (fun a d => 16 * a + d) ds 0.

Lemma validDigit_cases (d : Z) :
  validDigit d ->
  d = 0 \/ d = 1 \/ d = 2 \/ d = 3 \/ d = 4 \/ d = 5 \/ d = 6 \/ d = 7 \/
  d = 8 \/ d = 9 \/ d = 10 \/ d = 11 \/ d = 12 \/ d = 13 \/ d = 14 \/ d = 15.
Proof. unfold validDigit. lia. Qed.

Ltac each_digit H :=
  apply validDigit_cases in H;
  repeat (destruct H as [H | H]; [subst | ]); subst.

Lemma hexVal_hexChar (d : Z) : validDigit d -> hexVal (hexChar d) = Some d.
Proof. intros H. each_digit H; reflexivity. Qed.

Lemma hexChar_plain (d : Z) :
  validDigit d ->
  isWhiteSpace (hexChar d) = false /\ N.eqb (hexChar d) 45 = false /\
  N.eqb (hexChar d) 43 = false /\ N.eqb (hexChar d) 120 = false /\
  N.eqb (hexChar d) 88 = false.
Proof. intros H. each_digit H; repeat split; reflexivity. Qed.

Lemma isLowerHex_digit (c : N) :
  isLowerHex c = true -> exists d, validDigit d /\ c = hexChar d.
Proof.
  unfold isLowerHex. intros H.
  assert (Hc : (48 <= c <= 57 \/ 97 <= c <= 102)%N).
  { apply orb_true_iff in H. destruct H as [H | H];
      apply andb_true_iff in H; destruct H as [H1 H2];
      apply N.leb_le in H1; apply N.leb_le in H2; lia. }
  destruct Hc as [Hc | Hc].
  - exists (Z.of_N c - 48). unfold validDigit, hexChar. split; [lia|].
    destruct (Z.ltb_spec (Z.of_N c - 48) 10); lia.
  - exists (Z.of_N c - 87). unfold validDigit, hexChar. split; [lia|].
    destruct (Z.ltb_spec (Z.of_N c - 87) 10); lia.
Qed.

Lemma lowerHex_digits (s : jsstring) :
  forallb isLowerHex s = true ->
  exists ds, Forall validDigit ds /\ s = map hexChar ds.
Proof.
  induction s as [|c s IH]; simpl; intros H.
  - exists []. split; [constructor | reflexivity].
  - apply andb_true_iff in H. destruct H as [Hc Hs].
    destruct (isLowerHex_digit _ Hc) as [d [Hd ->]].
    destruct (IH Hs) as [ds [Hds ->]].
    exists (d :: ds). split; [constructor; assumption | reflexivity].
Qed.

Lemma parseHexDigits_digits (ds : list Z) (a : Z) :
  Forall validDigit ds ->
  parseHexDigits (Some a) (map hexChar ds) =
  Some (fold_left (fun a d => 16 * a + d) ds a).
Proof.
  revert a. induction ds as [|d ds IH]; intros a H; simpl; [reflexivity|].
  inversion H; subst. rewrite hexVal_hexChar by assumption. apply IH. assumption.
Qed.

Lemma parseInt16_digits (ds : list Z) :
  Forall validDigit ds -> ds <> [] ->
  parseInt16 (map hexChar ds) = Some (valOf ds).
Proof.
  intros H Hne. destruct ds as [|d ds]; [congruence|].
  inversion H as [|? ? Hd Hds]; subst.
  destruct (hexChar_plain Hd) as [Hw [Hm [Hp _]]].
  unfold parseInt16. simpl map. simpl trimStart. rewrite Hw, Hm, Hp.
  cbv beta iota zeta.
  match goal with |- context [parseHexDigits None ?t] =>
    assert (Hs3 : t = hexChar d :: map hexChar ds) end.
  { destruct ds as [|d1 ds']; [reflexivity|]. simpl.
    inversion Hds as [|? ? Hd1 _]; subst.
    destruct (hexChar_plain Hd1) as [_ [_ [_ [Hx HX]]]].
    rewrite Hx, HX. rewrite andb_false_r. reflexivity. }
  rewrite Hs3. simpl parseHexDigits. rewrite hexVal_hexChar by assumption.
  rewrite parseHexDigits_digits by assumption.
  unfold valOf. simpl. reflexivity.
Qed.

Lemma fold_digits_bound (ds : list Z) (a : Z) :
  Forall validDigit ds -> 0 <= a ->
  16 ^ Z.of_nat (length ds) * a <= fold_left (fun a d => 16 * a + d) ds a
  < 16 ^ Z.of_nat (length ds) * (a + 1).
Proof.
  revert a. induction ds as [|d ds IH]; intros a H Ha.
  - simpl length. change (Z.of_nat 0) with 0. rewrite Z.pow_0_r. cbn [fold_left]. lia.
  - inversion H as [|? ? Hd Hds]; subst. unfold validDigit in Hd.
    cbn [fold_left]. specialize (IH (16 * a + d) Hds ltac:(lia)).
    replace (Z.of_nat (length (d :: ds))) with (Z.of_nat (length ds) + 1)
      by (simpl length; lia).
    rewrite Z.pow_add_r by lia.
    assert (0 < 16 ^ Z.of_nat (length ds)) by (apply Z.pow_pos_nonneg; lia).
    rewrite Z.pow_1_r.
    set (P := 16 ^ Z.of_nat (length ds)) in *.
    set (F := fold_left (fun a0 d0 : Z => 16 * a0 + d0) ds (16 * a + d)) in *.
    clearbody P F. nia.
Qed.

Lemma valOf_bound (ds : list Z) :
  Forall validDigit ds -> 0 <= valOf ds < 16 ^ Z.of_nat (length ds).
Proof.
  intros H. pose proof (@fold_digits_bound ds 0 H ltac:(lia)) as B.
  unfold valOf. lia.
Qed.

Lemma fold_digits_snoc (ds : list Z) (d : Z) :
  valOf (ds ++ [d]) = 16 * valOf ds + d.
Proof. unfold valOf. rewrite fold_left_app. reflexivity. Qed.

Lemma valOf_zero (ds : list Z) :
  Forall validDigit ds -> valOf ds = 0 -> map hexChar ds = repeat 48%N (length ds).
Proof.
  induction ds as [|d ds IH] using rev_ind; intros H Hz; [reflexivity|].
  apply Forall_app in H. destruct H as [Hds Hd]. inversion Hd as [|? ? Hd' _]; subst.
  rewrite fold_digits_snoc in Hz. pose proof (valOf_bound Hds) as B.
  unfold validDigit in Hd'.
  assert (valOf ds = 0) by lia. assert (d = 0) by lia. subst d.
  rewrite map_app, IH by assumption. rewrite length_app. simpl.
  rewrite repeat_app. reflexivity.
Qed.

Lemma padStart0_snoc (k : nat) (s : jsstring) (c : N) :
  padStart0 (S k) (s ++ [c]) = padStart0 k s ++ [c].
Proof.
  unfold padStart0. rewrite length_app. simpl length.
  replace (S k - (length s + 1))%nat with (k - length s)%nat by lia.
  rewrite app_assoc. reflexivity.
Qed.

Lemma hexDigits_digits (ds : list Z) :
  Forall validDigit ds -> ds <> [] ->
  forall fuel, (length ds <= fuel)%nat ->
  padStart0 (length ds) (hexDigits fuel (valOf ds)) = map hexChar ds.
Proof.
  induction ds as [|d ds IH] using rev_ind; intros H Hne fuel Hf; [congruence|].
  apply Forall_app in H. destruct H as [Hds Hd]. inversion Hd as [|? ? Hd' _]; subst.
  rewrite fold_digits_snoc. rewrite length_app in *. simpl length in *.
  replace (length ds + 1)%nat with (S (length ds)) in * by lia.
  destruct fuel as [|fuel]; [lia|]. cbn [hexDigits].
  pose proof (valOf_bound Hds) as B. unfold validDigit in Hd'.
  destruct (Z.ltb_spec (16 * valOf ds + d) 16) as [Hlt | Hge].
  - assert (Hz : valOf ds = 0) by lia. rewrite Hz. rewrite Z.mul_0_r, Z.add_0_l.
    rewrite map_app, (valOf_zero Hds Hz). cbn [map].
    unfold padStart0. cbn [length].
    replace (S (length ds) - 1)%nat with (length ds) by lia. reflexivity.
  - replace ((16 * valOf ds + d) / 16) with (valOf ds)
      by (Z.div_mod_to_equations; lia).
    replace ((16 * valOf ds + d) mod 16) with d
      by (Z.div_mod_to_equations; lia).
    rewrite padStart0_snoc, map_app. cbn [map]. f_equal.
    apply IH; [assumption | | lia].
    intros ->. unfold valOf in Hge. cbn [fold_left] in Hge. lia.
Qed.

Definition validLedgerId (s : jsstring) : Prop :=
  length s = 8%nat /\ forallb isLowerHex s = true.

Lemma ledgerId_roundtrip (s : jsstring) :
  validLedgerId s ->
  exists n, parseInt16 s = Some n /\ 0 <= n < two32 /\
            padStart0 8 (toString16 n) = s.
Proof.
  intros [Hlen Hhex]. destruct (lowerHex_digits _ Hhex) as [ds [Hds ->]].
  rewrite length_map in Hlen.
  assert (Hne : ds <> []) by (intros ->; discriminate).
  exists (valOf ds). split; [apply parseInt16_digits; assumption|].
  split.
  - pose proof (valOf_bound Hds) as B. rewrite Hlen in B. unfold two32.
    change (16 ^ Z.of_nat 8) with 4294967296 in B. lia.
  - rewrite <- Hlen. unfold toString16. apply hexDigits_digits; [assumption..|lia].
Qed.

(** An event id as the service makes them: a 64-bit timestamp, a 32-bit
    checksum, and a ledger id of eight lower-case hexadecimal digits. *)
Definition validEventId (e : EventID) : Prop :=
  - 9223372036854775808 <= timestamp e < 9223372036854775808 /\
  0 <= checksum e < two32 /\
  validLedgerId (ledgerId e).

Lemma toEventIdBytes_fromEventIdBytes (e : EventID) :
  validEventId e ->
  exists buf,
    toEventIdBytes e = Ok buf /\ buf <> [] /\ fromEventIdBytes buf = Ok e.
Proof.
  intros [Hts [Hc Hl]].
  destruct (@ledgerId_roundtrip _ Hl) as [n [Hp [Hn Hs]]].
  exists (longToBuffer (timestamp e) ++ bytesBE (checksum e) ++ bytesBE n).
  split; [|split].
  - unfold toEventIdBytes, eventIdPartsToBuffer, writeUInt32BE. rewrite Hp.
    destruct Hc as [Hc1 Hc2]. destruct Hn as [Hn1 Hn2].
    apply Z.leb_le in Hc1, Hn1. apply Z.ltb_lt in Hc2, Hn2.
    rewrite Hc1, Hc2, Hn1, Hn2. reflexivity.
  - unfold longToBuffer, bytesBE. discriminate.
  - rewrite (@fromEventIdBytes_parts _ _ _ Hts Hc Hn), Hs.
    destruct e; reflexivity.
Qed.

End EventIdFacts.

(* ===================================================================== *)
(** * Sorting the entries of an object                                    *)
(* ===================================================================== *)

Section Entries.
Variable V : Type.

(** The entries that [ks] select from [o], in the order of [ks]. *)
Definition pickEntries (o : omap V) (ks : list jsstring) : omap V :=
  flat_map (fun k => match oget k o with Some v => [(k, v)] | None => [] end) ks.

Fixpoint insertEntry (kv : jsstring * V) (l : omap V) : omap V :=
  match l with
  | [] => [kv]
  | x :: r => if str_leb (fst kv) (fst x) then kv :: l else x :: insertEntry kv r
  end.

(** The entries of an object in the lexicographic order of their keys. *)
Definition sortEntries (o : omap V) : omap V := fold_right insertEntry [] o.

Lemma okeys_insertEntry (kv : jsstring * V) (l : omap V) :
  okeys (insertEntry kv l) = insertKey (fst kv) (okeys l).
Proof.
  induction l as [|x r IH]; simpl; [reflexivity|].
  destruct (str_leb (fst kv) (fst x)); simpl; [reflexivity|].
  f_equal. apply IH.
Qed.

Lemma okeys_sortEntries (o : omap V) : okeys (sortEntries o) = sortKeys (okeys o).
Proof.
  induction o as [|kv o IH]; simpl; [reflexivity|].
  rewrite okeys_insertEntry. f_equal. apply IH.
Qed.

Lemma insertEntry_Permutation (kv : jsstring * V) (l : omap V) :
  Permutation (kv :: l) (insertEntry kv l).
Proof.
  induction l as [|x r IH]; simpl; [reflexivity|].
  destruct (str_leb (fst kv) (fst x)); [reflexivity|].
  rewrite perm_swap. constructor. assumption.
Qed.

Lemma sortEntries_Permutation (o : omap V) : Permutation o (sortEntries o).
Proof.
  induction o as [|kv o IH]; simpl; [constructor|].
  rewrite <- insertEntry_Permutation. constructor. assumption.
Qed.

Lemma oset_fresh (k : jsstring) (v : V) (m : omap V) :
  ~ In k (okeys m) -> oset k v m = m ++ [(k, v)].
Proof.
  induction m as [|[k' v'] r IH]; simpl; [reflexivity|].
  intros H. destruct (str_eqb k k') eqn:E.
  - apply str_eqb_eq in E. subst. elim H. auto.
  - f_equal. apply IH. intros Hin. apply H. auto.
Qed.

Lemma okeys_pickEntries_incl (o : omap V) (ks : list jsstring) (k : jsstring) :
  In k (okeys (pickEntries o ks)) -> In k ks.
Proof.
  induction ks as [|k0 ks IH]; simpl; [tauto|].
  unfold okeys. rewrite map_app, in_app_iff.
  intros [H | H]; [|right; apply IH; exact H].
  destruct (oget k0 o); simpl in H; [|tauto].
  destruct H as [H | []]. auto.
Qed.

(** On distinct keys, assigning the picked entries one by one to a new
    object lists them in the order of the keys. *)
Lemma fold_oset_pickEntries (o : omap V) (ks : list jsstring) (acc : omap V) :
  NoDup ks -> (forall k, In k ks -> ~ In k (okeys acc)) ->
  fold_left (fun newObject key =>
               match oget key o with
               | Some v => oset key v newObject
               | None => newObject
               end) ks acc
  = acc ++ pickEntries o ks.
Proof.
  revert acc. induction ks as [|k ks IH]; intros acc Hnd Hacc; simpl.
  - rewrite app_nil_r. reflexivity.
  - inversion Hnd as [|? ? Hk Hnd']; subst.
    destruct (oget k o) as [v|] eqn:E.
    + rewrite oset_fresh by (apply Hacc; left; reflexivity).
      rewrite IH; [rewrite <- app_assoc; reflexivity | assumption |].
      intros k' Hin. unfold okeys. rewrite map_app, in_app_iff. simpl.
      intros [H | [H | []]].
      * apply (Hacc k'); [right; assumption | exact H].
      * subst. contradiction.
    + apply IH; [assumption|]. intros k' Hin. apply Hacc. right. assumption.
Qed.

Lemma pickEntries_own (o p : omap V) :
  (forall k v, In (k, v) p -> oget k o = Some v) ->
  pickEntries o (okeys p) = p.
Proof.
  induction p as [|[k v] p IH]; intros H; simpl; [reflexivity|].
  rewrite (H k v) by (left; reflexivity). simpl. f_equal.
  apply IH. intros k' v' Hin. apply H. right. assumption.
Qed.

Lemma sortEntries_pick (o : omap V) :
  NoDup (okeys o) -> sortEntries o = pickEntries o (sortKeys (okeys o)).
Proof.
  intros Hnd. rewrite <- okeys_sortEntries. symmetry. apply pickEntries_own.
  intros k v Hin. apply In_oget; [assumption|].
  apply Permutation_in with (l := sortEntries o); [|assumption].
  symmetry. apply sortEntries_Permutation.
Qed.

Lemma oget_Permutation (o o' : omap V) (k : jsstring) :
  NoDup (okeys o) -> Permutation o o' -> oget k o = oget k o'.
Proof.
  intros Hnd Hp.
  assert (Hnd' : NoDup (okeys o')).
  { apply Permutation_NoDup with (l := okeys o); [|assumption].
    unfold okeys. apply Permutation_map. assumption. }
  destruct (oget k o) as [v|] eqn:E.
  - symmetry. apply In_oget; [assumption|].
    apply Permutation_in with (l := o); [assumption|].
    apply oget_Some_In. assumption.
  - symmetry. apply oget_None_notin. apply oget_None_notin in E.
    intros Hin. apply E.
    apply Permutation_in with (l := okeys o'); [|assumption].
    unfold okeys. apply Permutation_map. symmetry. assumption.
Qed.

(** Two objects with the same entries in different orders sort to the
    same list. *)
Lemma sortEntries_Permutation_eq (o o' : omap V) :
  NoDup (okeys o) -> Permutation o o' -> sortEntries o = sortEntries o'.
Proof.
  intros Hnd Hp.
  assert (Hk : Permutation (okeys o) (okeys o')).
  { unfold okeys. apply Permutation_map. assumption. }
  assert (Hnd' : NoDup (okeys o')) by (apply (Permutation_NoDup Hk Hnd)).
  rewrite !sortEntries_pick by assumption.
  rewrite <- (sortKeys_Permutation_eq Hk).
  unfold pickEntries. apply flat_map_ext. intros k.
  rewrite (oget_Permutation k Hnd Hp). reflexivity.
Qed.

End Entries.

Definition mapValues {V W} (f : V -> W) (o : omap V) : omap W :=
  map (fun kv => (fst kv, f (snd kv))) o.

Lemma okeys_mapValues {V W} (f : V -> W) (o : omap V) :
  okeys (mapValues f o) = okeys o.
Proof.
  unfold okeys, mapValues. rewrite map_map. apply map_ext. reflexivity.
Qed.

(** [sortObject] lists the entries in the order of their keys. *)
Lemma sortObjectWith_sortEntries {V} (f : V -> V) (o : omap V) :
  NoDup (okeys o) -> sortObjectWith f o = sortEntries (mapValues f o).
Proof.
  intros Hnd. unfold sortObjectWith. fold (mapValues f o).
  rewrite fold_oset_pickEntries.
  - simpl. rewrite sortEntries_pick by (rewrite okeys_mapValues; assumption).
    rewrite okeys_mapValues. reflexivity.
  - apply Permutation_NoDup with (l := okeys o); [apply sortKeys_Permutation | assumption].
  - intros k _ [].
Qed.

(* ===================================================================== *)
(** * JSON values: induction, distinct keys, canonical form               *)
(* ===================================================================== *)

Lemma jsval_nested_ind (P : jsval -> Prop) :
  P JNull -> (forall b, P (JBool b)) -> (forall n, P (JNum n)) ->
  (forall s, P (JStr s)) ->
  (forall xs, Forall P xs -> P (JArr xs)) ->
  (forall kvs, Forall (fun kv => P (snd kv)) kvs -> P (JObj kvs)) ->
  forall v, P v.
Proof.
  intros Hnull Hbool Hnum Hstr Harr Hobj.
  fix IH 1. intros [ | b | n | s | xs | kvs].
  - exact Hnull.
  - apply Hbool.
  - apply Hnum.
  - apply Hstr.
  - apply Harr. induction xs as [|x xs IHxs]; constructor; [apply IH | exact IHxs].
  - apply Hobj. induction kvs as [|[k x] kvs IHkvs]; constructor;
      [apply IH | exact IHkvs].
Qed.

(** Every object in the value has distinct keys. *)
Inductive wfValue : jsval -> Prop :=
| wf_null : wfValue JNull
| wf_bool b : wfValue (JBool b)
| wf_num n : wfValue (JNum n)
| wf_str s : wfValue (JStr s)
| wf_arr xs : Forall wfValue xs -> wfValue (JArr xs)
| wf_obj kvs :
    NoDup (okeys kvs) -> Forall (fun kv => wfValue (snd kv)) kvs ->
    wfValue (JObj kvs).

Definition wfObject (o : UnknownObject) : Prop := wfValue (JObj o).

(** The canonical form of a value: the keys of every object in
    lexicographic order. *)
Fixpoint canonValue (v : jsval) : jsval :=
  match v with
  | JArr xs => JArr (map canonValue xs)
  | JObj kvs => JObj (sortEntries (map (fun kv => (fst kv, canonValue (snd kv))) kvs))
  | _ => v
  end.

Definition canonObject (o : UnknownObject) : UnknownObject :=
  sortEntries (mapValues canonValue o).

Lemma mapValues_id {V} (o : omap V) : mapValues (fun x => x) o = o.
Proof.
  unfold mapValues. rewrite <- (map_id o) at 2. apply map_ext. intros [k v]; reflexivity.
Qed.

Lemma mapValues_ext_in {V W} (f g : V -> W) (o : omap V) :
  Forall (fun kv => f (snd kv) = g (snd kv)) o -> mapValues f o = mapValues g o.
Proof.
  intros H. unfold mapValues. apply map_ext_in. intros kv Hin.
  rewrite Forall_forall in H. rewrite (H kv Hin). reflexivity.
Qed.

Lemma sortUnknown_canonValue (v : jsval) : wfValue v -> sortUnknown v = canonValue v.
Proof.
  induction v as [ | b | n | s | xs IH | kvs IH] using jsval_nested_ind;
    intros Hwf; try reflexivity.
  - inversion Hwf as [ | | | | ? Hxs | ]; subst. simpl. f_equal.
    apply map_ext_in. intros x Hin. rewrite Forall_forall in IH, Hxs. auto.
  - inversion Hwf as [ | | | | | ? Hnd Hkvs]; subst. simpl. f_equal.
    fold (mapValues sortUnknown kvs). fold (mapValues canonValue kvs).
    rewrite sortObjectWith_sortEntries by (rewrite okeys_mapValues; assumption).
    rewrite mapValues_id. f_equal. apply mapValues_ext_in.
    rewrite Forall_forall in *. intros kv Hin. auto.
Qed.

Lemma sortObject_canonObject (o : UnknownObject) :
  wfObject o -> sortObject o = canonObject o.
Proof.
  intros Hwf. unfold sortObject, canonObject.
  inversion Hwf as [ | | | | | ? Hnd Hkvs]; subst.
  rewrite sortObjectWith_sortEntries by assumption. f_equal.
  apply mapValues_ext_in. rewrite Forall_forall in *. intros kv Hin.
  apply sortUnknown_canonValue. auto.
Qed.

(** Two values that differ only in the order of the keys of their
    objects. *)
Inductive reordered : jsval -> jsval -> Prop :=
| ro_null : reordered JNull JNull
| ro_bool b : reordered (JBool b) (JBool b)
| ro_num n : reordered (JNum n) (JNum n)
| ro_str s : reordered (JStr s) (JStr s)
| ro_arr xs ys : Forall2 reordered xs ys -> reordered (JArr xs) (JArr ys)
| ro_obj kvs mid kvs' :
    Permutation kvs mid ->
    Forall2 (fun kv kv' => fst kv = fst kv' /\ reordered (snd kv) (snd kv')) mid kvs' ->
    reordered (JObj kvs) (JObj kvs').

Lemma mapValues_Forall2 {V W} (f : V -> W) (o o' : omap V) :
  Forall2 (fun kv kv' => fst kv = fst kv' /\ f (snd kv) = f (snd kv')) o o' ->
  mapValues f o = mapValues f o'.
Proof.
  induction 1 as [|[k v] [k' v'] o o' [Hk Hv] _ IH]; simpl; [reflexivity|].
  simpl in *. subst. rewrite Hv. f_equal. apply IH.
Qed.

Lemma canonValue_reordered (v : jsval) :
  wfValue v -> forall v', reordered v v' -> canonValue v = canonValue v'.
Proof.
  induction v as [ | b | n | s | xs IH | kvs IH] using jsval_nested_ind;
    intros Hwf v' Hr; inversion Hr; subst; try reflexivity.
  - inversion Hwf as [ | | | | ? Hxs | ]; subst. simpl. f_equal.
    match goal with H : Forall2 reordered xs _ |- _ => rename H into H2 end.
    clear Hr Hwf. induction H2 as [|x y xs ys Hxy _ IH2]; [reflexivity|].
    inversion IH as [|? ? IHx IHxs]; subst.
    inversion Hxs as [|? ? Hx Hxs']; subst.
    simpl. f_equal; [apply IHx; assumption | apply IH2; assumption].
  - inversion Hwf as [ | | | | | ? Hnd Hkvs]; subst. simpl. f_equal.
    match goal with
    | Hp : Permutation kvs ?mid, H2 : Forall2 _ ?mid _ |- _ =>
        rename Hp into Hperm; rename H2 into Hpt; rename mid into md
    end.
    fold (mapValues canonValue kvs). fold (mapValues canonValue kvs').
    transitivity (sortEntries (mapValues canonValue md)).
    + apply sortEntries_Permutation_eq.
      * rewrite okeys_mapValues. assumption.
      * unfold mapValues. apply Permutation_map. assumption.
    + f_equal. apply mapValues_Forall2.
      assert (IHmd : Forall (fun kv => wfValue (snd kv) /\
                        forall v', reordered (snd kv) v' ->
                                   canonValue (snd kv) = canonValue v') md).
      { rewrite Forall_forall in *. intros kv Hin.
        assert (Hin' : In kv kvs).
        { apply Permutation_in with (l := md); [symmetry; assumption | assumption]. }
        split; [apply Hkvs; assumption|]. intros v' Hv'. apply IH; auto. }
      clear - Hpt IHmd. induction Hpt as [|kv kv' md kvs' [Hk Hv] _ IH2];
        [constructor|].
      inversion IHmd as [|? ? [Hwf Hc] IHmd']; subst.
      constructor; [split; [assumption | apply Hc; assumption] | apply IH2; assumption].
Qed.

(* ===================================================================== *)
(** * The selector codec (selector-utils.ts, api/api-utils.ts)            *)
(* ===================================================================== *)

Module SelectorUtils.
Import EventId.

(** The compressed forms. A key that [pickBy] left out is [None]. *)
Record CompressedJsonpath := {
  q : option jsstring;
  v : option UnknownObject
}.

Definition CompressedData := omap CompressedJsonpath.

Record Compressed := {
  e : option EntitiesRecord;
  m : option CompressedJsonpath;
  d : option CompressedData;
  a : option Buffer;
  l : option Z
}.

(** lodash [isEmpty] on a string, an array, a buffer, or the entries of
    an object. *)
Definition isEmpty {A} (value : list A) : bool :=
  match value with [] => true | _ :: _ => false end.

(** [includeInCompressed], at each type of value it is given:
    [Number.isInteger(value) ? value > 0 : !isEmpty(value)]. *)
Definition includeNumber (value : Z) : bool := 0 <? value.

Definition includeValue {A} (value : list A) : bool := negb (isEmpty value).

(** A compressed jsonpath is an object of the keys [q] and [v] that were
    kept: it is empty when it has neither. *)
Definition includeJsonpath (value : CompressedJsonpath) : bool :=
  isSome (q value) || isSome (v value).

(** [pickBy] on one key: [undefined] is empty, and left out. *)
Definition pickBy {A} (include : A -> bool) (value : option A) : option A :=
  match value with
  | Some x => if include x then Some x else None
  | None => None
  end.

Definition jsonpathToCompressedJsonpath (jsonpath : JsonpathFilter)
  : CompressedJsonpath :=
  let sorted := option_map sortObject (vars jsonpath) in
  {| q := pickBy includeValue (Some (query jsonpath));
     v := pickBy includeValue sorted |}.

(** [q] is a string where [compressedJsonpathSpec] has passed. *)
Definition compressedJsonpathToJsonpath (compressed : CompressedJsonpath)
  : JsonpathFilter :=
  {| query := match q compressed with Some query => query | None => [] end;
     vars := v compressed |}.

Definition compressedDataToEvents (compressed : CompressedData) : DataFilter :=
  fold_left
    (fun events entry =>
       oset (fst entry) (compressedJsonpathToJsonpath (snd entry)) events)
    compressed [].

(** The values of [compressed] are frozen, so that [sortObject] leaves
    them as they are. *)
Definition eventsToCompressedData (events : DataFilter) : CompressedData :=
  let compressed :=
    fold_left
      (fun compressed entry =>
         oset (fst entry) (jsonpathToCompressedJsonpath (snd entry)) compressed)
      events [] in
  sortObjectWith (fun frozen => frozen) compressed.

(** [after && toEventIdBytes(after)] and [a && fromEventIdBytes(a)]. *)
Definition andThen {A B} (value : option A) (f : A -> result B)
  : result (option B) :=
  match value with
  | None => Ok None
  | Some x => match f x with Ok y => Ok (Some y) | Throw err => Throw err end
  end.

(** The specs of the [specified] library, on values of the right types:
    what is left to check is the constraints. *)
Definition optional {A} (spec : A -> bool) (value : option A) : bool :=
  match value with Some x => spec x | None => true end.

Definition mapOf {V} (spec : V -> bool) (value : omap V) : bool :=
  forallb (fun entry => spec (snd entry)) value.

Definition nonEmptyStringSpec (value : jsstring) : bool := negb (isEmpty value).

Definition nonEmptyStringArraySpec (value : list jsstring) : bool :=
  forallb nonEmptyStringSpec value && (1 <=? length value)%nat.

Definition limitSpec : option Z -> bool := optional (fun n => 0 <? n).

Definition compressedSelectorSpec (compressed : Compressed) : bool :=
  limitSpec (l compressed).

Definition compressedJsonpathSpec (compressed : CompressedJsonpath) : bool :=
  isSome (q compressed).

Definition compressedFilterSpec (compressed : Compressed) : bool :=
  optional (mapOf nonEmptyStringArraySpec) (e compressed)
  && optional compressedJsonpathSpec (m compressed)
  && optional (mapOf compressedJsonpathSpec) (d compressed)
  && limitSpec (l compressed).

Section Codec.

(** The packer of [msgpackr] followed by base64url, and back;
    [unpack] is [None] where the library throws. [errMessage] is the
    text of the [specified] library for a value that fails its spec. *)
Variable URIPart : Type.
Variable pack : Compressed -> URIPart.
Variable unpack : URIPart -> option Compressed.
Variable errMessage : Compressed -> jsstring.

Definition toURIPart (params : Compressed) : URIPart := pack params.

Definition fromURIPart (param : URIPart) : result Compressed :=
  match unpack param with
  | Some compressed => Ok compressed
  | None => Throw (BadRequest (u "invalid URI part"))
  end.

Definition verifyCompressed (spec : Compressed -> bool) (compressed : Compressed)
  : result unit :=
  if spec compressed then Ok tt
  else Throw (BadRequest (errMessage compressed)).

Definition encodeFilterSelector (selector : Selector) : result URIPart :=
  let e := option_map sortEntities (entities selector) in
  let m := option_map jsonpathToCompressedJsonpath (meta selector) in
  let d := option_map eventsToCompressedData (events selector) in
  match andThen (after selector) toEventIdBytes with
  | Throw err => Throw err
  | Ok a =>
      Ok (toURIPart {| e := pickBy includeValue e;
                       m := pickBy includeJsonpath m;
                       d := pickBy includeValue d;
                       a := pickBy includeValue a;
                       l := pickBy includeNumber (limit selector) |})
  end.

Definition encodeSelector (selector : Selector) : result URIPart :=
  match andThen (after selector) toEventIdBytes with
  | Throw err => Throw err
  | Ok a =>
      Ok (toURIPart {| e := None; m := None; d := None;
                       a := pickBy includeValue a;
                       l := pickBy includeNumber (limit selector) |})
  end.

Definition encodeUnknownSelector (selector : Selector) : result URIPart :=
  if isFilterSelector selector
  then encodeFilterSelector selector
  else encodeSelector selector.

Definition compressedSelectorToSelector (compressed : Compressed)
  : result Selector :=
  match verifyCompressed compressedSelectorSpec compressed with
  | Throw err => Throw err
  | Ok _ =>
      match andThen (a compressed) fromEventIdBytes with
      | Throw err => Throw err
      | Ok after =>
          Ok {| entities := None; meta := None; events := None;
                after := after; limit := l compressed |}
      end
  end.

Definition compressedFilterToSelector (compressed : Compressed)
  : result Selector :=
  match verifyCompressed compressedFilterSpec compressed with
  | Throw err => Throw err
  | Ok _ =>
      match andThen (a compressed) fromEventIdBytes with
      | Throw err => Throw err
      | Ok after =>
          Ok {| entities := e compressed;
                meta := option_map compressedJsonpathToJsonpath (m compressed);
                events := option_map compressedDataToEvents (d compressed);
                after := after;
                limit := l compressed |}
      end
  end.

Definition decodeSelector (encodedSelector : URIPart) : result Selector :=
  match fromURIPart encodedSelector with
  | Throw err => Throw err
  | Ok compressed =>
      if isSome (e compressed) || isSome (m compressed) || isSome (d compressed)
      then compressedFilterToSelector compressed
      else compressedSelectorToSelector compressed
  end.

End Codec.

(** ** The canonical form of a selector, in the words of the specification

    The keys of [entities], of [meta.vars] and of [events] (and of the
    [vars] of each of its filters) are sorted, those of [vars]
    recursively; empty containers and a limit of zero are dropped. *)

Definition dropEmpty {A} (container : option (list A)) : option (list A) :=
  match container with
  | Some [] => None
  | _ => container
  end.

Definition canonFilter (f : JsonpathFilter) : JsonpathFilter :=
  {| query := query f;
     vars := dropEmpty (option_map canonObject (vars f)) |}.

Definition canonicalize (s : Selector) : Selector :=
  {| entities := dropEmpty (option_map (@sortEntries _) (entities s));
     meta := option_map canonFilter (meta s);
     events :=
       dropEmpty (option_map (fun ev => sortEntries (mapValues canonFilter ev))
                             (events s));
     after := after s;
     limit := match limit s with Some 0 => None | other => other end |}.

(** ** The selectors that the decoder accepts back *)

Definition optValid {A} (P : A -> Prop) (value : option A) : Prop :=
  match value with Some x => P x | None => True end.

(** The keys of an entity: at least one, none of them the empty string. *)
Definition validKeys (keys : list jsstring) : Prop :=
  keys <> [] /\ Forall (fun key => key <> []) keys.

Definition validEntities (o : EntitiesRecord) : Prop :=
  NoDup (okeys o) /\ Forall (fun entry => validKeys (snd entry)) o.

Definition validFilter (f : JsonpathFilter) : Prop :=
  query f <> [] /\ optValid wfObject (vars f).

Definition validEvents (ev : DataFilter) : Prop :=
  NoDup (okeys ev) /\ Forall (fun entry => validFilter (snd entry)) ev.

Definition validSelector (s : Selector) : Prop :=
  optValid validEntities (entities s) /\
  optValid validFilter (meta s) /\
  optValid validEvents (events s) /\
  optValid EventIdFacts.validEventId (after s) /\
  optValid (fun n => 0 <= n) (limit s).

(** ** Selectors that differ only in the order of their keys *)

Definition optRel {A} (R : A -> A -> Prop) (x y : option A) : Prop :=
  match x, y with
  | Some a, Some b => R a b
  | None, None => True
  | _, _ => False
  end.

Definition reorderedFilter (f f' : JsonpathFilter) : Prop :=
  query f = query f' /\
  optRel (fun o o' => reordered (JObj o) (JObj o')) (vars f) (vars f').

Definition reorderedEvents (ev ev' : DataFilter) : Prop :=
  exists mid,
    Permutation ev mid /\
    Forall2 (fun entry entry' =>
               fst entry = fst entry' /\ reorderedFilter (snd entry) (snd entry'))
            mid ev'.

Definition reorderedSelector (s s' : Selector) : Prop :=
  optRel (@Permutation _) (entities s) (entities s') /\
  optRel reorderedFilter (meta s) (meta s') /\
  optRel reorderedEvents (events s) (events s') /\
  after s = after s' /\
  limit s = limit s'.

(** ** Facts on the pieces of the codec *)

Lemma pickBy_includeValue {A} (value : option (list A)) :
  pickBy includeValue value = dropEmpty value.
Proof. destruct value as [[|x r]|]; reflexivity. Qed.

Lemma forallb_Permutation {A} (f : A -> bool) (xs ys : list A) :
  Permutation xs ys -> forallb f xs = forallb f ys.
Proof.
  induction 1 as [ | x xs ys _ IH | x y xs | xs ys zs _ IH1 _ IH2]; simpl.
  - reflexivity.
  - rewrite IH; reflexivity.
  - destruct (f x), (f y); reflexivity.
  - congruence.
Qed.

Lemma optional_dropEmpty {A} (spec : list A -> bool) (x : list A) :
  spec x = true -> optional spec (dropEmpty (Some x)) = true.
Proof. intros H. destruct x; [reflexivity | exact H]. Qed.

Lemma limitSpec_pickBy (limit : option Z) :
  limitSpec (pickBy includeNumber limit) = true.
Proof.
  destruct limit as [n|]; [|reflexivity]. unfold pickBy, includeNumber.
  destruct (0 <? n) eqn:E; [exact E | reflexivity].
Qed.

Lemma pickBy_includeNumber (limit : option Z) :
  optValid (fun n => 0 <= n) limit ->
  pickBy includeNumber limit = match limit with Some 0 => None | other => other end.
Proof.
  destruct limit as [n|]; [|reflexivity]. simpl. intros Hn.
  unfold includeNumber. destruct n as [|p|p]; [reflexivity | reflexivity | lia].
Qed.

Lemma sortEntities_sortEntries (o : EntitiesRecord) :
  NoDup (okeys o) -> sortEntities o = sortEntries o.
Proof.
  intros Hnd. unfold sortEntities.
  rewrite sortObjectWith_sortEntries by assumption.
  rewrite mapValues_id. reflexivity.
Qed.

Lemma fold_oset_mapValues {V W} (f : V -> W) (o : omap V) (acc : omap W) :
  NoDup (okeys acc ++ okeys o) ->
  fold_left (fun acc entry => oset (fst entry) (f (snd entry)) acc) o acc
  = acc ++ mapValues f o.
Proof.
  revert acc. induction o as [|[k x] o IH]; intros acc Hnd; simpl.
  - rewrite app_nil_r. reflexivity.
  - simpl in Hnd. rewrite oset_fresh.
    + rewrite IH.
      * rewrite <- app_assoc. reflexivity.
      * unfold okeys in *. rewrite map_app. simpl. rewrite <- app_assoc. exact Hnd.
    + apply NoDup_remove_2 in Hnd. intros Hin. apply Hnd.
      apply in_or_app. left. exact Hin.
Qed.

Lemma insertEntry_mapValues {V W} (f : V -> W) (entry : jsstring * V) (o : omap V) :
  mapValues f (insertEntry entry o)
  = insertEntry (fst entry, f (snd entry)) (mapValues f o).
Proof.
  induction o as [|x r IH]; simpl; [reflexivity|].
  destruct (str_leb (fst entry) (fst x)); simpl; [reflexivity|].
  f_equal. apply IH.
Qed.

Lemma sortEntries_mapValues {V W} (f : V -> W) (o : omap V) :
  sortEntries (mapValues f o) = mapValues f (sortEntries o).
Proof.
  induction o as [|x r IH]; simpl; [reflexivity|].
  rewrite insertEntry_mapValues. f_equal. apply IH.
Qed.

Lemma mapValues_mapValues {U V W} (f : U -> V) (g : V -> W) (o : omap U) :
  mapValues g (mapValues f o) = mapValues (fun x => g (f x)) o.
Proof. unfold mapValues. rewrite map_map. reflexivity. Qed.

Lemma eventsToCompressedData_sorted (ev : DataFilter) :
  NoDup (okeys ev) ->
  eventsToCompressedData ev = sortEntries (mapValues jsonpathToCompressedJsonpath ev).
Proof.
  intros Hnd. unfold eventsToCompressedData.
  rewrite fold_oset_mapValues by exact Hnd. simpl.
  rewrite sortObjectWith_sortEntries by (rewrite okeys_mapValues; exact Hnd).
  rewrite mapValues_id. reflexivity.
Qed.

Lemma compressedDataToEvents_mapValues (compressed : CompressedData) :
  NoDup (okeys compressed) ->
  compressedDataToEvents compressed
  = mapValues compressedJsonpathToJsonpath compressed.
Proof.
  intros Hnd. unfold compressedDataToEvents.
  rewrite fold_oset_mapValues by exact Hnd. reflexivity.
Qed.

Lemma sortObject_dropEmpty (o : UnknownObject) :
  wfObject o ->
  pickBy includeValue (Some (sortObject o)) = dropEmpty (Some (canonObject o)).
Proof.
  intros Hwf. rewrite pickBy_includeValue, sortObject_canonObject by exact Hwf.
  reflexivity.
Qed.

Lemma jsonpath_round_trip (f : JsonpathFilter) :
  validFilter f ->
  compressedJsonpathToJsonpath (jsonpathToCompressedJsonpath f) = canonFilter f.
Proof.
  intros [Hq Hv]. unfold compressedJsonpathToJsonpath, jsonpathToCompressedJsonpath,
    canonFilter. simpl.
  destruct (query f) as [|c r] eqn:Eq; [congruence|]. simpl. f_equal.
  destruct (vars f) as [o|]; [|reflexivity]. simpl in *.
  apply sortObject_dropEmpty. exact Hv.
Qed.

Lemma jsonpath_has_query (f : JsonpathFilter) :
  validFilter f -> compressedJsonpathSpec (jsonpathToCompressedJsonpath f) = true.
Proof.
  intros [Hq _]. unfold compressedJsonpathSpec, jsonpathToCompressedJsonpath. simpl.
  destruct (query f); [congruence | reflexivity].
Qed.

Lemma jsonpath_included (f : JsonpathFilter) :
  validFilter f -> includeJsonpath (jsonpathToCompressedJsonpath f) = true.
Proof.
  intros Hf. unfold includeJsonpath.
  pose proof (jsonpath_has_query Hf) as H. unfold compressedJsonpathSpec in H.
  rewrite H. reflexivity.
Qed.

Lemma after_round_trip (after : option EventID) :
  optValid EventIdFacts.validEventId after ->
  exists bytes,
    andThen after toEventIdBytes = Ok bytes /\
    pickBy includeValue bytes = bytes /\
    andThen bytes fromEventIdBytes = Ok after.
Proof.
  destruct after as [id|]; simpl.
  - intros Hid.
    destruct (EventIdFacts.toEventIdBytes_fromEventIdBytes Hid) as [buf [He [Hn Hd]]].
    exists (Some buf). rewrite He. simpl. rewrite Hd.
    destruct buf; [congruence|]. auto.
  - intros _. exists None. auto.
Qed.

Lemma entities_verified (o : EntitiesRecord) :
  validEntities o -> mapOf nonEmptyStringArraySpec (sortEntries o) = true.
Proof.
  intros [_ Hall]. unfold mapOf.
  rewrite (forallb_Permutation _ (Permutation_sym (sortEntries_Permutation o))).
  apply forallb_forall. intros entry Hin. rewrite Forall_forall in Hall.
  destruct (Hall entry Hin) as [Hne Hkeys].
  unfold nonEmptyStringArraySpec. apply andb_true_iff. split.
  - apply forallb_forall. intros key Hk. rewrite Forall_forall in Hkeys.
    specialize (Hkeys key Hk). destruct key; [congruence | reflexivity].
  - destruct (snd entry); [congruence | reflexivity].
Qed.

Lemma events_verified (ev : DataFilter) :
  validEvents ev ->
  mapOf compressedJsonpathSpec
        (sortEntries (mapValues jsonpathToCompressedJsonpath ev)) = true.
Proof.
  intros [_ Hall]. unfold mapOf.
  rewrite (forallb_Permutation _ (Permutation_sym (sortEntries_Permutation _))).
  apply forallb_forall. intros entry Hin. unfold mapValues in Hin.
  apply in_map_iff in Hin. destruct Hin as [entry0 [He Hin]]. subst entry. simpl.
  rewrite Forall_forall in Hall. apply jsonpath_has_query. apply Hall. exact Hin.
Qed.

Lemma compressedDataToEvents_dropEmpty (compressed : CompressedData) :
  NoDup (okeys compressed) ->
  option_map compressedDataToEvents (dropEmpty (Some compressed))
  = dropEmpty (Some (mapValues compressedJsonpathToJsonpath compressed)).
Proof.
  intros Hnd. destruct compressed as [|x r]; [reflexivity|].
  simpl dropEmpty. simpl option_map.
  rewrite compressedDataToEvents_mapValues by exact Hnd. reflexivity.
Qed.

Lemma events_round_trip (ev : DataFilter) :
  validEvents ev ->
  option_map compressedDataToEvents
    (dropEmpty (Some (sortEntries (mapValues jsonpathToCompressedJsonpath ev))))
  = dropEmpty (Some (sortEntries (mapValues canonFilter ev))).
Proof.
  intros [Hnd Hall].
  rewrite compressedDataToEvents_dropEmpty.
  - rewrite <- sortEntries_mapValues, mapValues_mapValues. do 3 f_equal.
    apply mapValues_ext_in. rewrite Forall_forall in *. intros entry Hin.
    apply jsonpath_round_trip. apply Hall. exact Hin.
  - rewrite okeys_sortEntries, okeys_mapValues.
    apply (Permutation_NoDup (sortKeys_Permutation (okeys ev))). exact Hnd.
Qed.

Lemma canonObject_reordered (o o' : UnknownObject) :
  wfObject o -> reordered (JObj o) (JObj o') -> canonObject o = canonObject o'.
Proof.
  intros Hwf Hr. pose proof (@canonValue_reordered (JObj o) Hwf (JObj o') Hr) as H.
  simpl in H. injection H as H. exact H.
Qed.

Lemma reorderedFilter_compressed (f f' : JsonpathFilter) :
  validFilter f -> validFilter f' -> reorderedFilter f f' ->
  jsonpathToCompressedJsonpath f' = jsonpathToCompressedJsonpath f.
Proof.
  intros [_ Hv] [_ Hv'] [Rq Rv]. unfold jsonpathToCompressedJsonpath.
  rewrite Rq. f_equal.
  destruct (vars f) as [o|], (vars f') as [o'|]; simpl in *;
    try contradiction; [|reflexivity].
  rewrite (@sortObject_canonObject o Hv), (@sortObject_canonObject o' Hv').
  rewrite (@canonObject_reordered o o' Hv Rv). reflexivity.
Qed.

Lemma reorderedEvents_compressed (ev ev' : DataFilter) :
  validEvents ev -> validEvents ev' -> reorderedEvents ev ev' ->
  eventsToCompressedData ev' = eventsToCompressedData ev.
Proof.
  intros [Hnd Hall] [Hnd' Hall'] [mid [Hperm Hpt]].
  rewrite !eventsToCompressedData_sorted by assumption.
  transitivity (sortEntries (mapValues jsonpathToCompressedJsonpath mid)).
  - f_equal. symmetry. apply mapValues_Forall2.
    assert (Hmid : Forall (fun entry => validFilter (snd entry)) mid).
    { apply (Permutation_Forall Hperm). exact Hall. }
    clear - Hpt Hmid Hall'.
    induction Hpt as [|x y mid ev' [Hk Hf] _ IH]; [constructor|].
    inversion Hmid as [|? ? Hx Hmid']; subst.
    inversion Hall' as [|? ? Hy Hev']; subst.
    constructor; [|apply IH; assumption].
    split; [exact Hk|]. symmetry. apply reorderedFilter_compressed; assumption.
  - symmetry. apply sortEntries_Permutation_eq.
    + rewrite okeys_mapValues. exact Hnd.
    + unfold mapValues. apply Permutation_map. exact Hperm.
Qed.

Section RoundTrip.

Variable URIPart : Type.
Variable pack : Compressed -> URIPart.
Variable unpack : URIPart -> option Compressed.
Variable errMessage : Compressed -> jsstring.

(** What is packed is what is unpacked. *)
Hypothesis unpack_pack : forall compressed, unpack (pack compressed) = Some compressed.

Lemma encodeUnknownSelector_filter (s : Selector) :
  encodeUnknownSelector pack s = encodeFilterSelector pack s.
Proof.
  unfold encodeUnknownSelector, isFilterSelector.
  destruct s as [[o|] [f|] [ev|] after limit]; reflexivity.
Qed.

Lemma decodeSelector_pack (compressed : Compressed) :
  decodeSelector unpack errMessage (pack compressed)
  = compressedFilterToSelector errMessage compressed.
Proof.
  unfold decodeSelector, fromURIPart. rewrite unpack_pack.
  destruct compressed as [[o|] [f|] [ev|] bytes limit]; reflexivity.
Qed.

(** What [encodeFilterSelector] packs, given the bytes of [after]. *)
Definition compressedOf (s : Selector) (bytes : option Buffer) : Compressed :=
  {| e := pickBy includeValue (option_map sortEntities (entities s));
     m := pickBy includeJsonpath (option_map jsonpathToCompressedJsonpath (meta s));
     d := pickBy includeValue (option_map eventsToCompressedData (events s));
     a := pickBy includeValue bytes;
     l := pickBy includeNumber (limit s) |}.

Lemma compressedOf_verified (s : Selector) (bytes : option Buffer) :
  validSelector s -> compressedFilterSpec (compressedOf s bytes) = true.
Proof.
  intros [He [Hm [Hd _]]]. unfold compressedFilterSpec, compressedOf. simpl.
  rewrite limitSpec_pickBy, andb_true_r.
  rewrite !pickBy_includeValue.
  repeat (apply andb_true_iff; split).
  - destruct (entities s) as [o|]; [|reflexivity]. simpl in *.
    rewrite sortEntities_sortEntries by apply He.
    apply optional_dropEmpty. apply entities_verified. exact He.
  - destruct (meta s) as [f|]; [|reflexivity]. simpl in *.
    rewrite (jsonpath_included Hm). simpl. apply jsonpath_has_query. exact Hm.
  - destruct (events s) as [ev|]; [|reflexivity]. simpl in *.
    rewrite eventsToCompressedData_sorted by apply Hd.
    apply optional_dropEmpty. apply events_verified. exact Hd.
Qed.

Lemma compressedOf_decoded (s : Selector) (bytes : option Buffer) :
  validSelector s ->
  pickBy includeValue bytes = bytes ->
  andThen bytes fromEventIdBytes = Ok (after s) ->
  compressedFilterToSelector errMessage (compressedOf s bytes) = Ok (canonicalize s).
Proof.
  intros Hs Hb Ha. unfold compressedFilterToSelector, verifyCompressed.
  rewrite (@compressedOf_verified s bytes Hs).
  destruct Hs as [He [Hm [Hd [_ Hl]]]].
  unfold compressedOf at 1. cbn [a]. rewrite Hb, Ha.
  unfold compressedOf, canonicalize. cbn [e m d l]. f_equal.
  rewrite !pickBy_includeValue, (pickBy_includeNumber _ Hl). f_equal.
  - destruct (entities s) as [o|]; [|reflexivity]. simpl in *.
    rewrite sortEntities_sortEntries by apply He. reflexivity.
  - destruct (meta s) as [f|]; [|reflexivity]. simpl in *.
    rewrite (jsonpath_included Hm). simpl. f_equal. apply jsonpath_round_trip. exact Hm.
  - destruct (events s) as [ev|]; [|reflexivity]. simpl in *.
    rewrite eventsToCompressedData_sorted by apply Hd.
    apply events_round_trip. exact Hd.
  - destruct (limit s) as [[|p|p]|]; reflexivity.
Qed.

Lemma compressedOf_reordered (s s' : Selector) (bytes : option Buffer) :
  validSelector s -> validSelector s' -> reorderedSelector s s' ->
  compressedOf s' bytes = compressedOf s bytes.
Proof.
  intros [He [Hm [Hd _]]] [He' [Hm' [Hd' _]]] [Re [Rm [Rd [_ Rl]]]].
  unfold compressedOf. rewrite Rl. f_equal.
  - destruct (entities s) as [o|], (entities s') as [o'|]; simpl in *;
      try contradiction; [|reflexivity].
    rewrite (@sortEntities_sortEntries o (proj1 He)),
            (@sortEntities_sortEntries o' (proj1 He')).
    rewrite (@sortEntries_Permutation_eq _ o o' (proj1 He) Re). reflexivity.
  - destruct (meta s) as [f|], (meta s') as [f'|]; simpl in *;
      try contradiction; [|reflexivity].
    rewrite (@reorderedFilter_compressed f f' Hm Hm' Rm). reflexivity.
  - destruct (events s) as [ev|], (events s') as [ev'|]; simpl in *;
      try contradiction; [|reflexivity].
    rewrite (@reorderedEvents_compressed ev ev' Hd Hd' Rd). reflexivity.
Qed.


End RoundTrip.

(** A codec for the examples: the packed form is the compressed form
    itself. *)
Definition packSame (compressed : Compressed) : Compressed := compressed.
Definition unpackSame (part : Compressed) : option Compressed := Some part.
Definition someMessage (_ : Compressed) : jsstring := u "invalid".

(** A selector of two entities, of a meta filter with variables, and of
    one event filter, with keys out of order. *)
Definition demoSelector : Selector :=
  {| entities := Some [(u "order", [u "o-1"]); (u "cart", [u "c-9"; u "c-2"])];
     meta := Some {| query := u "$.actor ? (@ == $who)";
                     vars := Some [(u "who", JStr (u "ann"));
                                   (u "at", JObj [(u "b", JNum 1); (u "a", JNull)])] |};
     events := Some [(u "order-placed", {| query := u "$.total ? (@ > 40)";
                                           vars := Some [] |});
                     (u "order-paid", {| query := u "$.paid"; vars := None |})];
     after := Some {| timestamp := 1; checksum := 7; ledgerId := u "3b9c0ad0" |};
     limit := Some 10 |}.

Example demoSelector_decoded :
  match encodeUnknownSelector packSame demoSelector with
  | Ok token => decodeSelector unpackSame someMessage token
  | Throw err => Throw err
  end
  = Ok {| entities := Some [(u "cart", [u "c-9"; u "c-2"]); (u "order", [u "o-1"])];
          meta := Some {| query := u "$.actor ? (@ == $who)";
                          vars := Some [(u "at", JObj [(u "a", JNull); (u "b", JNum 1)]);
                                        (u "who", JStr (u "ann"))] |};
          events := Some [(u "order-paid", {| query := u "$.paid"; vars := None |});
                          (u "order-placed", {| query := u "$.total ? (@ > 40)";
                                                vars := None |})];
          after := Some {| timestamp := 1; checksum := 7; ledgerId := u "3b9c0ad0" |};
          limit := Some 10 |}.
Proof. vm_compute. reflexivity. Qed.

Lemma demoSelector_valid : validSelector demoSelector.
Proof.
  unfold validSelector, demoSelector; cbn [entities meta events after limit optValid].
  split; [|split; [|split; [|split]]].
  - split.
    + repeat constructor; simpl; intuition discriminate.
    + repeat constructor; discriminate.
  - split; [discriminate|]. simpl.
    constructor.
    + repeat constructor; simpl; intuition discriminate.
    + repeat constructor; simpl; intuition discriminate.
  - split.
    + repeat constructor; simpl; intuition discriminate.
    + repeat constructor; discriminate.
  - unfold EventIdFacts.validEventId, EventIdFacts.validLedgerId. simpl.
    unfold two32. repeat split; try lia; reflexivity.
  - lia.
Defined.




(** The same holds of an entity without keys, of an empty query, and of
    a negative limit, which the encoder leaves out. *)
Example entity_without_keys_is_refused :
  let s := {| entities := Some [(u "cart", [])];
              meta := None; events := None; after := None; limit := None |} in
  match encodeUnknownSelector packSame s with
  | Ok token => status_of (decodeSelector unpackSame someMessage token)
  | Throw _ => None
  end = Some 400.
Proof. reflexivity. Qed.

Example empty_event_query_is_refused :
  let s := {| entities := None; meta := None;
              events := Some [(u "order-placed", {| query := []; vars := None |})];
              after := None; limit := None |} in
  match encodeUnknownSelector packSame s with
  | Ok token => status_of (decodeSelector unpackSame someMessage token)
  | Throw _ => None
  end = Some 400.
Proof. reflexivity. Qed.

Example negative_limit_is_left_out :
  let s := {| entities := None; meta := None; events := None;
              after := None; limit := Some (-1) |} in
  match encodeUnknownSelector packSame s with
  | Ok token => decodeSelector unpackSame someMessage token
  | Throw err => Throw err
  end = Ok {| entities := None; meta := None; events := None;
              after := None; limit := None |}.
Proof. reflexivity. Qed.

End SelectorUtils.

(* ===================================================================== *)
(** * Event ids: bytes, text, and what the decoders accept                *)
(* ===================================================================== *)

Module EventIdCodec.
Import EventId EventIdFacts.

Definition isByte (b : Z) : Prop := 0 <= b < 256.

Definition int64 (l : Long) : Prop :=
  - 9223372036854775808 <= l < 9223372036854775808.

Lemma bytesBE_bytes (v : Z) : Forall isByte (bytesBE v).
Proof.
  unfold bytesBE, isByte. repeat constructor; apply Z.mod_pos_bound; lia.
Qed.

Lemma longToBuffer_bytes (l : Long) : Forall isByte (longToBuffer l).
Proof. unfold longToBuffer. apply Forall_app. split; apply bytesBE_bytes. Qed.

Lemma bytesBE_mod (v : Z) : bytesBE (v mod two32) = bytesBE v.
Proof.
  unfold bytesBE, two32.
  assert (H1 : (v mod 4294967296 / 16777216) mod 256 = (v / 16777216) mod 256)
    by (Z.div_mod_to_equations; lia).
  assert (H2 : (v mod 4294967296 / 65536) mod 256 = (v / 65536) mod 256)
    by (Z.div_mod_to_equations; lia).
  assert (H3 : (v mod 4294967296 / 256) mod 256 = (v / 256) mod 256)
    by (Z.div_mod_to_equations; lia).
  assert (H4 : (v mod 4294967296) mod 256 = v mod 256)
    by (Z.div_mod_to_equations; lia).
  rewrite H1, H2, H3, H4. reflexivity.
Qed.

Lemma bytesBE_toInt32 (v : Z) : bytesBE (toInt32 v) = bytesBE v.
Proof. rewrite <- (bytesBE_mod (toInt32 v)), toInt32_mod32. apply bytesBE_mod. Qed.

Lemma bytesBE_unsigned (b0 b1 b2 b3 : Z) :
  isByte b0 -> isByte b1 -> isByte b2 -> isByte b3 ->
  bytesBE (b0 * 16777216 + b1 * 65536 + b2 * 256 + b3) = [b0; b1; b2; b3].
Proof.
  unfold isByte, bytesBE. intros H0 H1 H2 H3.
  set (v := b0 * 16777216 + b1 * 65536 + b2 * 256 + b3).
  assert (E0 : (v / 16777216) mod 256 = b0)
    by (subst v; Z.div_mod_to_equations; lia).
  assert (E1 : (v / 65536) mod 256 = b1)
    by (subst v; Z.div_mod_to_equations; lia).
  assert (E2 : (v / 256) mod 256 = b2)
    by (subst v; Z.div_mod_to_equations; lia).
  assert (E3 : v mod 256 = b3)
    by (subst v; Z.div_mod_to_equations; lia).
  rewrite E0, E1, E2, E3. reflexivity.
Qed.

Lemma unsigned_range (b0 b1 b2 b3 : Z) :
  isByte b0 -> isByte b1 -> isByte b2 -> isByte b3 ->
  0 <= b0 * 16777216 + b1 * 65536 + b2 * 256 + b3 < two32.
Proof. unfold isByte, two32. lia. Qed.

Lemma toInt32_bounds (x : Z) : - two31 <= toInt32 x < two31.
Proof.
  unfold toInt32, two31, two32.
  destruct (Z.ltb_spec (x mod 4294967296) 2147483648);
    Z.div_mod_to_equations; lia.
Qed.

(** The eight hexadecimal digits of a 32-bit number. *)
Definition digits8 (n : Z) : list Z :=
  [(n / 268435456) mod 16; (n / 16777216) mod 16; (n / 1048576) mod 16;
   (n / 65536) mod 16; (n / 4096) mod 16; (n / 256) mod 16; (n / 16) mod 16;
   n mod 16].

Lemma digits8_valid (n : Z) : Forall validDigit (digits8 n).
Proof.
  unfold digits8, validDigit. repeat constructor; apply Z.mod_pos_bound; lia.
Qed.

Lemma valOf_digits8 (n : Z) : 0 <= n < two32 -> valOf (digits8 n) = n.
Proof.
  unfold two32, valOf, digits8. intros H. cbn [fold_left].
  Z.div_mod_to_equations. lia.
Qed.

Lemma isLowerHex_hexChar (d : Z) : validDigit d -> isLowerHex (hexChar d) = true.
Proof. intros H. each_digit H; reflexivity. Qed.

Lemma lowerHex_map_hexChar (ds : list Z) :
  Forall validDigit ds -> forallb isLowerHex (map hexChar ds) = true.
Proof.
  induction 1 as [|d ds Hd _ IH]; simpl; [reflexivity|].
  rewrite (isLowerHex_hexChar Hd). exact IH.
Qed.

Lemma ledgerId_of_number (n : Z) :
  0 <= n < two32 ->
  validLedgerId (padStart0 8 (toString16 n)) /\
  parseInt16 (padStart0 8 (toString16 n)) = Some n.
Proof.
  intros Hn. pose proof (digits8_valid n) as Hds.
  assert (Hne : digits8 n <> []) by discriminate.
  assert (Hpad : padStart0 8 (toString16 n) = map hexChar (digits8 n)).
  { pose proof (@hexDigits_digits (digits8 n) Hds Hne 16%nat) as H.
    rewrite (valOf_digits8 Hn) in H. apply H. simpl. lia. }
  rewrite Hpad. split.
  - split; [reflexivity | apply lowerHex_map_hexChar; exact Hds].
  - rewrite (parseInt16_digits Hds Hne), (valOf_digits8 Hn). reflexivity.
Qed.

Lemma fromBits_range (low high : Z) : int64 (fromBits low high).
Proof.
  unfold int64, fromBits. pose proof (toInt32_bounds high) as Hh.
  assert (Hl : 0 <= low mod two32 < two32) by (apply Z.mod_pos_bound; reflexivity).
  unfold two31, two32 in *. lia.
Qed.

Lemma longToBuffer_fromBits (low high : Z) :
  longToBuffer (fromBits low high) = bytesBE high ++ bytesBE low.
Proof.
  unfold longToBuffer, getHighBits, getLowBits.
  rewrite !bytesBE_toInt32. unfold fromBits.
  pose proof (toInt32_bounds high) as Hh.
  assert (Hl : 0 <= low mod two32 < two32) by (apply Z.mod_pos_bound; reflexivity).
  assert (E1 : (toInt32 high * two32 + low mod two32) / two32 = toInt32 high).
  { unfold two32 in *. Z.div_mod_to_equations. lia. }
  assert (E2 : (toInt32 high * two32 + low mod two32) mod two32 = low mod two32).
  { unfold two32 in *. Z.div_mod_to_equations. lia. }
  rewrite E1, bytesBE_toInt32.
  rewrite <- (bytesBE_mod (toInt32 high * two32 + low mod two32)), E2, bytesBE_mod.
  reflexivity.
Qed.

(** A buffer of sixteen bytes decodes to an event id of the service, whose
    bytes are the buffer. *)
Lemma fromEventIdBytes_valid (buf : Buffer) :
  length buf = 16%nat -> Forall isByte buf ->
  exists e, fromEventIdBytes buf = Ok e /\ validEventId e /\
            toEventIdBytes e = Ok buf.
Proof.
  intros Hlen Hb.
  do 16 (destruct buf as [|? buf]; [discriminate Hlen|]).
  destruct buf; [|discriminate Hlen]. clear Hlen.
  repeat match goal with H : Forall isByte (_ :: _) |- _ =>
    inversion H; clear H; subst end.
  unfold fromEventIdBytes. cbn [length Nat.eqb].
  eexists. split; [reflexivity|].
  unfold bufferToLong, readInt32BE, readUInt32BE. cbn [nth Nat.add].
  repeat match goal with |- context [?a * 16777216 + ?b * 65536 + ?c * 256 + ?d] =>
    let v := fresh "v" in
    let Hv := fresh "Hv" in
    let Hr := fresh "Hr" in
    assert (Hr : 0 <= a * 16777216 + b * 65536 + c * 256 + d < two32)
      by (apply unsigned_range; assumption);
    assert (Hv : bytesBE (a * 16777216 + b * 65536 + c * 256 + d) = [a; b; c; d])
      by (apply bytesBE_unsigned; assumption);
    set (v := a * 16777216 + b * 65536 + c * 256 + d) in *;
    clearbody v
  end.
  match goal with Hl : 0 <= ?n < two32 |- context [toString16 ?n] =>
    destruct (ledgerId_of_number Hl) as [Hvalid Hparse] end.
  split.
  - split; [apply fromBits_range | split; assumption].
  - unfold toEventIdBytes, eventIdPartsToBuffer. cbn [timestamp checksum ledgerId].
    rewrite Hparse. unfold writeUInt32BE.
    repeat match goal with Hr : 0 <= ?v < two32 |- context [(0 <=? ?v) && (?v <? two32)] =>
      replace ((0 <=? v) && (v <? two32)) with true
        by (symmetry; apply andb_true_iff; split;
            [apply Z.leb_le | apply Z.ltb_lt]; lia)
    end.
    rewrite longToBuffer_fromBits, !bytesBE_toInt32.
    repeat match goal with Hv : bytesBE _ = _ |- _ => rewrite Hv; clear Hv end.
    reflexivity.
Qed.


Lemma bufferFromHex_bufferToHex (buf : Buffer) :
  Forall isByte buf -> bufferFromHex (bufferToHex buf) = buf.
Proof.
  induction 1 as [|b buf Hb _ IH]; [reflexivity|].
  unfold bufferToHex in *. cbn [flat_map app bufferFromHex].
  unfold isByte in Hb.
  assert (Hh : validDigit (b / 16)) by (unfold validDigit; Z.div_mod_to_equations; lia).
  assert (Hl : validDigit (b mod 16)) by (unfold validDigit; Z.div_mod_to_equations; lia).
  rewrite (hexVal_hexChar Hh), (hexVal_hexChar Hl), IH. f_equal.
  Z.div_mod_to_equations. lia.
Qed.

Lemma length_bufferToHex (buf : Buffer) :
  length (bufferToHex buf) = (2 * length buf)%nat.
Proof.
  induction buf as [|b buf IH]; [reflexivity|].
  unfold bufferToHex in *. cbn [flat_map app length]. rewrite IH. lia.
Qed.


Lemma eventIdPartsToBuffer_shape (ts : Long) (chk : Z) (lid : jsstring) (buf : Buffer) :
  eventIdPartsToBuffer ts chk lid = Ok buf ->
  length buf = 16%nat /\ Forall isByte buf.
Proof.
  intros H.
  assert (E : exists c l, buf = longToBuffer ts ++ bytesBE c ++ bytesBE l).
  { unfold eventIdPartsToBuffer, writeUInt32BE in H.
    destruct ((0 <=? chk) && (chk <? two32)); [|discriminate].
    destruct (parseInt16 lid) as [n|].
    - destruct ((0 <=? n) && (n <? two32)); [|discriminate].
      exists chk, n. congruence.
    - exists chk, 0. congruence. }
  destruct E as [c [l ->]]. split; [reflexivity|].
  apply Forall_app; split; [apply longToBuffer_bytes|].
  apply Forall_app; split; apply bytesBE_bytes.
Qed.

Definition demoEventId : EventID :=
  {| timestamp := 1700000000000000; checksum := 3735928559;
     ledgerId := u "3b9c0ad0" |}.

Lemma demoEventId_valid : validEventId demoEventId.
Proof.
  unfold validEventId, validLedgerId, demoEventId, two32. simpl.
  repeat split; try lia; reflexivity.
Defined.

(** X1. [longToBuffer] writes the eight bytes of a 64-bit number, and
    [bufferToLong] reads the number back from them, whatever follows
    them in the buffer. *)
Theorem long_to_buffer_and_back (long : Long) (rest : Buffer) :
  int64 long ->
  length (longToBuffer long) = 8%nat /\
  Forall isByte (longToBuffer long) /\
  bufferToLong (longToBuffer long ++ rest) 0 = long.
Proof.
  intros Hl. split; [reflexivity|]. split; [apply longToBuffer_bytes|].
  unfold longToBuffer, bufferToLong, readInt32BE, readUInt32BE, bytesBE.
  cbn [app nth Nat.add]. rewrite !bytesBE_value.
  apply fromBits_halves. exact Hl.
Qed.

Lemma long_to_buffer_and_back_witness :
  int64 (-2) /\
  longToBuffer (-2) = [255; 255; 255; 255; 255; 255; 255; 254] /\
  bufferToLong (longToBuffer (-2) ++ [7; 7]) 0 = -2.
Proof.
  assert (Hi : int64 (-2)) by (unfold int64; lia).
  split; [exact Hi|]. split; [reflexivity|].
  exact (proj2 (proj2 (@long_to_buffer_and_back (-2) [7; 7] Hi))).
Defined.

(** X2. An event id of the service (64-bit timestamp, 32-bit checksum,
    ledger id of eight lower-case hexadecimal digits) is written by
    [toEventIdBytes] as sixteen bytes, from which [fromEventIdBytes]
    returns the same event id. *)
Theorem event_id_bytes_round_trip (e : EventID) :
  validEventId e ->
  exists buf,
    toEventIdBytes e = Ok buf /\ length buf = 16%nat /\ Forall isByte buf /\
    fromEventIdBytes buf = Ok e.
Proof.
  intros He. destruct (toEventIdBytes_fromEventIdBytes He) as [buf [Hb [_ Hd]]].
  exists buf. destruct (eventIdPartsToBuffer_shape _ _ _ Hb) as [Hlen Hbytes].
  auto.
Qed.

Lemma event_id_bytes_round_trip_witness :
  validEventId demoEventId /\
  exists buf,
    toEventIdBytes demoEventId = Ok buf /\ length buf = 16%nat /\
    Forall isByte buf /\ fromEventIdBytes buf = Ok demoEventId.
Proof.
  split; [exact demoEventId_valid|].
  exact (@event_id_bytes_round_trip demoEventId demoEventId_valid).
Defined.

(** X3. [fromEventIdBytes] refuses with 400 a buffer that has not sixteen
    bytes; from sixteen bytes it returns an event id of the service, and
    [toEventIdBytes] of that event id is the buffer again. *)
Theorem sixteen_bytes_decode_to_their_event_id (buf : Buffer) :
  Forall isByte buf ->
  (length buf <> 16%nat ->
   fromEventIdBytes buf = Throw (BadRequest (u "Invalid 'eventId' buffer value"))) /\
  (length buf = 16%nat ->
   exists e, fromEventIdBytes buf = Ok e /\ validEventId e /\
             toEventIdBytes e = Ok buf).
Proof.
  intros Hb. split.
  - intros Hlen. unfold fromEventIdBytes.
    destruct (Nat.eqb_spec (length buf) 16); [contradiction | reflexivity].
  - intros Hlen. apply fromEventIdBytes_valid; assumption.
Qed.

Definition demoBytes : Buffer :=
  [0; 6; 10; 36; 24; 30; 64; 0; 222; 173; 190; 239; 59; 156; 10; 208].

Lemma sixteen_bytes_decode_to_their_event_id_witness :
  Forall isByte demoBytes /\
  exists e, fromEventIdBytes demoBytes = Ok e /\ validEventId e /\
            toEventIdBytes e = Ok demoBytes.
Proof.
  assert (Hb : Forall isByte demoBytes)
    by (unfold demoBytes, isByte; repeat constructor; lia).
  split; [exact Hb|].
  exact (proj2 (@sixteen_bytes_decode_to_their_event_id demoBytes Hb) eq_refl).
Defined.

(** X4. [eventIdToString] writes an event id of the service as 32
    hexadecimal characters, from which [maybeFromEventIdString] returns
    the same event id. *)
Theorem event_id_text_round_trip (e : EventID) :
  validEventId e ->
  exists s,
    eventIdToString e = Ok s /\ length s = 32%nat /\
    maybeFromEventIdString (Some s) = Ok (Some e).
Proof.
  intros He. destruct (toEventIdBytes_fromEventIdBytes He) as [buf [Hb [_ Hd]]].
  destruct (eventIdPartsToBuffer_shape _ _ _ Hb) as [Hlen Hbytes].
  exists (bufferToHex buf). unfold eventIdToString, toEventIdString.
  unfold toEventIdBytes in Hb. rewrite Hb.
  assert (Hl : length (bufferToHex buf) = 32%nat)
    by (rewrite length_bufferToHex, Hlen; reflexivity).
  split; [reflexivity|]. split; [exact Hl|].
  unfold maybeFromEventIdString. rewrite Hl. cbn [Nat.eqb].
  rewrite (bufferFromHex_bufferToHex Hbytes), Hd. reflexivity.
Qed.

Lemma event_id_text_round_trip_witness :
  validEventId demoEventId /\
  eventIdToString demoEventId = Ok (u "00060a24181e4000deadbeef3b9c0ad0") /\
  exists s,
    eventIdToString demoEventId = Ok s /\ length s = 32%nat /\
    maybeFromEventIdString (Some s) = Ok (Some demoEventId).
Proof.
  split; [exact demoEventId_valid|]. split; [reflexivity|].
  exact (@event_id_text_round_trip demoEventId demoEventId_valid).
Defined.


Example text_with_a_letter_out_of_range_is_400 :
  status_of (maybeFromEventIdString (Some (u "00060a24181e4000deadbeef3b9c0adz")))
  = Some 400.
Proof. reflexivity. Qed.

End EventIdCodec.

(* ===================================================================== *)
(** * What [sortObject] returns                                           *)
(* ===================================================================== *)

Module SortFacts.

(** Keys in the order of [Array.prototype.sort]. *)
Definition inKeyOrder (keys : list jsstring) : Prop :=
  StronglySorted (fun a b => str_leb a b = true) keys.

Lemma insertKey_In (k x : jsstring) (l : list jsstring) :
  In x (insertKey k l) -> x = k \/ In x l.
Proof.
  intros H. apply (Permutation_in x (Permutation_sym (insertKey_Permutation k l))) in H.
  destruct H as [H | H]; auto.
Qed.

Lemma insertKey_inKeyOrder (k : jsstring) (l : list jsstring) :
  inKeyOrder l -> inKeyOrder (insertKey k l).
Proof.
  unfold inKeyOrder. induction 1 as [|x l Hl IH Hx]; simpl.
  - constructor; constructor.
  - destruct (str_leb k x) eqn:E.
    + constructor; [constructor; assumption|].
      constructor; [exact E|].
      rewrite Forall_forall in *. intros y Hy.
      apply (str_leb_trans _ _ _ E). apply Hx. exact Hy.
    + constructor; [exact IH|].
      rewrite Forall_forall in *. intros y Hy.
      destruct (insertKey_In _ _ _ Hy) as [-> | Hin]; [|apply Hx; exact Hin].
      destruct (str_leb_total k x) as [H | H]; [congruence | exact H].
Qed.

Lemma sortKeys_inKeyOrder (l : list jsstring) : inKeyOrder (sortKeys l).
Proof.
  induction l as [|k l IH]; simpl; [constructor|].
  apply insertKey_inKeyOrder. exact IH.
Qed.

Lemma oget_mapValues {V W} (f : V -> W) (o : omap V) (k : jsstring) :
  oget k (mapValues f o) = option_map f (oget k o).
Proof.
  induction o as [|[k' x] o IH]; simpl; [reflexivity|].
  destruct (str_eqb k k'); [reflexivity | exact IH].
Qed.

Lemma NoDup_okeys_sortEntries {V} (o : omap V) :
  NoDup (okeys o) -> NoDup (okeys (sortEntries o)).
Proof.
  intros H. rewrite okeys_sortEntries.
  apply (Permutation_NoDup (sortKeys_Permutation (okeys o))). exact H.
Qed.

Lemma sortEntries_idem {V} (o : omap V) :
  NoDup (okeys o) -> sortEntries (sortEntries o) = sortEntries o.
Proof.
  intros H. symmetry. apply sortEntries_Permutation_eq; [exact H|].
  apply sortEntries_Permutation.
Qed.

Lemma wfValue_canonValue (v : jsval) : wfValue v -> wfValue (canonValue v).
Proof.
  induction v as [ | b | n | s | xs IH | kvs IH] using jsval_nested_ind;
    intros Hwf; try exact Hwf.
  - inversion Hwf as [ | | | | ? Hxs | ]; subst. simpl. constructor.
    rewrite Forall_forall in *. intros y Hy. apply in_map_iff in Hy.
    destruct Hy as [x [<- Hx]]. auto.
  - inversion Hwf as [ | | | | | ? Hnd Hkvs]; subst. simpl.
    fold (mapValues canonValue kvs). constructor.
    + apply NoDup_okeys_sortEntries. rewrite okeys_mapValues. exact Hnd.
    + apply (Permutation_Forall (sortEntries_Permutation _)).
      rewrite Forall_forall in *. intros kv Hin. unfold mapValues in Hin.
      apply in_map_iff in Hin. destruct Hin as [kv0 [<- Hin]]. simpl. auto.
Qed.

Lemma canonValue_idem (v : jsval) :
  wfValue v -> canonValue (canonValue v) = canonValue v.
Proof.
  induction v as [ | b | n | s | xs IH | kvs IH] using jsval_nested_ind;
    intros Hwf; try reflexivity.
  - inversion Hwf as [ | | | | ? Hxs | ]; subst. simpl. f_equal.
    rewrite map_map. apply map_ext_in. intros x Hx.
    rewrite Forall_forall in *. auto.
  - inversion Hwf as [ | | | | | ? Hnd Hkvs]; subst. simpl. f_equal.
    fold (mapValues canonValue kvs).
    fold (mapValues canonValue (sortEntries (mapValues canonValue kvs))).
    rewrite <- SelectorUtils.sortEntries_mapValues,
            SelectorUtils.mapValues_mapValues.
    rewrite (@mapValues_ext_in _ _ (fun x => canonValue (canonValue x)) canonValue).
    + apply sortEntries_idem. rewrite okeys_mapValues. exact Hnd.
    + rewrite Forall_forall in *. intros kv Hin. auto.
Qed.

Lemma canonObject_facts (o : UnknownObject) :
  wfObject o ->
  wfObject (canonObject o) /\
  inKeyOrder (okeys (canonObject o)) /\
  NoDup (okeys (canonObject o)) /\
  (forall k, oget k (canonObject o) = option_map canonValue (oget k o)) /\
  canonObject (canonObject o) = canonObject o.
Proof.
  intros Hwf. pose proof (wfValue_canonValue Hwf) as Hwf'.
  pose proof (canonValue_idem Hwf) as Hidem.
  change (canonValue (JObj o)) with (JObj (canonObject o)) in Hwf', Hidem.
  change (canonValue (JObj (canonObject o)))
    with (JObj (canonObject (canonObject o))) in Hidem.
  inversion Hwf as [ | | | | | ? Hnd Hkvs]; subst.
  split; [exact Hwf'|]. unfold canonObject at 1 2 3.
  split; [|split; [|split]].
  - rewrite okeys_sortEntries. apply sortKeys_inKeyOrder.
  - apply NoDup_okeys_sortEntries. rewrite okeys_mapValues. exact Hnd.
  - intros k.
    rewrite <- (@oget_Permutation _ (mapValues canonValue o)
                  (sortEntries (mapValues canonValue o)) k).
    + apply oget_mapValues.
    + rewrite okeys_mapValues. exact Hnd.
    + apply sortEntries_Permutation.
  - injection Hidem as Hidem. exact Hidem.
Qed.





End SortFacts.

(* ===================================================================== *)
(** * Selector tokens: what is decoded, and encoding it again             *)
(* ===================================================================== *)

Module SelectorTokens.
Import EventId SelectorUtils.

Lemma dropEmpty_pickBy {A B} (f : list A -> list B) (x : list A) :
  f [] = [] ->
  pickBy includeValue (option_map f (dropEmpty (Some x)))
  = pickBy includeValue (Some (f x)).
Proof. intros H. destruct x; simpl; [rewrite H|]; reflexivity. Qed.

Lemma sortEntities_canonical (o : EntitiesRecord) :
  NoDup (okeys o) -> sortEntities (sortEntries o) = sortEntities o.
Proof.
  intros Hnd.
  rewrite (@sortEntities_sortEntries (sortEntries o))
    by (apply SortFacts.NoDup_okeys_sortEntries; exact Hnd).
  rewrite (@sortEntities_sortEntries o Hnd).
  apply SortFacts.sortEntries_idem. exact Hnd.
Qed.

Lemma sortObject_canonical (o : UnknownObject) :
  wfObject o -> sortObject (canonObject o) = sortObject o.
Proof.
  intros Hwf. destruct (SortFacts.canonObject_facts Hwf) as [Hwf' [_ [_ [_ Hidem]]]].
  rewrite (@sortObject_canonObject _ Hwf'), (@sortObject_canonObject _ Hwf).
  exact Hidem.
Qed.

Lemma jsonpath_canonical (f : JsonpathFilter) :
  validFilter f ->
  jsonpathToCompressedJsonpath (canonFilter f) = jsonpathToCompressedJsonpath f.
Proof.
  intros [_ Hv]. unfold jsonpathToCompressedJsonpath, canonFilter.
  cbn [query vars]. f_equal.
  destruct (vars f) as [o|]; [|reflexivity]. simpl in Hv. cbn [option_map].
  rewrite <- (@sortObject_canonical o Hv).
  apply (@dropEmpty_pickBy _ _ sortObject). reflexivity.
Qed.

Lemma events_canonical (ev : DataFilter) :
  validEvents ev ->
  eventsToCompressedData (sortEntries (mapValues canonFilter ev))
  = eventsToCompressedData ev.
Proof.
  intros [Hnd Hall].
  assert (Hnd' : NoDup (okeys (sortEntries (mapValues canonFilter ev)))).
  { apply SortFacts.NoDup_okeys_sortEntries. rewrite okeys_mapValues. exact Hnd. }
  rewrite (@eventsToCompressedData_sorted _ Hnd'),
          (@eventsToCompressedData_sorted _ Hnd).
  rewrite <- sortEntries_mapValues, mapValues_mapValues.
  rewrite (@mapValues_ext_in _ _
             (fun x => jsonpathToCompressedJsonpath (canonFilter x))
             jsonpathToCompressedJsonpath ev).
  - apply SortFacts.sortEntries_idem. rewrite okeys_mapValues. exact Hnd.
  - rewrite Forall_forall in *. intros entry Hin.
    apply jsonpath_canonical. apply Hall. exact Hin.
Qed.

Lemma compressedOf_canonicalize (s : Selector) (bytes : option Buffer) :
  validSelector s -> compressedOf (canonicalize s) bytes = compressedOf s bytes.
Proof.
  intros [He [Hm [Hd [_ Hl]]]]. unfold compressedOf, canonicalize.
  cbn [entities meta events limit]. f_equal.
  - destruct (entities s) as [o|]; [|reflexivity]. simpl in He.
    cbn [option_map].
    rewrite <- (@sortEntities_canonical o (proj1 He)).
    apply (@dropEmpty_pickBy _ _ sortEntities). reflexivity.
  - destruct (meta s) as [f|]; [|reflexivity]. simpl in Hm. cbn [option_map].
    rewrite (@jsonpath_canonical f Hm). reflexivity.
  - destruct (events s) as [ev|]; [|reflexivity]. simpl in Hd. cbn [option_map].
    rewrite <- (@events_canonical ev Hd).
    apply (@dropEmpty_pickBy _ _ eventsToCompressedData). reflexivity.
  - destruct (limit s) as [[|p|p]|]; reflexivity.
Qed.

Section Tokens.

Variable URIPart : Type.
Variable pack : Compressed -> URIPart.
Variable unpack : URIPart -> option Compressed.
Variable errMessage : Compressed -> jsstring.

Lemma verified_limit (limit : option Z) :
  limitSpec limit = true -> optValid (fun n => 0 < n) limit.
Proof.
  destruct limit as [n|]; simpl; [|trivial]. intros H. apply Z.ltb_lt. exact H.
Qed.

Lemma verified_entities (e : option EntitiesRecord) :
  optional (mapOf nonEmptyStringArraySpec) e = true ->
  optValid (fun o => Forall (fun entry => validKeys (snd entry)) o) e.
Proof.
  destruct e as [o|]; simpl; [|trivial]. unfold mapOf. intros H.
  rewrite forallb_forall in H. apply Forall_forall. intros entry Hin.
  specialize (H entry Hin). unfold nonEmptyStringArraySpec in H.
  apply andb_true_iff in H. destruct H as [Hk Hl]. split.
  - intros E. rewrite E in Hl. discriminate Hl.
  - rewrite forallb_forall in Hk. apply Forall_forall. intros key Hkey E.
    specialize (Hk key Hkey). rewrite E in Hk. discriminate Hk.
Qed.

(** X7. Whatever the token and the codec, a selector that
    [decodeSelector] returns has passed the specs: its limit, when
    present, is above 0, and each of its entities has at least one key
    and no empty key. *)
Theorem decoded_selector_is_verified (token : URIPart) (s : Selector) :
  decodeSelector unpack errMessage token = Ok s ->
  optValid (fun n => 0 < n) (limit s) /\
  optValid (fun o => Forall (fun entry => validKeys (snd entry)) o) (entities s).
Proof.
  unfold decodeSelector, fromURIPart.
  destruct (unpack token) as [c|]; [|discriminate].
  destruct (isSome (e c) || isSome (m c) || isSome (d c)).
  - unfold compressedFilterToSelector, verifyCompressed.
    destruct (compressedFilterSpec c) eqn:Hspec; [|discriminate].
    destruct (andThen (a c) fromEventIdBytes); [|discriminate].
    intros H; injection H as <-. cbn [limit entities].
    unfold compressedFilterSpec in Hspec.
    apply andb_true_iff in Hspec. destruct Hspec as [Hspec Hl].
    apply andb_true_iff in Hspec. destruct Hspec as [Hspec _].
    apply andb_true_iff in Hspec. destruct Hspec as [He _].
    split; [apply verified_limit; exact Hl | apply verified_entities; exact He].
  - unfold compressedSelectorToSelector, verifyCompressed.
    destruct (compressedSelectorSpec c) eqn:Hspec; [|discriminate].
    destruct (andThen (a c) fromEventIdBytes); [|discriminate].
    intros H; injection H as <-. cbn [limit entities].
    split; [apply verified_limit; exact Hspec | exact I].
Qed.

(** What is packed is what is unpacked. *)
Hypothesis unpack_pack : forall compressed, unpack (pack compressed) = Some compressed.

(** X8. The token of a selector that the decoder accepts back decodes
    to a selector whose token is the same: decoding a token and encoding
    the result gives the token again. *)
Theorem decoded_selector_encodes_to_same_token (s : Selector) :
  validSelector s ->
  exists token decoded,
    encodeUnknownSelector pack s = Ok token /\
    decodeSelector unpack errMessage token = Ok decoded /\
    encodeUnknownSelector pack decoded = Ok token.
Proof.
  intros Hs.
  destruct (@after_round_trip (after s)) as [bytes [Hb [Hp Ha]]]; [apply Hs|].
  exists (pack (compressedOf s bytes)), (canonicalize s).
  split; [|split].
  - rewrite encodeUnknownSelector_filter. unfold encodeFilterSelector.
    rewrite Hb. reflexivity.
  - rewrite (@decodeSelector_pack _ pack unpack errMessage unpack_pack).
    apply compressedOf_decoded; assumption.
  - rewrite encodeUnknownSelector_filter. unfold encodeFilterSelector.
    change (after (canonicalize s)) with (after s). rewrite Hb.
    unfold toURIPart. do 2 f_equal.
    apply (@compressedOf_canonicalize s bytes Hs).
Qed.

End Tokens.

Definition lateSelector : Selector :=
  {| entities := Some [(u "order", [u "o-1"])]; meta := None; events := None;
     after := None; limit := Some 25 |}.

Lemma decoded_selector_is_verified_witness :
  decodeSelector unpackSame someMessage
    {| e := Some [(u "order", [u "o-1"])]; m := None; d := None; a := None;
       l := Some 25 |}
  = Ok lateSelector /\
  optValid (fun n => 0 < n) (limit lateSelector) /\
  optValid (fun o => Forall (fun entry => validKeys (snd entry)) o)
           (entities lateSelector).
Proof.
  split; [reflexivity|].
  apply (@decoded_selector_is_verified Compressed unpackSame someMessage
           {| e := Some [(u "order", [u "o-1"])]; m := None; d := None; a := None;
              l := Some 25 |}).
  reflexivity.
Defined.

Lemma decoded_selector_encodes_to_same_token_witness :
  validSelector demoSelector /\
  exists token decoded,
    encodeUnknownSelector packSame demoSelector = Ok token /\
    decodeSelector unpackSame someMessage token = Ok decoded /\
    encodeUnknownSelector packSame decoded = Ok token.
Proof.
  split; [exact demoSelector_valid|].
  apply (@decoded_selector_encodes_to_same_token Compressed packSame unpackSame
           someMessage).
  - intros compressed. reflexivity.
  - exact demoSelector_valid.
Defined.

End SelectorTokens.

(* ===================================================================== *)
(** * SQL text (db/selector-sql.ts)                                       *)
(* ===================================================================== *)

Module SqlText.
Import SelectorSql.

(** [str.replaceAll("''", "'")]: the pairs of quotes, taken from the
    left, become one quote each. *)
Fixpoint fromPostgresString (str : jsstring) : jsstring :=
  match str with
  | [] => []
  | c0 :: rest =>
      match rest with
      | c1 :: rest' =>
          if N.eqb c0 QUOTE && N.eqb c1 QUOTE
          then QUOTE :: fromPostgresString rest'
          else c0 :: fromPostgresString rest
      | [] => [c0]
      end
  end.

Lemma fromPostgresString_cons (c : N) (s : jsstring) :
  c <> QUOTE -> fromPostgresString (c :: s) = c :: fromPostgresString s.
Proof.
  intros Hc. destruct s as [|c1 s]; [reflexivity|].
  cbn [fromPostgresString]. destruct (N.eqb_spec c QUOTE); [contradiction|].
  reflexivity.
Qed.

(** X9. [fromPostgresString] undoes [escapeSingleQuote] on every
    string: the text inside the quotes of [toPostgresString] is read
    back as it was. *)
Theorem fromPostgresString_escapeSingleQuote (str : jsstring) :
  fromPostgresString (escapeSingleQuote str) = str.
Proof.
  unfold escapeSingleQuote, replaceAllChar.
  induction str as [|c str IH]; [reflexivity|].
  cbn [flat_map]. destruct (N.eqb_spec c QUOTE) as [-> | Hc].
  - cbn [app fromPostgresString]. rewrite N.eqb_refl. cbn [andb].
    f_equal. exact IH.
  - cbn [app]. rewrite (fromPostgresString_cons _ Hc). f_equal. exact IH.
Qed.

Example quoted_text_is_read_back :
  escapeSingleQuote (u "it's ''so''") = u "it''s ''''so''''" /\
  fromPostgresString (u "it''s ''''so''''") = u "it's ''so''".
Proof. split; reflexivity. Qed.

Section Stringify.

Variable JSON_stringify : jsval -> jsstring.

Lemma generateEventsQuery_returns (dataFilter : DataFilter) :
  exists q, generateEventsQuery JSON_stringify dataFilter = Ok q.
Proof.
  unfold generateEventsQuery.
  match goal with |- context [match ?l with [] => _ | _ :: _ => _ end] =>
    destruct l as [|e1 [|e2 es]] end; eexists; reflexivity.
Qed.

Lemma filterSelectorToSql_returns (selector : Selector) :
  exists q, filterSelectorToSql JSON_stringify selector = Ok q.
Proof.
  unfold filterSelectorToSql.
  destruct (nonEmpty (events selector)) as [evs|]; [|eexists; reflexivity].
  destruct (generateEventsQuery_returns evs) as [q ->]. eexists; reflexivity.
Qed.

(** X10. [filterSelectorToSql] returns a predicate in parentheses for
    every selector: the error of [singleOrAny] on an empty list is never
    reached. A selector whose clauses are all absent or empty gives the
    text of two parentheses with nothing between them. *)
Theorem filterSelectorToSql_is_parenthesised (selector : Selector) :
  exists body,
    filterSelectorToSql JSON_stringify selector = Ok (u "(" ++ body ++ u ")") /\
    (nonEmpty (entities selector) = None -> meta selector = None ->
     nonEmpty (events selector) = None -> body = []).
Proof.
  unfold filterSelectorToSql.
  destruct (nonEmpty (events selector)) as [evs|].
  - destruct (generateEventsQuery_returns evs) as [q ->].
    eexists. split; [reflexivity|]. intros _ _ H. discriminate H.
  - eexists. split; [reflexivity|]. intros -> -> _. reflexivity.
Qed.

End Stringify.

End SqlText.

(* ===================================================================== *)
(** * Event source: refusals, positions and batches                       *)
(* ===================================================================== *)

Module SourceFacts.
Import EventSource.

Definition FOREIGN_AFTER : jsstring :=
  u "Ledger ID in 'after' does not match the current ledger. Are you using the correct authorization token for this request?".

Section Source.

Variable DbState : Type.
Variable exec : DbState -> DbCall -> DbResponse * DbState.
Variable JSON_stringify : jsval -> jsstring.
Variable instantToString : Z -> jsstring.

Local Open Scope m_scope.

Lemma validateAfterInLedger_foreign
      (a : EventID) (ledger : Ledger) (w : World DbState) :
  ledgerId a <> id ledger ->
  validateAfterInLedger (Some a) ledger w = (Throw (BadRequest FOREIGN_AFTER), w).
Proof.
  intros Hne. unfold validateAfterInLedger.
  destruct (str_eqb (id ledger) (ledgerId a)) eqn:E; [|reflexivity].
  apply str_eqb_eq in E. congruence.
Qed.

(** X11. A selector whose [after] was issued by another ledger is
    refused with 400 by [allEvents], [runFilter] and [latestEventId]
    before anything is asked of the database. *)
Theorem foreign_after_is_refused_before_any_query
        (ledger : Ledger) (selector : Selector) (a : EventID) (w : World DbState) :
  after selector = Some a ->
  ledgerId a <> id ledger ->
  allEvents exec instantToString ledger selector w
  = (Throw (BadRequest FOREIGN_AFTER), w) /\
  runFilter exec JSON_stringify instantToString ledger selector w
  = (Throw (BadRequest FOREIGN_AFTER), w) /\
  latestEventId exec JSON_stringify ledger selector w
  = (Throw (BadRequest FOREIGN_AFTER), w).
Proof.
  intros Ha Hne.
  pose proof (@validateAfterInLedger_foreign a ledger w Hne) as Hv.
  assert (Hx : forall query,
             executeSelector exec instantToString ledger selector query w
             = (Throw (BadRequest FOREIGN_AFTER), w)).
  { intros query. unfold executeSelector. unfold bind at 1.
    rewrite Ha, Hv. reflexivity. }
  split; [apply Hx|]. split.
  - unfold runFilter. unfold bind at 1, lift.
    destruct (SqlText.filterSelectorToSql_returns JSON_stringify selector) as [q ->].
    apply Hx.
  - unfold latestEventId. unfold bind at 1. rewrite Ha, Hv. reflexivity.
Qed.

(** The first call of a selection. *)
Definition runSelectorCall (ledger : Ledger) (selector : Selector) (query : jsstring)
  : DbCall :=
  RunSelector (id ledger)
    (match after selector with Some a => timestamp a | None => 0 end)
    (match after selector with Some a => checksum a | None => 0 end)
    (match limit selector with Some l => l | None => 0 end)
    (SelectorSql.stringToBytes query) EVENT_BATCH_SIZE.

(** X12. When the database rejects [run_selector] with the syntax error
    42601, the selection fails with 400 and the message of the database;
    any other database error that is not [AFTER not found] leaves
    [executeSelector] as it is, and the event source of [init] turns it
    into 503. *)
Theorem rejected_selection_is_400_or_503
        (ledger : Ledger) (selector : Selector) (query code msg : jsstring)
        (cn : option jsstring) (w : World DbState) (st : DbState) :
  afterInLedger selector ledger ->
  exec (db w) (runSelectorCall ledger selector query)
  = (DbError (PostgresError code msg cn), st) ->
  (code = u "42601" ->
   fst (executeSelector exec instantToString ledger selector query w)
   = Throw (BadRequest msg)) /\
  (code <> u "42601" -> startsWith msg (u "AFTER not found") = false ->
   fst (executeSelector exec instantToString ledger selector query w)
   = Throw (PostgresError code msg cn) /\
   fst (wrapWithCatch (executeSelector exec instantToString ledger selector query) w)
   = Throw (ServiceUnavailable (u "Please try your call later."))).
Proof.
  intros Ha Hexec.
  assert (Hrun : forall handler,
    tryCatch
      (rows <- sql exec (runSelectorCall ledger selector query) ;;
       match rowsOf rows with
       | idRow :: rest => ret (rowPosition (id ledger) idRow, rest)
       | [] => ret (orGenesis (after selector) ledger, [])
       end) handler w
    = handler (PostgresError code msg cn)
        {| db := st; calls := calls w ++ [runSelectorCall ledger selector query] |}).
  { intros handler. unfold tryCatch, bind, sql. rewrite Hexec. reflexivity. }
  assert (Hx : executeSelector exec instantToString ledger selector query w
               = (x <- tryExecuteSelector exec ledger
                         (match limit selector with Some l => l | None => 0 end)
                         (SelectorSql.stringToBytes query) (after selector) ;;
                  (let (eventId, results) := x in
                   match results with
                   | [] => ret {| position := eventId; eventStream := Ready [] |}
                   | _ :: _ =>
                       continueSelector instantToString
                         (SelectorSql.stringToBytes query) eventId
                         (match limit selector with Some l => l | None => 0 end)
                         results
                   end)) w).
  { unfold executeSelector. unfold bind at 1.
    rewrite (@validateAfterInLedger_ok _ selector ledger w Ha). reflexivity. }
  assert (E42 : code = u "42601" -> str_eqb code (u "42601") = true)
    by (intros ->; reflexivity).
  assert (En42 : code <> u "42601" -> str_eqb code (u "42601") = false).
  { intros Hc. destruct (str_eqb code (u "42601")) eqn:E; [|reflexivity].
    apply str_eqb_eq in E. contradiction. }
  assert (Ht : tryExecuteSelector exec ledger
                 (match limit selector with Some l => l | None => 0 end)
                 (SelectorSql.stringToBytes query) (after selector) w
               = (if str_eqb code (u "42601") then throw (BadRequest msg)
                  else if startsWith msg (u "AFTER not found") then
                    match after selector with
                    | Some a =>
                        afterStr <- lift (EventId.eventIdToString a) ;;
                        throw (BadRequest (u "after '" ++ afterStr ++
                                           u "' not found in this ledger."))
                    | None => throw (JsError (u "TypeError"))
                    end
                  else throw (PostgresError code msg cn))
                   {| db := st;
                      calls := calls w ++ [runSelectorCall ledger selector query] |}).
  { unfold tryExecuteSelector. fold (runSelectorCall ledger selector query).
    rewrite Hrun. reflexivity. }
  split.
  - intros Hc. rewrite Hx. unfold bind at 1. rewrite Ht, (E42 Hc). reflexivity.
  - intros Hc Hmsg.
    assert (R : executeSelector exec instantToString ledger selector query w
                = (Throw (PostgresError code msg cn),
                   {| db := st;
                      calls := calls w ++ [runSelectorCall ledger selector query] |})).
    { rewrite Hx. unfold bind at 1. rewrite Ht, (En42 Hc), Hmsg. reflexivity. }
    split; [rewrite R; reflexivity|].
    unfold wrapWithCatch, tryCatch. rewrite R. reflexivity.
Qed.

Lemma validateAfterInLedger_inv
      (after : option EventID) (ledger : Ledger) (w w1 : World DbState) :
  validateAfterInLedger after ledger w = (Ok tt, w1) ->
  w1 = w /\ forall a, after = Some a -> ledgerId a = id ledger.
Proof.
  unfold validateAfterInLedger. destruct after as [a|].
  - destruct (str_eqb (id ledger) (ledgerId a)) eqn:E; [|discriminate].
    apply str_eqb_eq in E. intros H; injection H as <-. split; [reflexivity|].
    intros a' Ha; injection Ha as <-. congruence.
  - intros H; injection H as <-. split; [reflexivity | discriminate].
Qed.

Lemma orGenesis_ledger (after : option EventID) (ledger : Ledger) :
  ledgerId (genesis ledger) = id ledger ->
  (forall a, after = Some a -> ledgerId a = id ledger) ->
  ledgerId (orGenesis after ledger) = id ledger.
Proof.
  intros Hg Ha. destruct after as [a|]; simpl; [apply Ha; reflexivity | exact Hg].
Qed.

Lemma tryExecuteSelector_position
      (ledger : Ledger) (limit : Z) (bytes : list Z) (after : option EventID)
      (w w1 : World DbState) (p : EventID) (rows : list EventRow) :
  ledgerId (genesis ledger) = id ledger ->
  (forall a, after = Some a -> ledgerId a = id ledger) ->
  tryExecuteSelector exec ledger limit bytes after w = (Ok (p, rows), w1) ->
  ledgerId p = id ledger.
Proof.
  intros Hg Ha. unfold tryExecuteSelector, tryCatch. unfold bind at 1.
  match goal with |- context [sql exec ?c w] =>
    destruct (sql exec c w) as [[r | x] w2] end.
  - destruct (rowsOf r) as [|idRow rest]; unfold ret; intros H; injection H as <- _ _.
    + apply orGenesis_ledger; assumption.
    + reflexivity.
  - destruct x as [s m | m | code m cn]; unfold throw; try discriminate.
    destruct (str_eqb code (u "42601")); [discriminate|].
    destruct (startsWith m (u "AFTER not found")); [|discriminate].
    destruct after as [a|]; [|discriminate].
    unfold bind, lift. destruct (EventId.eventIdToString a); discriminate.
Qed.

Lemma continueSelector_position
      (bytes : list Z) (p : EventID) (limit : Z) (rows : list EventRow)
      (w w1 : World DbState) (r : SelectorResult) :
  continueSelector instantToString bytes p limit rows w = (Ok r, w1) ->
  position r = p.
Proof.
  unfold continueSelector.
  destruct (Z.of_nat (length rows) <? EVENT_BATCH_SIZE).
  - unfold bind, lift. destruct (mapRows instantToString (ledgerId p) rows);
      [|discriminate].
    unfold ret. intros H; injection H as <- _. reflexivity.
  - unfold ret. intros H; injection H as <- _. reflexivity.
Qed.

(** X13. On a ledger whose genesis id carries the ledger's id, the
    position that a selection returns, and the event id that
    [latestEventId] returns, carry the ledger's id: whether it comes from
    a row of the database, from [after], or from the genesis. *)
Theorem returned_positions_are_of_the_ledger
        (ledger : Ledger) (selector : Selector) (query : jsstring)
        (w : World DbState) :
  ledgerId (genesis ledger) = id ledger ->
  (forall r w1,
     executeSelector exec instantToString ledger selector query w = (Ok r, w1) ->
     ledgerId (position r) = id ledger) /\
  (forall e w1,
     latestEventId exec JSON_stringify ledger selector w = (Ok e, w1) ->
     ledgerId e = id ledger).
Proof.
  intros Hg. split.
  - intros r w1. unfold executeSelector. unfold bind at 1.
    destruct (validateAfterInLedger (after selector) ledger w) as [[[] | x] w2] eqn:Ev;
      [|discriminate].
    destruct (validateAfterInLedger_inv _ _ _ Ev) as [-> Ha].
    unfold bind at 1.
    match goal with |- context [tryExecuteSelector exec ?l ?n ?b ?a w] =>
      destruct (tryExecuteSelector exec l n b a w) as [[[p rows] | x] w3] eqn:Et
    end; [|discriminate].
    pose proof (tryExecuteSelector_position _ _ _ _ Hg Ha Et) as Hp.
    destruct rows as [|row rows].
    + unfold ret. intros H; injection H as <- _. exact Hp.
    + intros H. rewrite (continueSelector_position _ _ _ _ _ H). exact Hp.
  - intros e w1. unfold latestEventId. unfold bind at 1.
    destruct (validateAfterInLedger (after selector) ledger w) as [[[] | x] w2] eqn:Ev;
      [|discriminate].
    destruct (validateAfterInLedger_inv _ _ _ Ev) as [-> Ha].
    unfold bind at 1, lift.
    destruct (SelectorSql.unknownSelectorToSql JSON_stringify selector) as [q | x];
      [|discriminate].
    unfold bind.
    match goal with |- context [sql exec ?c w] =>
      destruct (sql exec c w) as [[r | x] w3] end; [|discriminate].
    destruct (rowsOf r) as [|idRow rest]; unfold ret; intros H; injection H as <- _.
    + apply orGenesis_ledger; assumption.
    + reflexivity.
Qed.

(** A call of [fetch_selected] on this ledger with this selector, for
    at least one row and at most [EVENT_BATCH_SIZE]. *)
Definition batchFetch (ledgerId : jsstring) (selectorBytes : list Z) (c : DbCall)
  : Prop :=
  match c with
  | FetchSelected lid _ limit bytes =>
      lid = ledgerId /\ bytes = selectorBytes /\ 1 <= limit <= EVENT_BATCH_SIZE
  | _ => False
  end.

Lemma minLimit_batch (totalLimit : Limit) :
  positive totalLimit = true ->
  1 <= minLimit totalLimit EVENT_BATCH_SIZE <= EVENT_BATCH_SIZE.
Proof.
  unfold EVENT_BATCH_SIZE. destruct totalLimit as [n|]; simpl; [|lia].
  intros H. apply Z.ltb_lt in H. lia.
Qed.

Lemma selectLoop_batches (fuel : nat) :
  forall (ledgerId : jsstring) (after : Long) (totalLimit : Limit)
         (selectorBytes : list Z) (w : World DbState),
  exists more,
    calls (snd (selectLoop exec fuel ledgerId after totalLimit selectorBytes w))
    = calls w ++ more /\
    Forall (batchFetch ledgerId selectorBytes) more.
Proof.
  induction fuel as [|fuel IH]; intros lid aft tl bytes w; simpl.
  - exists []. rewrite app_nil_r. split; [|constructor].
    destruct (positive tl); reflexivity.
  - destruct (positive tl) eqn:Hpos;
      [|exists []; rewrite app_nil_r; split; [reflexivity | constructor]].
    pose proof (minLimit_batch _ Hpos) as Hmin.
    unfold fetchRows. unfold bind at 1. unfold bind at 1.
    match goal with |- context [sql exec ?c w] =>
      pose proof (@adds_sql _ exec c w) as Hc;
      assert (Hb : batchFetch lid bytes c) by (simpl; auto);
      destruct (sql exec c w) as [[r | x] w1]
    end; simpl in Hc.
    + unfold ret at 1. destruct (rowsOf r) as [|row rows].
      * eexists. split; [exact Hc | constructor; [exact Hb | constructor]].
      * unfold bind.
        match goal with |- context [selectLoop exec fuel ?l ?a ?t ?b w1] =>
          destruct (IH l a t b w1) as [more [Hm Hall]];
          destruct (selectLoop exec fuel l a t b w1) as [[o | x] w2]
        end; simpl in *; rewrite Hm, Hc, <- app_assoc; eexists;
          (split; [reflexivity | constructor; assumption]).
    + eexists. split; [exact Hc | constructor; [exact Hb | constructor]].
Qed.

(** X14. Whatever the database answers, the continuation of a selection
    asks it for nothing but batches: every call that [selectEvents]
    issues is [fetch_selected] on the ledger of the start position, with
    the bytes of the selector, for at least 1 and at most 100 rows. *)
Theorem continuation_fetches_batches_of_1_to_100
        (fuel : nat) (start : EventID) (totalLimit : Z) (selectorBytes : list Z)
        (w : World DbState) :
  exists more,
    calls (snd (selectEvents exec fuel start totalLimit selectorBytes w))
    = calls w ++ more /\
    Forall (batchFetch (ledgerId start) selectorBytes) more.
Proof. unfold selectEvents. apply selectLoop_batches. Qed.

(** The database returns no more rows than [fetch_selected] is asked
    for. *)
Definition respectsLimit : Prop :=
  forall st lid after limit bytes,
    Z.of_nat (length (rowsOf (fst (exec st (FetchSelected lid after limit bytes)))))
    <= Z.max 0 limit.

Lemma selectLoop_bounded (fuel : nat) :
  respectsLimit ->
  forall (n : Z) (ledgerId : jsstring) (after : Long) (selectorBytes : list Z)
         (w : World DbState),
  n <= Z.of_nat fuel ->
  match selectLoop exec fuel ledgerId after (Bounded n) selectorBytes w with
  | (Ok (Some rows), _) => Z.of_nat (length rows) <= Z.max 0 n
  | (Ok None, _) => False
  | (Throw _, _) => True
  end.
Proof.
  intros Hdb. induction fuel as [|fuel IH]; intros n lid aft bytes w Hn.
  - simpl. destruct (Z.ltb_spec 0 n); [lia|]. simpl. lia.
  - cbn [selectLoop positive]. destruct (Z.ltb_spec 0 n) as [Hpos | Hpos];
      [|simpl; lia].
    unfold fetchRows. unfold bind at 1. unfold bind at 1. unfold sql.
    pose proof (Hdb (db w) lid aft (minLimit (Bounded n) EVENT_BATCH_SIZE) bytes) as Hlen.
    destruct (exec (db w) (FetchSelected lid aft (minLimit (Bounded n) EVENT_BATCH_SIZE) bytes))
      as [r st'].
    cbn [fst] in Hlen.
    assert (Hle : Z.of_nat (length (rowsOf r)) <= n).
    { unfold minLimit, EVENT_BATCH_SIZE in Hlen. lia. }
    destruct r as [rows | eid | x]; cbn [rowsOf] in *; try unfold ret at 1.
    + destruct rows as [|row rows]; [simpl; lia|].
      unfold bind. cbn [minus].
      match goal with |- context [selectLoop exec fuel ?l ?a (Bounded ?k) ?b ?w1] =>
        pose proof (IH k l a b w1) as IHk;
        destruct (selectLoop exec fuel l a (Bounded k) b w1) as [[[more|] | x] w2]
      end.
      * unfold ret. cbn [option_map]. rewrite length_app.
        assert (Hk : Z.of_nat (length more)
                     <= Z.max 0 (n - Z.of_nat (length (row :: rows)))).
        { apply IHk. cbn [length] in *. lia. }
        cbn [length] in *. lia.
      * apply IHk. cbn [length] in *. lia.
      * exact I.
    + simpl. lia.
    + exact I.
Qed.

(** X15. With a limit above 0 and a database that returns no more rows
    than it is asked for, [selectEvents] ends within [totalLimit]
    fetches and yields at most [totalLimit] rows. *)
Theorem selectEvents_ends_within_its_limit
        (fuel : nat) (start : EventID) (totalLimit : Z) (selectorBytes : list Z)
        (w : World DbState) :
  respectsLimit ->
  0 < totalLimit ->
  totalLimit <= Z.of_nat fuel ->
  match selectEvents exec fuel start totalLimit selectorBytes w with
  | (Ok (Some rows), _) => Z.of_nat (length rows) <= totalLimit
  | (Ok None, _) => False
  | (Throw _, _) => True
  end.
Proof.
  intros Hdb Hpos Hfuel. unfold selectEvents.
  destruct (Z.eqb_spec totalLimit 0) as [E | _]; [lia|].
  pose proof (@selectLoop_bounded fuel Hdb totalLimit (ledgerId start)
                (timestamp start) selectorBytes w Hfuel) as H.
  destruct (selectLoop exec fuel (ledgerId start) (timestamp start)
              (Bounded totalLimit) selectorBytes w) as [[[rows|] | x] w1];
    [lia | exact H | exact I].
Qed.

End Source.

(** An event id of another ledger. *)
Definition foreignAfter : EventID :=
  {| timestamp := 5; checksum := 0; ledgerId := u "deadbeef" |}.

Definition afterForeign : Selector :=
  {| entities := None; meta := None; events := None;
     after := Some foreignAfter; limit := None |}.

Lemma foreign_after_is_refused_before_any_query_witness :
  allEvents silentDb noInstant demoLedger afterForeign (freshWorld tt)
  = (Throw (BadRequest FOREIGN_AFTER), freshWorld tt) /\
  runFilter silentDb noStringify noInstant demoLedger afterForeign (freshWorld tt)
  = (Throw (BadRequest FOREIGN_AFTER), freshWorld tt) /\
  latestEventId silentDb noStringify demoLedger afterForeign (freshWorld tt)
  = (Throw (BadRequest FOREIGN_AFTER), freshWorld tt).
Proof.
  apply (@foreign_after_is_refused_before_any_query unit silentDb noStringify
           noInstant demoLedger afterForeign foreignAfter (freshWorld tt)).
  - reflexivity.
  - discriminate.
Defined.

(** A database that finds a syntax error in every predicate. *)
Definition syntaxErrorDb : unit -> DbCall -> DbResponse * unit :=
  fun st _ =>
    (DbError (PostgresError (u "42601") (u "syntax error at or near )") None), st).

Lemma rejected_selection_is_400_or_503_witness :
  fst (executeSelector syntaxErrorDb noInstant demoLedger emptySelector (u "()")
         (freshWorld tt))
  = Throw (BadRequest (u "syntax error at or near )")).
Proof.
  apply (@rejected_selection_is_400_or_503 unit syntaxErrorDb noInstant demoLedger
           emptySelector (u "()") (u "42601") (u "syntax error at or near )")
           None (freshWorld tt) tt).
  - exact I.
  - reflexivity.
  - reflexivity.
Defined.

Lemma returned_positions_are_of_the_ledger_witness :
  ledgerId (genesis demoLedger) = id demoLedger /\
  forall e w1,
    latestEventId silentDb noStringify demoLedger emptySelector (freshWorld tt)
    = (Ok e, w1) ->
    ledgerId e = id demoLedger.
Proof.
  split; [reflexivity|].
  exact (proj2 (@returned_positions_are_of_the_ledger unit silentDb noStringify
                  noInstant demoLedger emptySelector (u "true") (freshWorld tt)
                  eq_refl)).
Defined.

Lemma refDb_respectsLimit : respectsLimit RefDb.exec.
Proof.
  intros st lid aft lim bytes. simpl. unfold RefDb.take.
  pose proof (firstn_le_length (Z.to_nat lim) (RefDb.rowsAfter st aft)). lia.
Defined.

Lemma selectEvents_ends_within_its_limit_witness :
  match selectEvents RefDb.exec 150
          {| timestamp := 100; checksum := 0; ledgerId := u "3b9c0ad0" |}
          150 [116; 114; 117; 101] (freshWorld (RefDb.ledgerOf 250)) with
  | (Ok (Some rows), _) => Z.of_nat (length rows) <= 150
  | (Ok None, _) => False
  | (Throw _, _) => True
  end.
Proof.
  apply (@selectEvents_ends_within_its_limit RefDb.State RefDb.exec 150).
  - exact refDb_respectsLimit.
  - lia.
  - lia.
Defined.

End SourceFacts.

(* ===================================================================== *)
(** * Event store: the calls of an append, replays, and database errors   *)
(* ===================================================================== *)

Module StoreFacts.
Import EventStore.

Lemma strings_eqb_refl (xs : list jsstring) : strings_eqb xs xs = true.
Proof.
  induction xs as [|x xs IH]; simpl; [reflexivity|].
  rewrite str_eqb_refl. exact IH.
Qed.

Lemma isEqualEntities_refl (a : EntitiesRecord) :
  NoDup (okeys a) -> isEqualEntities a a = true.
Proof.
  intros Hnd. unfold isEqualEntities. rewrite Nat.eqb_refl. simpl.
  apply forallb_forall. intros [k keys] Hin. simpl.
  rewrite (In_oget _ _ _ Hnd Hin). apply strings_eqb_refl.
Qed.

Lemma isEqual_refl (v : jsval) : wfValue v -> isEqual v v = true.
Proof.
  induction v as [ | b | n | s | xs IH | kvs IH] using jsval_nested_ind;
    intros Hwf; simpl.
  - reflexivity.
  - destruct b; reflexivity.
  - apply Z.eqb_refl.
  - apply str_eqb_refl.
  - inversion Hwf as [ | | | | ? Hxs | ]; subst. clear Hwf.
    induction xs as [|x xs IHxs]; [reflexivity|].
    inversion IH as [|? ? Hx Hrest]; subst.
    inversion Hxs as [|? ? Hwx Hwrest]; subst.
    rewrite (Hx Hwx). simpl. apply IHxs; assumption.
  - inversion Hwf as [ | | | | | ? Hnd Hkvs]; subst.
    rewrite Nat.eqb_refl. simpl. apply forallb_forall. intros [k x] Hin. simpl.
    rewrite (In_oget _ _ _ Hnd Hin).
    rewrite Forall_forall in IH, Hkvs.
    apply (IH (k, x) Hin). apply (Hkvs (k, x) Hin).
Qed.

Section Store.

Variable DbState : Type.
Variable exec : DbState -> DbCall -> DbResponse * DbState.
Variable JSON_stringify : jsval -> jsstring.
Variable createId : World DbState -> jsstring.
Variable getEvent : Ledger -> jsstring -> M DbState (option Registry.EventType).

Local Open Scope m_scope.

(** The key that [maybeIdempotent] looks up. *)
Definition lookupKey (event : AppendEvent) : jsstring :=
  match idempotencyKey event with
  | Some k => k
  | None => u "NO_IDEMPOTENCY_KEY"
  end.

Lemma adds_maybeIdempotent (ledger : Ledger) (event : AppendEvent)
      (appendResult : AppendResult) :
  adds (maybeIdempotent exec ledger event appendResult)
       [FindWithAppendKey (id ledger) (lookupKey event)].
Proof.
  unfold maybeIdempotent. fold (lookupKey event).
  apply adds_bind_quiet; [apply adds_sql|].
  intros r. destruct (rowsOf r) as [|stored rest]; [apply quiet_ret|].
  match goal with |- context [if ?c then _ else _] => destruct c end.
  - apply quiet_bind; [apply quiet_lift | intros; apply quiet_ret].
  - apply quiet_throw.
Qed.

Lemma quiet_internalError : quiet (internalError createId).
Proof. intros w. reflexivity. Qed.

(** X16. An append writes once: after the registry validation,
    [tryAppendResult] issues one [append_event] call and, only when that
    call was rejected, at most one [find_with_append_key] call; it never
    calls [append_event] again. *)
Theorem append_calls_append_event_once
        (ledger : Ledger) (event : AppendEvent) (values : AppendEventPostgres)
        (w : World DbState) :
  exists tail,
    calls (snd (tryAppendResult exec createId ledger event values w))
    = calls w ++ AppendEventCall values :: tail /\
    (tail = [] \/
     tail = [FindWithAppendKey (id ledger) (lookupKey event)] /\
     exists e, fst (exec (db w) (AppendEventCall values)) = DbError e).
Proof.
  unfold tryAppendResult, tryCatch. unfold bind at 1. unfold sql at 1.
  destruct (exec (db w) (AppendEventCall values)) as [r st1] eqn:Hexec.
  set (w1 := {| db := st1; calls := calls w ++ [AppendEventCall values] |}).
  assert (Hquiet : forall (m : M DbState AppendResult),
             quiet m ->
             exists tail,
               calls (snd (m w1)) = calls w ++ AppendEventCall values :: tail /\
               (tail = [] \/
                tail = [FindWithAppendKey (id ledger) (lookupKey event)] /\
                exists e, fst (r, st1) = DbError e)).
  { intros m Hm. exists []. rewrite (Hm w1). auto. }
  assert (Hadds : forall (m : M DbState AppendResult) e,
             r = DbError e ->
             adds m [FindWithAppendKey (id ledger) (lookupKey event)] ->
             exists tail,
               calls (snd (m w1)) = calls w ++ AppendEventCall values :: tail /\
               (tail = [] \/
                tail = [FindWithAppendKey (id ledger) (lookupKey event)] /\
                exists e, fst (r, st1) = DbError e)).
  { intros m e Hr Hm. exists [FindWithAppendKey (id ledger) (lookupKey event)].
    rewrite (Hm w1). subst w1. simpl. rewrite <- app_assoc. split; [reflexivity|].
    right. split; [reflexivity|]. exists e. exact Hr. }
  destruct r as [rows | eid | x].
  - apply (Hquiet (throw (JsError (u "TypeError")))). apply quiet_throw.
  - apply (Hquiet (ret (success eid (appendKey values)))). apply quiet_ret.
  - destruct x as [s m | m | code m cn];
      try (apply (Hquiet (internalError createId)); apply quiet_internalError).
    destruct (startsWith m (u "RACE CONDITION")).
    { destruct (nonEmptyString (appendKey values)).
      - eapply Hadds; [reflexivity | apply adds_maybeIdempotent].
      - apply (Hquiet (ret raceResult)). apply quiet_ret. }
    match goal with |- context [if ?c then _ else _] => destruct c end.
    { eapply Hadds; [reflexivity | apply adds_maybeIdempotent]. }
    repeat match goal with |- context [if ?c then _ else _] =>
      destruct c; [apply (Hquiet (ret _)); apply quiet_ret|] end.
    apply (Hquiet (internalError createId)). apply quiet_internalError.
Qed.

(** The database refuses the append, as a race or because the key is
    taken, and holds [stored] under the key. *)
Definition keyIsTaken (ledger : Ledger) (event : AppendEvent)
           (values : AppendEventPostgres) (w : World DbState) (stored : EventRow)
  : Prop :=
  exists code msg constraint_name st1 rest st2,
    exec (db w) (AppendEventCall values)
    = (DbError (PostgresError code msg constraint_name), st1) /\
    (startsWith msg (u "RACE CONDITION") = true \/
     exists c, constraint_name = Some c /\ endsWith c (u "_append_key_key") = true) /\
    exec st1 (FindWithAppendKey (id ledger) (lookupKey event))
    = (Rows (stored :: rest), st2).

(** X17. When [append_event] is refused, as a race or because the append
    key is taken, and [find_with_append_key] returns the event stored
    under the key: an input with the same event name, entities, meta and
    data is answered SUCCESS with the id of the stored event and the same
    key, and an input with another event name is refused with 422. *)
Theorem replay_is_answered_from_the_stored_event
        (ledger : Ledger) (event : AppendEvent) (values : AppendEventPostgres)
        (w : World DbState) (stored : EventRow) (key storedId : jsstring)
        (meta data : jsval) :
  idempotencyKey event = Some key ->
  appendKey values = key ->
  key <> [] ->
  keyIsTaken ledger event values w stored ->
  EventId.toEventIdString (row_timestamp stored)
    (checksumToInt (row_checksum stored)) (id ledger) = Ok storedId ->
  (row_event stored = ae_event event ->
   row_entities stored = ae_entities event ->
   NoDup (okeys (ae_entities event)) ->
   ae_meta event = Some meta -> row_meta stored = meta -> wfValue meta ->
   ae_data event = Some data -> row_data stored = data -> wfValue data ->
   fst (tryAppendResult exec createId ledger event values w)
   = Ok (success storedId key)) /\
  (row_event stored <> ae_event event ->
   status_of (fst (tryAppendResult exec createId ledger event values w))
   = Some 422).
Proof.
  intros Hkey Hvalues Hne [code [msg [cn [st1 [rest [st2 [Hexec [Hwhy Hfind]]]]]]]] Hid.
  assert (Hk : lookupKey event = key) by (unfold lookupKey; rewrite Hkey; reflexivity).
  assert (Hnon : nonEmptyString (appendKey values) = true).
  { rewrite Hvalues. destruct key; [congruence | reflexivity]. }
  assert (Hrun : exists R,
             tryAppendResult exec createId ledger event values w
             = maybeIdempotent exec ledger event R
                 {| db := st1; calls := calls w ++ [AppendEventCall values] |}).
  { unfold tryAppendResult, tryCatch. unfold bind at 1. unfold sql at 1.
    rewrite Hexec, Hnon.
    destruct (startsWith msg (u "RACE CONDITION")) eqn:Hrace.
    - eexists. reflexivity.
    - destruct Hwhy as [Hw | [c [-> Hc]]]; [discriminate|].
      rewrite Hc. eexists. reflexivity. }
  destruct Hrun as [R Hrun].
  rewrite Hrun. unfold maybeIdempotent. fold (lookupKey event).
  unfold bind at 1. unfold bind at 2. unfold sql. cbn [db calls].
  rewrite Hfind. cbn [rowsOf]. split.
  - intros He Hen Hnd Hm Hrm Hwm Hd Hrd Hwd.
    rewrite He, Hen, Hm, Hrm, Hd, Hrd, str_eqb_refl.
    rewrite (@isEqualEntities_refl _ Hnd). unfold isEqualOpt.
    rewrite (@isEqual_refl _ Hwm), (@isEqual_refl _ Hwd). cbn [andb].
    unfold bind, lift. rewrite Hid, Hk. reflexivity.
  - intros He.
    assert (E : str_eqb (ae_event event) (row_event stored) = false).
    { destruct (str_eqb (ae_event event) (row_event stored)) eqn:E; [|reflexivity].
      apply str_eqb_eq in E. congruence. }
    rewrite E. reflexivity.
Qed.

(** X18. What [append_event] rejects reaches the caller as follows: a
    [RACE CONDITION] with no event stored under the key is the result
    RACE; the message [previous_id must exist in the ledger] is the
    result ERROR; an error that is not of the database, and a database
    error that the store does not know, are thrown as 500. *)
Theorem rejected_append_is_a_result_or_500
        (ledger : Ledger) (event : AppendEvent) (values : AppendEventPostgres)
        (w : World DbState) (err : exn) (st1 : DbState) :
  exec (db w) (AppendEventCall values) = (DbError err, st1) ->
  (forall code msg cn st2,
     err = PostgresError code msg cn ->
     startsWith msg (u "RACE CONDITION") = true ->
     exec st1 (FindWithAppendKey (id ledger) (lookupKey event)) = (Rows [], st2) ->
     fst (tryAppendResult exec createId ledger event values w) = Ok raceResult) /\
  (forall code cn,
     err = PostgresError code (u "previous_id must exist in the ledger") cn ->
     (forall c, cn = Some c -> endsWith c (u "_append_key_key") = false) ->
     fst (tryAppendResult exec createId ledger event values w)
     = Ok (errorResult (u "Previous Event ID is not found in ledger."))) /\
  ((forall code msg cn, err <> PostgresError code msg cn) ->
   status_of (fst (tryAppendResult exec createId ledger event values w)) = Some 500) /\
  (forall code msg cn,
     err = PostgresError code msg cn ->
     (forall c, cn = Some c -> endsWith c (u "_append_key_key") = false) ->
     startsWith msg (u "RACE CONDITION") = false ->
     str_eqb msg (u "previous can only be genesis for first event") = false ->
     str_eqb msg (u "previous_id must exist in the ledger") = false ->
     startsWith msg (u "AFTER not found") = false ->
     status_of (fst (tryAppendResult exec createId ledger event values w)) = Some 500).
Proof.
  intros Hexec.
  assert (Hrun : forall handler : exn -> M DbState AppendResult,
    tryCatch
      (r <- sql exec (AppendEventCall values) ;;
       match r with
       | EventIdRow eventId => ret (success eventId (appendKey values))
       | _ => throw (JsError (u "TypeError"))
       end) handler w
    = handler err {| db := st1; calls := calls w ++ [AppendEventCall values] |}).
  { intros handler. unfold tryCatch, bind, sql. rewrite Hexec. reflexivity. }
  unfold tryAppendResult. rewrite Hrun. clear Hrun.
  split; [|split; [|split]].
  - intros code msg cn st2 -> Hrace Hfind. rewrite Hrace.
    destruct (nonEmptyString (appendKey values)); [|reflexivity].
    unfold maybeIdempotent. fold (lookupKey event).
    unfold bind, sql. cbn [db calls]. rewrite Hfind. reflexivity.
  - intros code cn -> Hcn. cbn [startsWith].
    assert (E : nonEmptyString (appendKey values)
                && match cn with
                   | Some c => endsWith c (u "_append_key_key")
                   | None => false
                   end = false).
    { destruct cn as [c|]; [rewrite (Hcn c eq_refl)|]; apply andb_false_r. }
    change (startsWith (u "previous_id must exist in the ledger") (u "RACE CONDITION"))
      with false.
    cbv iota. rewrite E. reflexivity.
  - intros Hnot. destruct err as [s m | m | code m cn]; try reflexivity.
    elim (Hnot code m cn). reflexivity.
  - intros code msg cn -> Hcn Hrace H1 H2 H3.
    assert (E : nonEmptyString (appendKey values)
                && match cn with
                   | Some c => endsWith c (u "_append_key_key")
                   | None => false
                   end = false).
    { destruct cn as [c|]; [rewrite (Hcn c eq_refl)|]; apply andb_false_r. }
    rewrite Hrace, E, H1, H2, H3. reflexivity.
Qed.

End Store.

(** A ledger that holds one event, appended with the key [K]. *)
Definition storedRow : EventRow :=
  {| row_timestamp := 1; row_checksum := 0;
     row_event := u "x";
     row_entities := [(u "e", [u "1"])];
     row_meta := JObj [(u "by", JStr (u "ann"))];
     row_data := JObj [(u "n", JNum 1)] |}.

Definition oneStored : RefDb.State :=
  [{| RefDb.st_row := storedRow; RefDb.st_key := u "K" |}].

Definition replayed : AppendEvent :=
  keyed (Some (JObj [(u "by", JStr (u "ann"))])) (Some (JObj [(u "n", JNum 1)])).

Definition replayedValues : AppendEventPostgres :=
  {| previousEventId := u "00000000000000000000000000000000";
     ap_event := u "x";
     ap_entities := [(u "e", [u "1"])];
     ap_meta := JObj [(u "by", JStr (u "ann"))];
     ap_data := JObj [(u "n", JNum 1)];
     appendKey := u "K";
     ap_selector := [] |}.

Lemma oneStored_keyIsTaken :
  keyIsTaken RefDb.exec demoLedger replayed replayedValues
    (EventSource.freshWorld oneStored) storedRow.
Proof.
  exists (u "23505"), (u "duplicate key value violates unique constraint"),
    (Some RefDb.APPEND_KEY_CONSTRAINT), oneStored, [], oneStored.
  split; [reflexivity|]. split; [|reflexivity].
  right. exists RefDb.APPEND_KEY_CONSTRAINT. split; reflexivity.
Defined.

Lemma replay_is_answered_from_the_stored_event_witness :
  fst (tryAppendResult RefDb.exec demoId demoLedger replayed replayedValues
         (EventSource.freshWorld oneStored))
  = Ok (success (u "0000000000000001000000003b9c0ad0") (u "K")).
Proof.
  refine (proj1 (@replay_is_answered_from_the_stored_event
                   RefDb.State RefDb.exec demoId demoLedger replayed replayedValues
                   (EventSource.freshWorld oneStored) storedRow (u "K")
                   (u "0000000000000001000000003b9c0ad0")
                   (JObj [(u "by", JStr (u "ann"))]) (JObj [(u "n", JNum 1)])
                   eq_refl eq_refl _ oneStored_keyIsTaken eq_refl)
                eq_refl eq_refl _ eq_refl eq_refl _ eq_refl eq_refl _).
  - discriminate.
  - repeat constructor. simpl. intuition.
  - vm_compute. repeat constructor; intuition discriminate.
  - vm_compute. repeat constructor; intuition discriminate.
Defined.

(** A database on which every append loses a race, and no key is known. *)
Definition racingDb (st : unit) (c : DbCall) : DbResponse * unit :=
  match c with
  | AppendEventCall _ =>
      (DbError (PostgresError (u "P0001")
                  (u "RACE CONDITION: newer events match the selector") None), st)
  | _ => (Rows [], st)
  end.

Lemma rejected_append_is_a_result_or_500_witness :
  fst (tryAppendResult racingDb demoId demoLedger replayed replayedValues
         (EventSource.freshWorld tt))
  = Ok raceResult.
Proof.
  exact (proj1 (@rejected_append_is_a_result_or_500
                  unit racingDb demoId demoLedger replayed replayedValues
                  (EventSource.freshWorld tt) _ tt eq_refl)
           (u "P0001") (u "RACE CONDITION: newer events match the selector")
           None tt eq_refl eq_refl eq_refl).
Defined.

End StoreFacts.

(* ===================================================================== *)
(** * Subscriptions of a channel (notify/channel.ts)                      *)
(* ===================================================================== *)

Module Subscriptions.
Import Notify SelectorUtils.

(** [const {limit, ...selector} = selectorIn]. *)
Definition dropLimit (selectorIn : Selector) : Selector :=
  {| entities := entities selectorIn;
     meta := meta selectorIn;
     events := events selectorIn;
     after := after selectorIn;
     limit := None |}.




Section Channel.

(** The selector codec with its string tokens, and the JSONPath engine
    of the matcher. *)
Variable pack : Compressed -> jsstring.
Variable compile : jsstring -> option (jsval -> option UnknownObject -> bool).

(** [handleSubscribe] of channel.ts. [newId] is what [createId()]
    returns when it is called. The matcher of a filter is compiled from
    its selector; a selector that does not compile is not subscribed. *)
Definition channelSubscribe (newId : jsstring) (filters : FilterMap)
           (selectorIn : Selector) : result (jsstring * FilterMap) :=
  let selector := dropLimit selectorIn in
  match encodeUnknownSelector pack selector with
  | Throw err => Throw err
  | Ok key =>
      match oget key filters with
      | Some filter => Ok (filter_id filter, filters)
      | None =>
          match Matcher.createMatcher compile selector with
          | Throw err => Throw err
          | Ok _ =>
              Ok (newId,
                  oset key {| filter_id := newId; filter_selector := selector |}
                       filters)
          end
      end
  end.




(** No subscription of the channel has this id. *)
Definition unusedId (newId : jsstring) (filters : FilterMap) : Prop :=
  forall key filter, In (key, filter) filters -> filter_id filter <> newId.

(** The ids of the subscriptions are distinct. *)
Definition distinctIds (filters : FilterMap) : Prop :=
  NoDup (channelSubscriptions filters).

Lemma validSelector_dropLimit (s : Selector) :
  validSelector s -> validSelector (dropLimit s).
Proof.
  intros [He [Hm [Hd [Ha _]]]]. repeat split; try assumption.
Qed.

Lemma encodeFilterSelector_compressedOf (s : Selector) :
  encodeFilterSelector pack s
  = match andThen (after s) EventId.toEventIdBytes with
    | Throw err => Throw err
    | Ok bytes => Ok (pack (compressedOf s bytes))
    end.
Proof. reflexivity. Qed.

Lemma key_reordered (s s' : Selector) :
  validSelector s -> validSelector s' ->
  reorderedSelector (dropLimit s) (dropLimit s') ->
  encodeUnknownSelector pack (dropLimit s')
  = encodeUnknownSelector pack (dropLimit s).
Proof.
  intros Hv Hv' R.
  rewrite !encodeUnknownSelector_filter, !encodeFilterSelector_compressedOf.
  assert (Ha : after (dropLimit s) = after (dropLimit s')) by apply R.
  rewrite <- Ha.
  destruct (andThen (after (dropLimit s)) EventId.toEventIdBytes) as [bytes|err];
    [|reflexivity].
  f_equal. f_equal.
  apply compressedOf_reordered; auto using validSelector_dropLimit.
Qed.

Lemma findFilter_app_new (fs : FilterMap) (key sid : jsstring)
      (f : SubscriptionFilter) :
  unusedId sid fs -> filter_id f = sid ->
  findFilter (fs ++ [(key, f)]) sid = Some (key, f).
Proof.
  intros Hun Hid. induction fs as [|[k g] rest IH]; simpl.
  - rewrite Hid, str_eqb_refl. reflexivity.
  - destruct (str_eqb (filter_id g) sid) eqn:E.
    + apply str_eqb_eq in E. elim (Hun k g); simpl; auto.
    + apply IH. intros k' g' Hin. apply (Hun k' g'). simpl; auto.
Qed.

Lemma odelete_app_new {V} (m : omap V) (k : jsstring) (v : V) :
  ~ In k (okeys m) -> odelete k (m ++ [(k, v)]) = m.
Proof.
  induction m as [|[k' v'] r IH]; simpl; intros H.
  - rewrite str_eqb_refl. reflexivity.
  - destruct (str_eqb k k') eqn:E.
    + apply str_eqb_eq in E. subst. elim H; auto.
    + f_equal. apply IH. intros Hin. apply H; auto.
Qed.

(** What a subscription that is not there yet does to the map. *)
Lemma channelSubscribe_new (newId : jsstring) (filters filters1 : FilterMap)
      (s : Selector) (sid : jsstring) :
  channelSubscribe newId filters s = Ok (sid, filters1) ->
  (exists key,
      encodeUnknownSelector pack (dropLimit s) = Ok key /\
      ((exists filter, oget key filters = Some filter /\
                       filter_id filter = sid /\ filters1 = filters) \/
       (oget key filters = None /\ sid = newId /\
        (exists matcher, Matcher.createMatcher compile (dropLimit s) = Ok matcher) /\
        filters1 = filters ++ [(key, {| filter_id := newId;
                                        filter_selector := dropLimit s |})]))).
Proof.
  unfold channelSubscribe.
  destruct (encodeUnknownSelector pack (dropLimit s)) as [key|err]; [|discriminate].
  intros H. exists key. split; [reflexivity|].
  destruct (oget key filters) as [f|] eqn:Hget.
  - injection H as <- <-. left. exists f. auto.
  - destruct (Matcher.createMatcher compile (dropLimit s)) as [matcher|err] eqn:Hm;
      [|discriminate].
    injection H as <- <-. right. repeat split; auto.
    + exists matcher. reflexivity.
    + apply oset_fresh. apply oget_None_notin. exact Hget.
Qed.

(** X19. Subscribing is idempotent: once a selector is subscribed, a
    selector that differs from it only in its [limit] and in the order of
    its keys gets the id of the first subscription, whatever id
    [createId] would give, and the subscriptions are left as they are. *)
Theorem subscribing_again_returns_the_same_id
        (newId newId' : jsstring) (filters filters1 : FilterMap)
        (s s' : Selector) (sid : jsstring) :
  validSelector s -> validSelector s' ->
  reorderedSelector (dropLimit s) (dropLimit s') ->
  channelSubscribe newId filters s = Ok (sid, filters1) ->
  channelSubscribe newId' filters1 s' = Ok (sid, filters1).
Proof.
  intros Hv Hv' R H.
  destruct (channelSubscribe_new _ _ _ H) as [key [Hkey Hcase]].
  unfold channelSubscribe. rewrite (key_reordered Hv Hv' R), Hkey.
  destruct Hcase as [[f [Hget [Hid ->]]] | [Hget [-> [_ ->]]]].
  - rewrite Hget, Hid. reflexivity.
  - rewrite <- (@oset_fresh _ key _ filters)
      by (apply oget_None_notin; exact Hget).
    rewrite oget_oset_eq. reflexivity.
Qed.

Lemma findFilter_app_other (fs : FilterMap) (key sid other : jsstring)
      (f : SubscriptionFilter) :
  filter_id f = sid -> other <> sid ->
  findFilter (fs ++ [(key, f)]) other = findFilter fs other.
Proof.
  intros Hid Hne. induction fs as [|[k g] rest IH]; simpl.
  - rewrite Hid. destruct (str_eqb sid other) eqn:E; [|reflexivity].
    apply str_eqb_eq in E. congruence.
  - destruct (str_eqb (filter_id g) other); [reflexivity | exact IH].
Qed.

(** X20. A new subscription is kept under the id that [createId] gave,
    last in the list of subscriptions, with the selector it was made for
    less its [limit], and the other subscriptions are read as before;
    provided no subscription of the channel has that id already. *)
Theorem new_subscription_is_listed_without_its_limit
        (newId : jsstring) (filters filters1 : FilterMap)
        (s : Selector) (sid key : jsstring) :
  encodeUnknownSelector pack (dropLimit s) = Ok key ->
  oget key filters = None ->
  unusedId newId filters ->
  channelSubscribe newId filters s = Ok (sid, filters1) ->
  sid = newId /\
  channelSubscriptions filters1 = channelSubscriptions filters ++ [sid] /\
  channelSubscription filters1 sid = Some (dropLimit s) /\
  (forall other, other <> sid ->
     channelSubscription filters1 other = channelSubscription filters other) /\
  (distinctIds filters -> distinctIds filters1).
Proof.
  intros Hkey Hget Hun H.
  destruct (channelSubscribe_new _ _ _ H) as [key' [Hkey' Hcase]].
  assert (key' = key) by congruence. subst key'.
  destruct Hcase as [[f [Hget' _]] | [_ [-> [_ ->]]]]; [congruence|].
  split; [reflexivity|]. split; [|split; [|split]].
  - unfold channelSubscriptions. rewrite map_app. reflexivity.
  - unfold channelSubscription. rewrite findFilter_app_new; auto.
  - intros other Hne. unfold channelSubscription.
    rewrite (@findFilter_app_other filters key newId other); auto.
  - unfold distinctIds, channelSubscriptions. intros Hd.
    rewrite map_app. simpl.
    apply NoDup_app; [exact Hd | repeat constructor; simpl; tauto |].
    intros x Hin [Hx | []]. simpl in Hx. subst x.
    apply in_map_iff in Hin. destruct Hin as [[k g] [Hg Hin]].
    exact (Hun k g Hin Hg).
Qed.

(** X21. Unsubscribing undoes a new subscription: the subscriptions are
    again what they were before it, and the id reads as no subscription;
    provided no subscription of the channel had that id. *)
Theorem unsubscribe_undoes_a_new_subscription
        (newId : jsstring) (filters filters1 : FilterMap)
        (s : Selector) (sid key : jsstring) :
  encodeUnknownSelector pack (dropLimit s) = Ok key ->
  oget key filters = None ->
  unusedId newId filters ->
  channelSubscribe newId filters s = Ok (sid, filters1) ->
  channelUnsubscribe filters1 sid = filters /\
  channelSubscription (channelUnsubscribe filters1 sid) sid = None.
Proof.
  intros Hkey Hget Hun H.
  destruct (channelSubscribe_new _ _ _ H) as [key' [Hkey' Hcase]].
  assert (key' = key) by congruence. subst key'.
  destruct Hcase as [[f [Hget' _]] | [_ [-> [_ ->]]]]; [congruence|].
  assert (E : channelUnsubscribe
                (filters ++ [(key, {| filter_id := newId;
                                      filter_selector := dropLimit s |})]) newId
              = filters).
  { unfold channelUnsubscribe. rewrite findFilter_app_new; auto. simpl.
    apply odelete_app_new. apply oget_None_notin. exact Hget. }
  split; [exact E|]. rewrite E. unfold channelSubscription.
  rewrite findFilter_None; [reflexivity | exact Hun].
Qed.










(** ** The channels of the ledgers (notify/index.ts) *)

Definition handleOpenChannel (newId : jsstring) (channels : ChannelsMap)
           (ledger : Ledger) : jsstring * ChannelsMap :=
  let channel := {| channel_id := newId; filters := [] |} in
  (newId, oset (createKey ledger newId) channel channels).

(** [handleCloseChannel]; the streams of the channel, which it closes
    last, are not part of the map. *)
Definition handleCloseChannel (channels : ChannelsMap) (ledger : Ledger)
           (channelId : jsstring) : result ChannelsMap :=
  match getChannel channels ledger channelId with
  | Throw x => Throw x
  | Ok _ => Ok (odelete (createKey ledger channelId) channels)
  end.

(** [handleSubscribe] of index.ts: the channel found is updated in
    place. *)
Definition handleSubscribe (newId : jsstring) (channels : ChannelsMap)
           (ledger : Ledger) (channelId : jsstring) (selector : Selector)
  : result (jsstring * ChannelsMap) :=
  match getChannel channels ledger channelId with
  | Throw x => Throw x
  | Ok channel =>
      match channelSubscribe newId (filters channel) selector with
      | Throw x => Throw x
      | Ok (sid, filters') =>
          Ok (sid,
              oset (createKey ledger channelId)
                   {| channel_id := channel_id channel; filters := filters' |}
                   channels)
      end
  end.

Definition getSubscriptions (channels : ChannelsMap) (ledger : Ledger)
           (channelId : jsstring) : result (list jsstring) :=
  match getChannel channels ledger channelId with
  | Throw x => Throw x
  | Ok channel => Ok (channelSubscriptions (filters channel))
  end.

(** The id has no [|] in it. *)
Definition BAR : N := 124.
Definition noBar (s : jsstring) : Prop := ~ In BAR s.

Lemma split_at_bar (a b c d : jsstring) :
  noBar a -> noBar c -> a ++ BAR :: b = c ++ BAR :: d -> a = c /\ b = d.
Proof.
  revert c. induction a as [|x a IH]; intros [|y c] Ha Hc H; simpl in *.
  - injection H as ->. auto.
  - injection H as H _. elim Hc. left. auto.
  - injection H as H _. elim Ha. left. auto.
  - injection H as -> H.
    destruct (IH c) as [-> ->]; auto.
    + intros Hin. apply Ha. right. exact Hin.
    + intros Hin. apply Hc. right. exact Hin.
Qed.

Lemma createKey_inj (l l' : Ledger) (c c' : jsstring) :
  noBar (id l) -> noBar (id l') ->
  createKey l c = createKey l' c' -> id l = id l' /\ c = c'.
Proof.
  unfold createKey. intros Hl Hl' H. apply (@split_at_bar _ _ _ _ Hl Hl'). exact H.
Qed.

(** X24. The channels of a ledger are out of reach of the other ledgers:
    opening a channel, subscribing, unsubscribing and closing on one
    ledger leave what any channel id reads on a ledger of another id as
    it was; provided no ledger id has a [|] in it. *)
Theorem channels_of_a_ledger_are_out_of_reach_of_the_others
        (channels : ChannelsMap) (l l' : Ledger) (c c' : jsstring) :
  noBar (id l) -> noBar (id l') -> id l <> id l' ->
  (forall newId,
     getChannel (snd (handleOpenChannel newId channels l)) l' c'
     = getChannel channels l' c') /\
  (forall newId s sid channels1,
     handleSubscribe newId channels l c s = Ok (sid, channels1) ->
     getChannel channels1 l' c' = getChannel channels l' c') /\
  (forall sid channels1,
     Notify.handleUnsubscribe channels l c sid = Ok channels1 ->
     getChannel channels1 l' c' = getChannel channels l' c') /\
  (forall channels1,
     handleCloseChannel channels l c = Ok channels1 ->
     getChannel channels1 l' c' = getChannel channels l' c').
Proof.
  intros Hl Hl' Hne.
  assert (K : forall x, createKey l' c' <> createKey l x).
  { intros x E. destruct (@createKey_inj _ _ _ _ Hl' Hl E). congruence. }
  unfold getChannel.
  split; [|split; [|split]].
  - intros newId. simpl. rewrite oget_oset_ne; [reflexivity | apply K].
  - intros newId s sid channels1. unfold handleSubscribe, getChannel.
    destruct (oget (createKey l c) channels) as [ch|]; [|discriminate].
    destruct (channelSubscribe newId (filters ch) s) as [[sid' fs]|]; [|discriminate].
    intros H. injection H as _ <-. rewrite oget_oset_ne; [reflexivity | apply K].
  - intros sid channels1. unfold Notify.handleUnsubscribe, getChannel.
    destruct (oget (createKey l c) channels) as [ch|]; [|discriminate].
    intros H. injection H as <-. rewrite oget_oset_ne; [reflexivity | apply K].
  - intros channels1. unfold handleCloseChannel, getChannel.
    destruct (oget (createKey l c) channels) as [ch|]; [|discriminate].
    intros H. injection H as <-. rewrite oget_odelete_ne; [reflexivity | apply K].
Qed.

(** X25. A channel from its opening to its closing: an opened channel
    exists and has no subscription; once it is closed it exists no more,
    and closing it again, subscribing to it and listing its
    subscriptions are refused with 404. *)
Theorem channel_from_opening_to_closing
        (newId newId' : jsstring) (channels : ChannelsMap) (ledger : Ledger)
        (s : Selector) :
  fst (handleOpenChannel newId channels ledger) = newId /\
  handleChannelExists (snd (handleOpenChannel newId channels ledger)) ledger newId
  = true /\
  getSubscriptions (snd (handleOpenChannel newId channels ledger)) ledger newId
  = Ok [] /\
  exists closed,
    handleCloseChannel (snd (handleOpenChannel newId channels ledger)) ledger newId
    = Ok closed /\
    handleChannelExists closed ledger newId = false /\
    status_of (handleCloseChannel closed ledger newId) = Some 404 /\
    status_of (handleSubscribe newId' closed ledger newId s) = Some 404 /\
    status_of (getSubscriptions closed ledger newId) = Some 404.
Proof.
  simpl. split; [reflexivity|].
  unfold handleChannelExists, getSubscriptions, handleCloseChannel,
    handleSubscribe, getChannel.
  rewrite !oget_oset_eq. simpl. split; [reflexivity|]. split; [reflexivity|].
  eexists. split; [reflexivity|].
  rewrite !oget_odelete_eq. simpl. auto.
Qed.

End Channel.
(** A token made of the names of the entities, and an engine that
    compiles no query. *)
Definition namesToken (compressed : Compressed) : jsstring :=
  match e compressed with
  | Some o => join (u ",") (okeys o)
  | None => []
  end.

Definition noEngine : jsstring -> option (jsval -> option UnknownObject -> bool) :=
  fun _ => None.

Definition ordersOf (max : option Z) : Selector :=
  {| entities := Some [(u "order", [u "o-1"]); (u "cart", [u "c-9"])];
     meta := None; events := None; after := None; limit := max |}.

Definition ordersReordered : Selector :=
  {| entities := Some [(u "cart", [u "c-9"]); (u "order", [u "o-1"])];
     meta := None; events := None; after := None; limit := Some 3 |}.

Lemma ordersOf_valid (max : option Z) :
  optValid (fun n => 0 <= n) max -> validSelector (ordersOf max).
Proof.
  intros Hl. unfold validSelector, ordersOf; cbn [entities meta events after limit optValid].
  repeat split; try exact Hl.
  - repeat constructor; simpl; intuition discriminate.
  - repeat constructor; simpl; discriminate.
Qed.

Lemma ordersReordered_valid : validSelector ordersReordered.
Proof.
  unfold validSelector, ordersReordered; cbn [entities meta events after limit optValid].
  repeat split; try lia.
  - repeat constructor; simpl; intuition discriminate.
  - repeat constructor; simpl; discriminate.
Qed.


Definition firstSubscription : FilterMap :=
  [(u "cart,order", {| filter_id := u "s1"; filter_selector := ordersOf None |})].

Lemma subscribing_again_returns_the_same_id_witness :
  channelSubscribe namesToken noEngine (u "s2") firstSubscription ordersReordered
  = Ok (u "s1", firstSubscription).
Proof.
  apply (@subscribing_again_returns_the_same_id namesToken noEngine
           (u "s1") (u "s2") [] firstSubscription (ordersOf (Some 10))
           ordersReordered (u "s1")).
  - apply ordersOf_valid. simpl. lia.
  - exact ordersReordered_valid.
  - unfold reorderedSelector; simpl. repeat split. apply perm_swap.
  - reflexivity.
Defined.

Lemma new_subscription_is_listed_without_its_limit_witness :
  channelSubscription firstSubscription (u "s1") = Some (ordersOf None).
Proof.
  exact (proj1 (proj2 (proj2
    (@new_subscription_is_listed_without_its_limit namesToken noEngine
       (u "s1") [] firstSubscription (ordersOf (Some 10)) (u "s1") (u "cart,order")
       eq_refl eq_refl (fun _ _ (H : In _ []) => match H with end) eq_refl)))).
Defined.

Lemma unsubscribe_undoes_a_new_subscription_witness :
  channelUnsubscribe firstSubscription (u "s1") = [].
Proof.
  exact (proj1
    (@unsubscribe_undoes_a_new_subscription namesToken noEngine
       (u "s1") [] firstSubscription (ordersOf (Some 10)) (u "s1") (u "cart,order")
       eq_refl eq_refl (fun _ _ (H : In _ []) => match H with end) eq_refl)).
Defined.



Definition otherLedger : Ledger :=
  {| id := u "77e5a1f2"; name := name demoLedger;
     description := description demoLedger; genesis := genesis demoLedger |}.

Lemma channels_of_a_ledger_are_out_of_reach_of_the_others_witness :
  getChannel (snd (handleOpenChannel (u "c2") oneChannel otherLedger))
    demoLedger (u "c1")
  = getChannel oneChannel demoLedger (u "c1").
Proof.
  refine (proj1 (@channels_of_a_ledger_are_out_of_reach_of_the_others
                   namesToken noEngine oneChannel otherLedger demoLedger
                   (u "c2") (u "c1") _ _ _) (u "c2")).
  - unfold noBar. vm_compute. intuition discriminate.
  - unfold noBar. vm_compute. intuition discriminate.
  - discriminate.
Defined.

(** With a [|] in a ledger id, a channel of one ledger is read on
    another: the key of channel [c] on ledger [a|b] is the key of channel
    [b|c] on ledger [a]. *)
Example bar_in_ledger_id_shares_channels :
  createKey {| id := u "a|b"; name := []; description := [];
               genesis := genesis demoLedger |} (u "c")
  = createKey {| id := u "a"; name := []; description := [];
                 genesis := genesis demoLedger |} (u "b|c").
Proof. reflexivity. Qed.

End Subscriptions.

(* ===================================================================== *)
(** * Registry listings and writes (registry/postgres-registry.ts)        *)
(* ===================================================================== *)

Module RegistryWrites.
Import Registry.

Definition Forbidden := HttpError 403.





(** The test of [registerEventType] for an event type that is there
    already. *)
Definition sameRegistration (ev : jsstring) (ents : list jsstring)
           (et : EventType) : bool :=
  str_eqb (event et) ev
  && Nat.eqb (length ents) (length (entities et))
  && forallb (fun entity => includes ents entity) (entities et).

(** [stringToBytes("false")]. *)
Definition NONE : list Z := [102; 97; 108; 115; 101].

(** The values of the [append_event] call that writes a marker. *)
Definition markerValues (ledger : Ledger) (action : jsstring) (data : jsval)
           (key : jsstring) : result AppendEventPostgres :=
  match EventId.toEventIdString 0 0 (id ledger) with
  | Throw x => Throw x
  | Ok previousId =>
      Ok {| previousEventId := previousId;
            ap_event := action;
            ap_entities := [(LEDGER, [id ledger])];
            ap_meta := JObj [];
            ap_data := data;
            appendKey := key;
            ap_selector := NONE |}
  end.

Definition registeredData (ev : jsstring) (ents : list jsstring) : jsval :=
  JObj [(u "event", JStr ev); (u "entities", JArr (map JStr ents))].

Definition unregisteredData (ev : jsstring) : jsval :=
  JObj [(u "event", JStr ev)].

Section Writes.

Variable DbState : Type.
Variable exec : DbState -> DbCall -> DbResponse * DbState.
Variable createId : World DbState -> jsstring.

Local Open Scope m_scope.

(** The marker is appended, then the cache entry of the ledger is
    dropped. *)
Definition writeMarker (cache : Cache) (ledger : Ledger) (action : jsstring)
           (data : jsval) : M DbState Cache :=
  fun w =>
    match markerValues ledger action data (createId w) with
    | Throw x => (Throw x, w)
    | Ok values =>
        (_ <- sql exec (AppendEventCall values) ;;
         ret (odelete (id ledger) cache)) w
    end.

(** [registerEventType]; [stream] is what [runFilter] returns to its
    [reduceAllEvents]. The result is the cache it leaves. *)
Definition registerEventType (cache : Cache) (ledger : Ledger)
           (stream : list StreamEvent) (ev : jsstring) (ents : list jsstring)
  : M DbState Cache :=
  if includes ents LEDGER then
    throw (Forbidden (u "Cannot register events to the '" ++ LEDGER
                      ++ u "' entity."))
  else
    events <- lift (reduceAllEvents stream) ;;
    match find (sameRegistration ev ents) events with
    | Some _ => ret cache
    | None => writeMarker cache ledger EVENT_REGISTERED (registeredData ev ents)
    end.

Definition unregisterEventType (cache : Cache) (ledger : Ledger)
           (stream : list StreamEvent) (ev : jsstring) : M DbState Cache :=
  events <- lift (reduceAllEvents stream) ;;
  match find (fun et => str_eqb (event et) ev) events with
  | Some _ => writeMarker cache ledger EVENT_UNREGISTERED (unregisteredData ev)
  | None =>
      throw (NotFound (u "Event type '" ++ ev ++ u "' does not exist."))
  end.

End Writes.

(** ** The listings *)





Lemma registered_In (H : list Marker) (ev : jsstring) (ents : list jsstring) :
  In {| event := ev; entities := ents |} (toEventTypes (foldMarkers H))
  <-> registeredAs ev H = Some ents.
Proof.
  assert (Hnd : NoDup (okeys (foldMarkers H))).
  { apply fold_markers_NoDup. constructor. }
  rewrite In_toEventTypes, <- foldMarkers_get. split.
  - apply In_oget. exact Hnd.
  - apply oget_Some_In.
Qed.


(** ** The writes *)

Lemma lastMarker_last (H : list Marker) (mk : Marker) :
  lastMarker (markerName mk) (H ++ [mk]) = Some mk.
Proof.
  induction H as [|m H IH]; simpl.
  - rewrite str_eqb_refl. reflexivity.
  - rewrite IH. reflexivity.
Qed.

Lemma getEvent_fresh (H : list Marker) (cache : Cache) (ledger : Ledger)
      (ev : jsstring) :
  cacheFresh cache ledger H ->
  fst (getEvent cache ledger (map markerEvent H) ev)
  = Ok (option_map (fun ents => {| event := ev; entities := ents |})
                   (registeredAs ev H)).
Proof.
  intros Hc. pose proof (cachedAllEvents_fresh Hc) as Hall. unfold getEvent.
  destruct (cachedAllEvents cache ledger (map markerEvent H)) as [r cache'].
  simpl in Hall. subst r. simpl.
  rewrite findEvent_toEventTypes, foldMarkers_get. reflexivity.
Qed.

Lemma cacheFresh_odelete (cache : Cache) (ledger : Ledger) (H : list Marker) :
  cacheFresh (odelete (id ledger) cache) ledger H.
Proof. left. apply oget_odelete_eq. Qed.

Lemma sameRegistration_spec (ev : jsstring) (ents : list jsstring) (et : EventType) :
  sameRegistration ev ents et = true <->
  event et = ev /\ length ents = length (entities et) /\ incl (entities et) ents.
Proof.
  unfold sameRegistration. rewrite !andb_true_iff, str_eqb_eq, Nat.eqb_eq.
  rewrite forallb_forall. unfold incl. split.
  - intros [[H1 H2] H3]. repeat split; auto.
    intros x Hx. apply includes_In. auto.
  - intros [H1 [H2 H3]]. repeat split; auto.
    intros x Hx. apply includes_In. auto.
Qed.

(** The event type is registered now with as many entities as [ents],
    all of them among [ents]: what [registerEventType] takes for the
    same registration. *)
Definition alreadyRegistered (H : list Marker) (ev : jsstring)
           (ents : list jsstring) : Prop :=
  exists ents',
    registeredAs ev H = Some ents' /\
    length ents = length ents' /\ incl ents' ents.

Lemma find_sameRegistration (H : list Marker) (ev : jsstring) (ents : list jsstring) :
  (alreadyRegistered H ev ents ->
   exists et, find (sameRegistration ev ents) (toEventTypes (foldMarkers H)) = Some et) /\
  (~ alreadyRegistered H ev ents ->
   find (sameRegistration ev ents) (toEventTypes (foldMarkers H)) = None).
Proof.
  split.
  - intros [ents' [Hr [Hl Hi]]].
    destruct (find (sameRegistration ev ents) (toEventTypes (foldMarkers H)))
      as [et|] eqn:E; [eauto|].
    apply registered_In in Hr.
    pose proof (find_none _ _ E _ Hr) as Hf.
    assert (Ht : sameRegistration ev ents {| event := ev; entities := ents' |} = true)
      by (apply sameRegistration_spec; simpl; auto).
    congruence.
  - intros Hn.
    destruct (find (sameRegistration ev ents) (toEventTypes (foldMarkers H)))
      as [[ev' ents']|] eqn:E; [|reflexivity].
    apply find_some in E. destruct E as [Hin Hs].
    apply sameRegistration_spec in Hs. simpl in Hs. destruct Hs as [-> [Hl Hi]].
    elim Hn. exists ents'. split; [apply registered_In; exact Hin | auto].
Qed.

Lemma find_registered (H : list Marker) (ev : jsstring) :
  find (fun et => str_eqb (event et) ev) (toEventTypes (foldMarkers H))
  = option_map (fun ents => {| event := ev; entities := ents |})
               (registeredAs ev H).
Proof.
  rewrite <- foldMarkers_get. apply findEvent_toEventTypes.
Qed.

Section WriteFacts.

Variable DbState : Type.
Variable exec : DbState -> DbCall -> DbResponse * DbState.
Variable createId : World DbState -> jsstring.

Lemma writeMarker_accepted (cache : Cache) (ledger : Ledger)
      (action : jsstring) (data : jsval) (w : World DbState)
      (values : AppendEventPostgres) (eid : jsstring) (st1 : DbState) :
  markerValues ledger action data (createId w) = Ok values ->
  exec (db w) (AppendEventCall values) = (EventIdRow eid, st1) ->
  writeMarker exec createId cache ledger action data w
  = (Ok (odelete (id ledger) cache),
     {| db := st1; calls := calls w ++ [AppendEventCall values] |}).
Proof.
  intros Hv He. unfold writeMarker. rewrite Hv. unfold bind, sql.
  rewrite He. reflexivity.
Qed.

(** X27. [registerEventType] writes nothing in two cases: entities that
    include the ledger entity are refused with 403, whatever the ledger
    holds; and an event type registered now with as many entities, all of
    them among the ones given, is taken for the same registration, and
    the call returns with the cache as it was. *)
Theorem registration_that_is_refused_or_known_writes_nothing
        (H : list Marker) (cache : Cache) (ledger : Ledger)
        (ev : jsstring) (ents : list jsstring) (w : World DbState) :
  (includes ents LEDGER = true ->
   forall stream,
     status_of (fst (registerEventType exec createId cache ledger stream ev ents w))
     = Some 403 /\
     snd (registerEventType exec createId cache ledger stream ev ents w) = w) /\
  (includes ents LEDGER = false ->
   alreadyRegistered H ev ents ->
   registerEventType exec createId cache ledger (map markerEvent H) ev ents w
   = (Ok cache, w)).
Proof.
  unfold registerEventType. split.
  - intros -> stream. split; reflexivity.
  - intros -> Ha. rewrite reduceAllEvents_markers. unfold bind, lift.
    destruct (proj1 (find_sameRegistration H ev ents) Ha) as [et ->].
    reflexivity.
Qed.

(** X28. A registration that is not there yet is written and read back:
    when the entities leave the ledger entity out and the event type is
    not registered with them, one [append_event] call writes the marker,
    the cache entry of the ledger is dropped, and once the marker is in
    the ledger [getEvent] returns the event type with the entities
    given, whatever the cache held before. *)
Theorem new_registration_is_written_and_read_back
        (H : list Marker) (cache : Cache) (ledger : Ledger)
        (ev : jsstring) (ents : list jsstring) (w : World DbState)
        (values : AppendEventPostgres) (eid : jsstring) (st1 : DbState) :
  includes ents LEDGER = false ->
  ~ alreadyRegistered H ev ents ->
  markerValues ledger EVENT_REGISTERED (registeredData ev ents) (createId w)
  = Ok values ->
  exec (db w) (AppendEventCall values) = (EventIdRow eid, st1) ->
  exists cache',
    registerEventType exec createId cache ledger (map markerEvent H) ev ents w
    = (Ok cache', {| db := st1; calls := calls w ++ [AppendEventCall values] |}) /\
    oget (id ledger) cache' = None /\
    fst (getEvent cache' ledger (map markerEvent (H ++ [Registered ev ents])) ev)
    = Ok (Some {| event := ev; entities := ents |}).
Proof.
  intros Hl Hn Hv He. exists (odelete (id ledger) cache).
  split; [|split].
  - unfold registerEventType. rewrite Hl, reduceAllEvents_markers.
    unfold bind at 1. unfold lift.
    rewrite (proj2 (find_sameRegistration H ev ents) Hn).
    eapply writeMarker_accepted; eassumption.
  - apply oget_odelete_eq.
  - rewrite (@getEvent_fresh _ _ _ ev (cacheFresh_odelete cache ledger _)).
    unfold registeredAs.
    pose proof (lastMarker_last H (Registered ev ents)) as Hlast.
    simpl in Hlast. rewrite Hlast. reflexivity.
Qed.

(** X29. [unregisterEventType] of an event type that is not registered
    now is refused with 404 and writes nothing. For one that is
    registered, one [append_event] call writes the marker, the cache
    entry of the ledger is dropped, and once the marker is in the ledger
    [getEvent] finds the event type no more. *)
Theorem unregistration_is_404_or_written_and_read_back
        (H : list Marker) (cache : Cache) (ledger : Ledger)
        (ev : jsstring) (w : World DbState) :
  (registeredAs ev H = None ->
   status_of (fst (unregisterEventType exec createId cache ledger
                     (map markerEvent H) ev w)) = Some 404 /\
   snd (unregisterEventType exec createId cache ledger (map markerEvent H) ev w)
   = w) /\
  (forall ents values eid st1,
     registeredAs ev H = Some ents ->
     markerValues ledger EVENT_UNREGISTERED (unregisteredData ev) (createId w)
     = Ok values ->
     exec (db w) (AppendEventCall values) = (EventIdRow eid, st1) ->
     exists cache',
       unregisterEventType exec createId cache ledger (map markerEvent H) ev w
       = (Ok cache',
          {| db := st1; calls := calls w ++ [AppendEventCall values] |}) /\
       oget (id ledger) cache' = None /\
       fst (getEvent cache' ledger (map markerEvent (H ++ [Unregistered ev])) ev)
       = Ok None).
Proof.
  unfold unregisterEventType. rewrite reduceAllEvents_markers.
  unfold bind at 1 2 3. unfold lift. rewrite find_registered. split.
  - intros ->. split; reflexivity.
  - intros ents values eid st1 -> Hv He. simpl.
    exists (odelete (id ledger) cache). split; [|split].
    + eapply writeMarker_accepted; eassumption.
    + apply oget_odelete_eq.
    + rewrite (@getEvent_fresh _ _ _ ev (cacheFresh_odelete cache ledger _)).
      unfold registeredAs.
      pose proof (lastMarker_last H (Unregistered ev)) as Hlast.
      simpl in Hlast. rewrite Hlast. reflexivity.
Qed.

End WriteFacts.

(** Writes on the reference database, over a ledger with one event type
    registered and a cache that holds it. *)
Definition orderTypes : list Marker :=
  [Registered (u "order-placed") [u "order"; u "cart"]].

Definition staleCache : Cache :=
  [(id demoLedger, reduceAllEvents (map markerEvent orderTypes))].

Lemma registration_that_is_refused_or_known_writes_nothing_witness :
  registerEventType RefDb.exec EventStore.demoId staleCache demoLedger
    (map markerEvent orderTypes) (u "order-placed") [u "cart"; u "order"]
    (EventSource.freshWorld [])
  = (Ok staleCache, EventSource.freshWorld []).
Proof.
  refine (proj2 (@registration_that_is_refused_or_known_writes_nothing
                   RefDb.State RefDb.exec EventStore.demoId orderTypes staleCache
                   demoLedger (u "order-placed") [u "cart"; u "order"]
                   (EventSource.freshWorld [])) eq_refl _).
  exists [u "order"; u "cart"]. split; [reflexivity|]. split; [reflexivity|].
  intros x [<- | [<- | []]]; simpl; auto.
Defined.

Lemma new_registration_is_written_and_read_back_witness :
  exists cache',
    fst (registerEventType RefDb.exec EventStore.demoId staleCache demoLedger
           (map markerEvent orderTypes) (u "order-paid") [u "order"]
           (EventSource.freshWorld []))
    = Ok cache' /\
    fst (getEvent cache' demoLedger
           (map markerEvent (orderTypes ++ [Registered (u "order-paid") [u "order"]]))
           (u "order-paid"))
    = Ok (Some {| event := u "order-paid"; entities := [u "order"] |}).
Proof.
  assert (Hn : ~ alreadyRegistered orderTypes (u "order-paid") [u "order"]).
  { intros [ents' [Hr _]]. discriminate Hr. }
  destruct (@new_registration_is_written_and_read_back
              RefDb.State RefDb.exec EventStore.demoId orderTypes staleCache
              demoLedger (u "order-paid") [u "order"] (EventSource.freshWorld [])
              _ _ _ eq_refl Hn eq_refl eq_refl)
    as [cache' [Hrun [_ Hget]]].
  exists cache'. split; [rewrite Hrun; reflexivity | exact Hget].
Defined.

Lemma unregistration_is_404_or_written_and_read_back_witness :
  status_of
    (fst (unregisterEventType RefDb.exec EventStore.demoId staleCache demoLedger
            (map markerEvent orderTypes) (u "order-paid")
            (EventSource.freshWorld [])))
  = Some 404.
Proof.
  exact (proj1 (proj1 (@unregistration_is_404_or_written_and_read_back
                         RefDb.State RefDb.exec EventStore.demoId orderTypes
                         staleCache demoLedger (u "order-paid")
                         (EventSource.freshWorld [])) eq_refl)).
Defined.


(** The test for the same registration counts the entities and looks
    each registered one up among those given: over a type registered
    with one entity twice, two distinct entities are taken for the same
    registration. *)
Example registration_over_a_doubled_entity_is_skipped :
  registerEventType RefDb.exec EventStore.demoId [] demoLedger
    (map markerEvent [Registered (u "x") [u "a"; u "a"]]) (u "x") [u "a"; u "b"]
    (EventSource.freshWorld [])
  = (Ok [], EventSource.freshWorld []).
Proof. reflexivity. Qed.

End RegistryWrites.

(* ===================================================================== *)
(** * Newline-delimited JSON (api/ndjson-utils.ts)                        *)
(* ===================================================================== *)

Module NdJson.

Definition NEWLINE : jsstring := [10%N].

(** ".ndjson" *)
Definition NDJSON_EXT : jsstring := [46; 110; 100; 106; 115; 111; 110]%N.

Definition addNdJsonExt (uriPart : jsstring) : jsstring := uriPart ++ NDJSON_EXT.

(** [select.slice(0, -NDJSON_EXT.length)]. *)
Definition trimNdJsonExt (select : jsstring) : jsstring :=
  firstn (length select - length NDJSON_EXT) select.

Lemma trimNdJsonExt_addNdJsonExt (uriPart : jsstring) :
  trimNdJsonExt (addNdJsonExt uriPart) = uriPart.
Proof.
  unfold trimNdJsonExt, addNdJsonExt. rewrite length_app.
  replace (length uriPart + length NDJSON_EXT - length NDJSON_EXT)%nat
    with (length uriPart + 0)%nat by lia.
  rewrite firstn_app_2. simpl. apply app_nil_r.
Qed.

Section Transformer.

Variable Entry : Type.
Variable stringify : Entry -> jsstring.
(** [this.readableHighWaterMark]. *)
Variable readableHighWaterMark : nat.

Definition addLine (buffer : jsstring) (entry : Entry) : jsstring :=
  buffer ++ stringify entry ++ NEWLINE.

(** [transform]: the chunk handed to [sink], if any, and the buffer
    left. *)
Definition transform (buffer : jsstring) (entry : Entry)
  : option jsstring * jsstring :=
  let buffer := addLine buffer entry in
  if (readableHighWaterMark <? length buffer)%nat then (Some buffer, [])
  else (None, buffer).

(** [final]: the chunk pushed, if any. *)
Definition final (buffer : jsstring) : option jsstring :=
  match buffer with
  | [] => None
  | _ => Some buffer
  end.

(** The chunks that come out when [input] delivers [entries] and ends. *)
Fixpoint pipe (buffer : jsstring) (entries : list Entry) : list jsstring :=
  match entries with
  | [] =>
      match final buffer with
      | Some chunk => [chunk]
      | None => []
      end
  | entry :: rest =>
      match transform buffer entry with
      | (Some chunk, buffer') => chunk :: pipe buffer' rest
      | (None, buffer') => pipe buffer' rest
      end
  end.

Definition toNdJsonTransformer (input : list Entry) : list jsstring :=
  pipe [] input.

(** The lines of some entries, one after the other. *)
Definition linesOf (entries : list Entry) : jsstring :=
  flat_map (fun entry => stringify entry ++ NEWLINE) entries.

(** Every element but the last. *)
Fixpoint allButLast {A} (P : A -> Prop) (xs : list A) : Prop :=
  match xs with
  | [] => True
  | x :: rest =>
      match rest with
      | [] => True
      | _ => P x /\ allButLast P rest
      end
  end.

Lemma linesOf_app (xs ys : list Entry) :
  linesOf (xs ++ ys) = linesOf xs ++ linesOf ys.
Proof. unfold linesOf. apply flat_map_app. Qed.

Lemma linesOf_nil_inv (xs : list Entry) : linesOf xs = [] -> xs = [].
Proof.
  destruct xs as [|x xs]; [reflexivity|]. unfold linesOf. simpl.
  intros H. apply app_eq_nil in H. destruct H as [H _].
  apply app_eq_nil in H. destruct H as [_ H]. discriminate.
Qed.

Lemma addLine_linesOf (pending : list Entry) (entry : Entry) :
  addLine (linesOf pending) entry = linesOf (pending ++ [entry]).
Proof.
  unfold addLine. rewrite linesOf_app. unfold linesOf at 2. simpl.
  rewrite app_nil_r. reflexivity.
Qed.

Lemma pipe_groups (entries pending : list Entry) :
  exists groups,
    concat groups = pending ++ entries /\
    Forall (fun group => group <> []) groups /\
    pipe (linesOf pending) entries = map linesOf groups /\
    allButLast (fun group => (readableHighWaterMark < length (linesOf group))%nat)
               groups.
Proof.
  revert pending. induction entries as [|entry rest IH]; intros pending; simpl.
  - destruct (linesOf pending) as [|c r] eqn:E.
    + exists []. apply linesOf_nil_inv in E. subst.
      simpl. repeat split. constructor.
    + exists [pending]. simpl. rewrite !app_nil_r, E. repeat split.
      constructor; [|constructor]. intros ->. discriminate.
  - unfold transform. rewrite addLine_linesOf.
    destruct (readableHighWaterMark <? length (linesOf (pending ++ [entry])))%nat
      eqn:Hw.
    + destruct (IH []) as [groups [Hc [Hne [Hp Ha]]]].
      exists ((pending ++ [entry]) :: groups). simpl in *.
      rewrite Hc, <- app_assoc. simpl. split; [reflexivity|]. split; [|split].
      * constructor; [|exact Hne]. intros H. apply app_eq_nil in H.
        destruct H; discriminate.
      * f_equal. exact Hp.
      * destruct groups; [exact I|]. split; [|exact Ha].
        apply Nat.ltb_lt. exact Hw.
    + destruct (IH (pending ++ [entry])) as [groups [Hc [Hne [Hp Ha]]]].
      exists groups. rewrite Hc, <- app_assoc. simpl. auto.
Qed.

(** X30. The transformer hands the lines on in whole: the chunks it
    emits are the lines of consecutive groups of entries, no group
    empty, which together are the input in its order; so the chunks put
    end to end are the line of every entry followed by a newline, and
    every chunk but the last is longer than the high-water mark. *)
Theorem chunks_are_whole_lines_in_order (input : list Entry) :
  concat (toNdJsonTransformer input) = linesOf input /\
  exists groups,
    concat groups = input /\
    Forall (fun group => group <> []) groups /\
    toNdJsonTransformer input = map linesOf groups /\
    allButLast (fun group => (readableHighWaterMark < length (linesOf group))%nat)
               groups.
Proof.
  destruct (pipe_groups input []) as [groups [Hc [Hne [Hp Ha]]]].
  simpl in Hc. change (linesOf []) with (@nil N) in Hp.
  unfold toNdJsonTransformer. split.
  - rewrite Hp, <- Hc. clear. induction groups as [|g gs IH]; simpl.
    + reflexivity.
    + rewrite linesOf_app, IH. reflexivity.
  - exists groups. auto.
Qed.

End Transformer.

(** Three entries of three units each through a mark of five: the first
    two lines make the first chunk, the third is pushed at the end. *)
Example three_lines_in_two_chunks :
  toNdJsonTransformer (fun entry : jsstring => entry) 5
    [[97; 97; 97]; [98; 98; 98]; [99; 99; 99]]%N
  = [[97; 97; 97; 10; 98; 98; 98; 10]; [99; 99; 99; 10]]%N.
Proof. reflexivity. Qed.

End NdJson.
